(** * entity-ctrl: the field controller ([FieldCtrl.ts]) as a state machine

    A shallow embedding of [src/FieldCtrl.ts] (the current class, lines
    1-673) with the types of [src/types.ts].  The class is modelled as a
    record of its properties; every method is a computation in a state and
    exception monad over that record.

    Conventions of the embedding.
    - Numbers are binary64 values.  The embedding has the integer-valued
      ones, as integers ([Z]): the counters, and the numbers among the
      values ([VNum]).  [c++] and [a + b] round as binary64 arithmetic
      does ([to_number], [number_incr], [number_add]).  An integer that is
      not a binary64 value, such as [2^53 + 1], stands for no number of the
      program; [NaN], the infinities as counters, [-0] and fractions are
      not in the embedding.
    - A check function ([FieldValidate]) is a function of the publicly
      readable data of the controller ([FieldView]; the private message
      sources are not in it, nor the configuration getters); it may return
      a boolean, throw, or return a promise.  A promise carries the way it
      is going to settle; when it settles is decided by the environment
      (the events [Settle] and [Finish] of a run).
    - A listener is an observer: calling it appends a record to the
      [notifications] log of the controller; it neither throws nor calls
      back into the controller.
    - Arrays that the code compares by identity ([_messages],
      [_rulesMessages]) carry the identity they were allocated with.
    - The configuration is held by value; which of its objects are shared
      with the caller of the [validation] getter is studied in
      [Module Aliasing].
    - Where a source name is taken ([touch], [error], [warning] are also
      values of the string enumerations) the member gets a trailing
      underscore or a prefix: [touch_], [error_], [set_value] for
      [set value(v)], [assign_value] for [this._value = v]. *)

From stdpp Require Import base option list gmap strings.
From Stdlib Require Import ZArith Lia.

Local Open Scope Z_scope.

(** ** Types ([types.ts]) *)

Inductive ValidationEventType := touch | change | demand.
Inductive FieldMessageType := error | warning | success | info.
Inductive FieldParam := value | touched | changed | error_ | warning_ | messages.
Inductive FieldListenerParam := param (p : FieldParam) | any.

Global Instance ValidationEventType_eq_dec : EqDecision ValidationEventType.
Proof. solve_decision. Defined.
Global Instance FieldMessageType_eq_dec : EqDecision FieldMessageType.
Proof. solve_decision. Defined.
Global Instance FieldParam_eq_dec : EqDecision FieldParam.
Proof. solve_decision. Defined.
Global Instance FieldListenerParam_eq_dec : EqDecision FieldListenerParam.
Proof. solve_decision. Defined.

(** Values a field can hold: the primitives the default required check
    distinguishes, and objects by reference. *)
Inductive JsValue :=
| VUndefined
| VNull
| VBool (b : bool)
| VNum (n : Z)
| VStr (s : string)
| VObj (ref : nat).

Global Instance JsValue_eq_dec : EqDecision JsValue.
Proof. solve_decision. Defined.

Record FieldMessage := {
  message : option string;
  type : option FieldMessageType;
}.

Global Instance FieldMessage_eq_dec : EqDecision FieldMessage.
Proof. solve_decision. Defined.

(** [boolean | T[]] as used by [holdValidation] and [holdListeners]. *)
Inductive Hold (A : Type) := HoldBool (b : bool) | HoldList (l : list A).
Arguments HoldBool {A} b.
Arguments HoldList {A} l.

(** An array with the identity it was created with. *)
Record JsArray (A : Type) := { arr_id : nat; arr_items : list A }.
Arguments arr_id {A} _.
Arguments arr_items {A} _.
Arguments Build_JsArray {A} _ _.

(** What a check function can read: the public getters of the controller. *)
Record FieldView := {
  v_value : JsValue;
  v_defaultValue : JsValue;
  v_touched : Z;
  v_changed : Z;
  v_error : bool;
  v_warning : bool;
  v_messages : option (list FieldMessage);
  v_customMessages : option (list FieldMessage);
  v_errorOverride : option bool;
  v_warningOverride : option bool;
}.

Inductive Settlement := Resolves (b : bool) | Rejects.
Inductive CheckOutcome :=
| Returns (b : bool)
| Throws
| ReturnsPromise (p : Settlement).

Definition FieldValidate := FieldView -> CheckOutcome.

Record FieldValidationRule := {
  rule_message : option string;
  rule_type : option FieldMessageType;
  rule_validate : option FieldValidate;
  typeIfPassed : option FieldMessageType;
  validateOn : option ValidationEventType;
}.

(** [boolean | string | FieldValidationRule]; a rule object is compared by
    identity in the [required] setter, hence its reference. *)
Inductive FieldRequired :=
| ReqBool (b : bool)
| ReqString (s : string)
| ReqRule (ref : nat) (r : FieldValidationRule).

Record ValidationOptions := {
  opt_validateOn : option ValidationEventType;
  opt_requiredValidate : option FieldValidate;
  opt_requiredMessage : option string;
}.

Record FieldValidation := {
  fv_validateOn : option ValidationEventType;
  fv_requiredValidate : option FieldValidate;
  fv_requiredMessage : option string;
  rules : option (list FieldValidationRule);
  required : option FieldRequired;
}.

(** The part of the parent [EntityCtrl] a field reads. *)
Record EntityCtrl := { validationOptions : option ValidationOptions }.

(** Listener storage: [Set<listener> | listener | null]; a [Set] iterates in
    insertion order and holds no duplicates. *)
Inductive ParamListeners :=
| NoListeners
| OneListener (l : nat)
| SetOfListeners (ls : list nat).

(** The previous value handed to a listener. *)
Inductive ParamValue :=
| PValue (v : JsValue)
| PNum (n : Z)
| PBool (b : bool)
| PMessages (m : option (JsArray FieldMessage))
| PUndefined.

Record Notification := {
  n_listener : nat;
  n_param : FieldListenerParam;
  n_prev : ParamValue;
}.

Inductive RuleIndex := IdxRequired | IdxRule (i : nat).

(** One entry of the [results] array of [_validate]: a boolean, or the
    promise [passedMaybePromise.catch(..).then(processPassed)] with what its
    continuation has captured. *)
Inductive ResultItem :=
| Done (b : bool)
| Waiting (rule : FieldValidationRule) (index : RuleIndex)
          (rulesMessages : nat) (p : Settlement).

(** The promise [Promise.all(results).then(processBools)] returned by an
    asynchronous [_validate]: [job_update] tells which [processBools] was
    chosen, [job_value] is the value the promise has resolved to. *)
Record Job := {
  job_items : list ResultItem;
  job_update : bool;
  job_value : option bool;
}.

(** ** The controller *)

Record Params := {
  _value : JsValue;
  _touched : Z;
  _changed : Z;
  _error : bool;
  _warning : bool;
  _messages : option (JsArray FieldMessage);
}.

Record Sources := {
  _requiredMessage : option FieldMessage;
  _rulesMessages : option (JsArray (option FieldMessage));
  _customMessages : option (list FieldMessage);
  _errorOverride : option bool;
  _warningOverride : option bool;
}.

Record Settings := {
  parent : option EntityCtrl;
  defaultValue : JsValue;
  holdValidation : Hold ValidationEventType;
  holdListeners : Hold FieldParam;
  _validation : option FieldValidation;
}.

Record Runtime := {
  notifications : list Notification;
  next_array : nat;
  promises : list Job;
}.

Record FieldCtrl := {
  settings : Settings;
  params : Params;
  sources : Sources;
  _listeners : FieldListenerParam -> ParamListeners;
  runtime : Runtime;
}.

(** ** Property updates *)

Definition with_settings (f : Settings -> Settings) (s : FieldCtrl) : FieldCtrl :=
  {| settings := f (settings s); params := params s; sources := sources s;
     _listeners := _listeners s; runtime := runtime s |}.
Definition with_params (f : Params -> Params) (s : FieldCtrl) : FieldCtrl :=
  {| settings := settings s; params := f (params s); sources := sources s;
     _listeners := _listeners s; runtime := runtime s |}.
Definition with_sources (f : Sources -> Sources) (s : FieldCtrl) : FieldCtrl :=
  {| settings := settings s; params := params s; sources := f (sources s);
     _listeners := _listeners s; runtime := runtime s |}.
Definition with_listeners (f : (FieldListenerParam -> ParamListeners) ->
                               FieldListenerParam -> ParamListeners)
    (s : FieldCtrl) : FieldCtrl :=
  {| settings := settings s; params := params s; sources := sources s;
     _listeners := f (_listeners s); runtime := runtime s |}.
Definition with_runtime (f : Runtime -> Runtime) (s : FieldCtrl) : FieldCtrl :=
  {| settings := settings s; params := params s; sources := sources s;
     _listeners := _listeners s; runtime := f (runtime s) |}.

Definition put_value (v : JsValue) (p : Params) : Params :=
  {| _value := v; _touched := _touched p; _changed := _changed p;
     _error := _error p; _warning := _warning p; _messages := _messages p |}.
Definition put_touched (t : Z) (p : Params) : Params :=
  {| _value := _value p; _touched := t; _changed := _changed p;
     _error := _error p; _warning := _warning p; _messages := _messages p |}.
Definition put_changed (c : Z) (p : Params) : Params :=
  {| _value := _value p; _touched := _touched p; _changed := c;
     _error := _error p; _warning := _warning p; _messages := _messages p |}.
Definition put_error (e : bool) (p : Params) : Params :=
  {| _value := _value p; _touched := _touched p; _changed := _changed p;
     _error := e; _warning := _warning p; _messages := _messages p |}.
Definition put_warning (w : bool) (p : Params) : Params :=
  {| _value := _value p; _touched := _touched p; _changed := _changed p;
     _error := _error p; _warning := w; _messages := _messages p |}.
Definition put_messages (m : option (JsArray FieldMessage)) (p : Params) : Params :=
  {| _value := _value p; _touched := _touched p; _changed := _changed p;
     _error := _error p; _warning := _warning p; _messages := m |}.

Definition put_requiredMessage (m : option FieldMessage) (x : Sources) : Sources :=
  {| _requiredMessage := m; _rulesMessages := _rulesMessages x;
     _customMessages := _customMessages x; _errorOverride := _errorOverride x;
     _warningOverride := _warningOverride x |}.
Definition put_rulesMessages (m : option (JsArray (option FieldMessage)))
    (x : Sources) : Sources :=
  {| _requiredMessage := _requiredMessage x; _rulesMessages := m;
     _customMessages := _customMessages x; _errorOverride := _errorOverride x;
     _warningOverride := _warningOverride x |}.
Definition put_customMessages (m : option (list FieldMessage)) (x : Sources) : Sources :=
  {| _requiredMessage := _requiredMessage x; _rulesMessages := _rulesMessages x;
     _customMessages := m; _errorOverride := _errorOverride x;
     _warningOverride := _warningOverride x |}.
Definition put_errorOverride (o : option bool) (x : Sources) : Sources :=
  {| _requiredMessage := _requiredMessage x; _rulesMessages := _rulesMessages x;
     _customMessages := _customMessages x; _errorOverride := o;
     _warningOverride := _warningOverride x |}.
Definition put_warningOverride (o : option bool) (x : Sources) : Sources :=
  {| _requiredMessage := _requiredMessage x; _rulesMessages := _rulesMessages x;
     _customMessages := _customMessages x; _errorOverride := _errorOverride x;
     _warningOverride := o |}.

Definition put_parent (e : option EntityCtrl) (x : Settings) : Settings :=
  {| parent := e; defaultValue := defaultValue x;
     holdValidation := holdValidation x; holdListeners := holdListeners x;
     _validation := _validation x |}.
Definition put_defaultValue (v : JsValue) (x : Settings) : Settings :=
  {| parent := parent x; defaultValue := v;
     holdValidation := holdValidation x; holdListeners := holdListeners x;
     _validation := _validation x |}.
Definition put_holdValidation (h : Hold ValidationEventType) (x : Settings) : Settings :=
  {| parent := parent x; defaultValue := defaultValue x;
     holdValidation := h; holdListeners := holdListeners x;
     _validation := _validation x |}.
Definition put_holdListeners (h : Hold FieldParam) (x : Settings) : Settings :=
  {| parent := parent x; defaultValue := defaultValue x;
     holdValidation := holdValidation x; holdListeners := h;
     _validation := _validation x |}.
Definition put_validation (v : option FieldValidation) (x : Settings) : Settings :=
  {| parent := parent x; defaultValue := defaultValue x;
     holdValidation := holdValidation x; holdListeners := holdListeners x;
     _validation := v |}.

Definition put_notifications (l : list Notification) (r : Runtime) : Runtime :=
  {| notifications := l; next_array := next_array r; promises := promises r |}.
Definition put_next_array (n : nat) (r : Runtime) : Runtime :=
  {| notifications := notifications r; next_array := n; promises := promises r |}.
Definition put_promises (j : list Job) (r : Runtime) : Runtime :=
  {| notifications := notifications r; next_array := next_array r; promises := j |}.

(** ** The monad of methods: state, and exceptions that keep the state *)

Inductive Completion (A : Type) :=
| Normal (a : A) (s : FieldCtrl)
| Thrown (s : FieldCtrl).
Arguments Normal {A} a s.
Arguments Thrown {A} s.

Definition M (A : Type) : Type := FieldCtrl -> Completion A.

Definition ret {A} (a : A) : M A := fun s => Normal a s.
Definition bind {A B} (m : M A) (k : A -> M B) : M B :=
  fun s => match m s with
           | Normal a s' => k a s'
           | Thrown s' => Thrown s'
           end.
Definition throw {A} : M A := fun s => Thrown s.
Definition try_catch {A} (body handler : M A) : M A :=
  fun s => match body s with
           | Normal a s' => Normal a s'
           | Thrown s' => handler s'
           end.
Definition gets {A} (f : FieldCtrl -> A) : M A := fun s => Normal (f s) s.
Definition modify (f : FieldCtrl -> FieldCtrl) : M unit := fun s => Normal tt (f s).

Notation "x <- m ;; k" := (bind m (fun x => k))
  (at level 100, m at next level, k at level 200, right associativity).
Notation "m ;;; k" := (bind m (fun _ => k))
  (at level 100, k at level 200, right associativity).

Definition when (b : bool) (m : M unit) : M unit := if b then m else ret tt.

Fixpoint for_each {A} (l : list A) (body : A -> M unit) : M unit :=
  match l with
  | [] => ret tt
  | x :: l' => body x ;;; for_each l' body
  end.

(** Reading [this.<property>], and the assignments [this.<property> = x]. *)
Definition this_params {A} (f : Params -> A) : M A := gets (fun s => f (params s)).
Definition this_sources {A} (f : Sources -> A) : M A := gets (fun s => f (sources s)).
Definition this_settings {A} (f : Settings -> A) : M A := gets (fun s => f (settings s)).

Definition assign_value v := modify (with_params (put_value v)).
Definition assign_touched t := modify (with_params (put_touched t)).
Definition assign_changed c := modify (with_params (put_changed c)).
Definition assign_error e := modify (with_params (put_error e)).
Definition assign_warning w := modify (with_params (put_warning w)).
Definition assign_messages m := modify (with_params (put_messages m)).
Definition assign_requiredMessage m := modify (with_sources (put_requiredMessage m)).
Definition assign_rulesMessages m := modify (with_sources (put_rulesMessages m)).
Definition assign_customMessages m := modify (with_sources (put_customMessages m)).
Definition assign_errorOverride o := modify (with_sources (put_errorOverride o)).
Definition assign_warningOverride o := modify (with_sources (put_warningOverride o)).
Definition assign_validation v := modify (with_settings (put_validation v)).

(** [[]]: a new array, with an identity no other array has. *)
Definition new_array {A} : M (JsArray A) :=
  n <- gets (fun s => next_array (runtime s)) ;;
  modify (with_runtime (put_next_array (S n))) ;;;
  ret (Build_JsArray n []).

Definition push {A} (a : JsArray A) (x : A) : JsArray A :=
  Build_JsArray (arr_id a) (arr_items a ++ [x]).

(** ** JavaScript arrays with holes *)

(** [a[i]]: [undefined] for a hole and out of range. *)
Definition array_get {A} (l : list (option A)) (i : nat) : option A :=
  mjoin (l !! i).

(** [a[i] = x]: out of range the array grows, with holes in between. *)
Definition array_set {A} (l : list (option A)) (i : nat) (x : A) : list (option A) :=
  if decide (i < length l)%nat
  then <[i := Some x]> l
  else l ++ replicate (i - length l)%nat None ++ [Some x].

(** [delete a[i]]: leaves a hole, the length stays. *)
Definition array_delete {A} (l : list (option A)) (i : nat) : list (option A) :=
  <[i := None]> l.

(** [a.includes(x)] *)
Definition includes {A} `{EqDecision A} (x : A) (l : list A) : bool :=
  bool_decide (x ∈ l).

(** ** Listeners *)

Definition set_listeners (p : FieldListenerParam) (ls : ParamListeners) : M unit :=
  modify (with_listeners (fun old q => if decide (q = p) then ls else old q)).

(** [Set.prototype.add] and [Set.prototype.delete] on an insertion-ordered set. *)
Definition set_add (l : nat) (set : list nat) : list nat :=
  if includes l set then set else set ++ [l].
Definition set_delete (l : nat) (set : list nat) : list nat :=
  filter (fun x => x <> l) set.

Definition addListener (p : FieldListenerParam) (l : nat) : M unit :=
  ls <- gets (fun s => _listeners s p) ;;
  match ls with
  | NoListeners => set_listeners p (OneListener l)
  | SetOfListeners set => set_listeners p (SetOfListeners (set_add l set))
  | OneListener l0 => set_listeners p (SetOfListeners (set_add l (set_add l0 [])))
  end.

Definition removeListener (p : FieldListenerParam) (l : nat) : M bool :=
  ls <- gets (fun s => _listeners s p) ;;
  match ls with
  | NoListeners => ret false
  | SetOfListeners set =>
      let deleted := includes l set in
      let set' := set_delete l set in
      (if deleted && bool_decide (length set' < 2)%nat
       then set_listeners p match set' with
                            | l' :: _ => OneListener l'
                            | [] => NoListeners
                            end
       else set_listeners p (SetOfListeners set')) ;;;
      ret deleted
  | OneListener l0 =>
      if decide (l0 = l) then set_listeners p NoListeners ;;; ret true
      else ret false
  end.

(** [listener(this, param, prev)] *)
Definition call_listener (p : FieldListenerParam) (prev : ParamValue) (l : nat) : M unit :=
  modify (with_runtime (fun r =>
    put_notifications (notifications r ++ [Build_Notification l p prev]) r)).

(** [this[`_${param}`]] *)
Definition current (p : FieldParam) (s : FieldCtrl) : ParamValue :=
  match p with
  | value => PValue (_value (params s))
  | touched => PNum (_touched (params s))
  | changed => PNum (_changed (params s))
  | error_ => PBool (_error (params s))
  | warning_ => PBool (_warning (params s))
  | messages => PMessages (_messages (params s))
  end.

(** [Object.is]: primitives by value, arrays and objects by identity. *)
Definition Object_is (a b : ParamValue) : bool :=
  match a, b with
  | PValue x, PValue y => bool_decide (x = y)
  | PNum x, PNum y => bool_decide (x = y)
  | PBool x, PBool y => bool_decide (x = y)
  | PMessages x, PMessages y => bool_decide (arr_id <$> x = arr_id <$> y)
  | PUndefined, PUndefined => true
  | _, _ => false
  end.

Definition _triggerListeners (p : FieldListenerParam) (prev : ParamValue) : M bool :=
  same <- match p with
          | param q => cur <- gets (current q) ;; ret (Object_is cur prev)
          | any => ret false
          end ;;
  if same : bool then ret false else
  paramListeners <- gets (fun s => _listeners s p) ;;
  match paramListeners with
  | NoListeners => ret true
  | _ =>
      hold <- this_settings holdListeners ;;
      let holdParamListeners :=
        match hold with
        | HoldBool b => b
        | HoldList l => match p with param q => includes q l | any => false end
        end in
      if holdParamListeners then ret true else
      match paramListeners with
      | SetOfListeners ls => for_each ls (call_listener p prev)
      | OneListener l => call_listener p prev l
      | NoListeners => ret tt
      end ;;;
      ret true
  end.

(** ** Message composer: [_updateMessages] *)

Inductive Only := onlyError | onlyWarning.

(** [!only] and [only !== x] *)
Definition not_only (only : option Only) : bool :=
  if only is None then true else false.
Definition only_not (x : Only) (only : option Only) : bool :=
  match only, x with
  | Some onlyError, onlyError | Some onlyWarning, onlyWarning => false
  | _, _ => true
  end.

Definition processInternalMessage (only : option Only)
    (errorOverride warningOverride : option bool) (m : FieldMessage) : M unit :=
  when (not_only only)
    (ms <- this_params _messages ;;
     arr <- match ms with Some a => ret a | None => new_array end ;;
     assign_messages (Some (push arr m))) ;;;
  when (only_not onlyWarning only)
    (e <- this_params _error ;;
     assign_error (default (e || bool_decide (type m = Some error)) errorOverride)) ;;;
  when (only_not onlyError only)
    (w <- this_params _warning ;;
     assign_warning (default (w || bool_decide (type m = Some warning)) warningOverride)).

Definition _updateMessages (only : option Only) (skipListeners : bool) : M unit :=
  prevError <- this_params _error ;;
  prevWarning <- this_params _warning ;;
  prevMessages <- this_params _messages ;;
  requiredMessage <- this_sources _requiredMessage ;;
  rulesMessages <- this_sources _rulesMessages ;;
  customMessages <- this_sources _customMessages ;;
  errorOverride <- this_sources _errorOverride ;;
  warningOverride <- this_sources _warningOverride ;;
  when (not_only only) (assign_messages None) ;;;
  when (only_not onlyWarning only) (assign_error (default false errorOverride)) ;;;
  when (only_not onlyError only) (assign_warning (default false warningOverride)) ;;;
  let process := processInternalMessage only errorOverride warningOverride in
  match requiredMessage with Some m => process m | None => ret tt end ;;;
  match rulesMessages with
  | Some a => for_each (arr_items a)
                (fun slot => match slot with Some m => process m | None => ret tt end)
  | None => ret tt
  end ;;;
  (* the elements of [customMessages] are [FieldMessage] objects, which
     are truthy: the guard [if (message)] always passes *)
  match customMessages with
  | Some l => for_each l process
  | None => ret tt
  end ;;;
  when (negb skipListeners)
    (errorChanged <- _triggerListeners (param error_) (PBool prevError) ;;
     warningChanged <- _triggerListeners (param warning_) (PBool prevWarning) ;;
     messagesChanged <- _triggerListeners (param messages) (PMessages prevMessages) ;;
     when (errorChanged || warningChanged || messagesChanged)
       (_triggerListeners any PUndefined ;;; ret tt)).

(** ** Validation engine: [_validate] *)

(** Modelled from the spec: [shallowEqual] of [utils.js], which is not among
    the sources ("shallow field-by-field equality"); [null] and [undefined]
    equal no message object. *)
Definition shallowEqual (a : option FieldMessage) (b : FieldMessage) : bool :=
  match a with
  | Some a => bool_decide (message a = message b) && bool_decide (type a = type b)
  | None => false
  end.

(** Modelled from the spec: [everyTruthy] of [utils.js], which is not among
    the sources ("the logical AND of all individual outcomes"). *)
Definition everyTruthy (bools : list bool) : bool := forallb id bools.

(** [VALIDATION_DEFAULTS] *)
Definition default_validateOn : ValidationEventType := demand.
Definition default_requiredValidate : FieldValidate :=
  fun fc => Returns (bool_decide (v_value fc <> VUndefined) &&
                     bool_decide (v_value fc <> VNull) &&
                     bool_decide (v_value fc <> VStr "") &&
                     bool_decide (v_value fc <> VNum 0)).
Definition default_requiredMessage : string := "Required field".

(** [this.parent?.validationOptions?.[param] || VALIDATION_DEFAULTS[param]] *)
Definition parent_option {A} (f : ValidationOptions -> option A) : M (option A) :=
  p <- this_settings parent ;;
  ret (o ← (e ← p; validationOptions e); f o).

Definition _getValidationDefault_validateOn : M ValidationEventType :=
  o <- parent_option opt_validateOn ;;
  ret (default default_validateOn o).
Definition _getValidationDefault_requiredValidate : M FieldValidate :=
  o <- parent_option opt_requiredValidate ;;
  ret (default default_requiredValidate o).
Definition _getValidationDefault_requiredMessage : M string :=
  o <- parent_option opt_requiredMessage ;;
  ret (match o with
       | Some m => if decide (m = "") then default_requiredMessage else m
       | None => default_requiredMessage
       end).

Definition view (s : FieldCtrl) : FieldView :=
  {| v_value := _value (params s);
     v_defaultValue := defaultValue (settings s);
     v_touched := _touched (params s);
     v_changed := _changed (params s);
     v_error := _error (params s);
     v_warning := _warning (params s);
     v_messages := arr_items <$> _messages (params s);
     v_customMessages := _customMessages (sources s);
     v_errorOverride := _errorOverride (sources s);
     v_warningOverride := _warningOverride (sources s) |}.

(** What [rule.validate(this)] evaluates to. *)
Inductive Passed := PassedBool (b : bool) | PassedPromise (p : Settlement).

Definition call_validate (f : FieldValidate) : M Passed :=
  fun s => match f (view s) with
           | Returns b => Normal (PassedBool b) s
           | Throws => Thrown s
           | ReturnsPromise p => Normal (PassedPromise p) s
           end.

(** The local variables of [_validate] that [validateRule] assigns. *)
Record Locals := {
  promisified : bool;
  needUpdate : bool;
  results : list ResultItem;
}.

(** An update of the array [rulesMessages] that [_validate] has captured.
    [f] returns the new items, or [None] when it leaves the array alone.
    While [_validate] runs synchronously the captured array is the field's
    [_rulesMessages].  A continuation that runs later may hold an array the
    field has dropped since ([clear], [clearValidated]): what it writes
    there is invisible to the field, and the flag it sets is not read any
    more. *)
Definition update_rulesMessages (arr : nat)
    (f : list (option FieldMessage) -> option (list (option FieldMessage))) : M bool :=
  cur <- this_sources _rulesMessages ;;
  match cur with
  | Some a =>
      if decide (arr_id a = arr) then
        match f (arr_items a) with
        | Some items' =>
            assign_rulesMessages (Some (Build_JsArray (arr_id a) items')) ;;; ret true
        | None => ret false
        end
      else ret true
  | None => ret true
  end.

(** [processPassed]: returns whether it has set [needUpdate], and
    [Boolean(passed)]. *)
Definition processPassed (rule : FieldValidationRule) (index : RuleIndex)
    (rulesMessages : nat) (passed : bool) : M (bool * bool) :=
  let msgType := if passed then typeIfPassed rule
                 else Some (default error (rule_type rule)) in
  update <-
    match msgType with
    | Some t =>
        let m := {| message := rule_message rule; type := Some t |} in
        match index with
        | IdxRequired =>
            cur <- this_sources _requiredMessage ;;
            if shallowEqual cur m then ret false
            else assign_requiredMessage (Some m) ;;; ret true
        | IdxRule i =>
            update_rulesMessages rulesMessages (fun items =>
              if shallowEqual (array_get items i) m then None
              else Some (array_set items i m))
        end
    | None =>
        match index with
        | IdxRequired =>
            cur <- this_sources _requiredMessage ;;
            if cur is Some _ then assign_requiredMessage None ;;; ret true
            else ret false
        | IdxRule i =>
            update_rulesMessages rulesMessages (fun items =>
              if array_get items i is Some _ then Some (array_delete items i)
              else None)
        end
    end ;;
  ret (update, passed).

Definition ruleValidateOn (validation : FieldValidation) (rule : FieldValidationRule)
    : M ValidationEventType :=
  d <- _getValidationDefault_validateOn ;;
  ret (default d (validateOn rule ∪ fv_validateOn validation)).

Definition shouldValidate (eventType : option ValidationEventType)
    (holdValidation : Hold ValidationEventType) (on : ValidationEventType) : bool :=
  match eventType with
  | Some e => bool_decide (on = e) || (bool_decide (e = touch) && bool_decide (on = change))
  | None =>
      match holdValidation with
      | HoldList l => negb (includes on l)
      | HoldBool _ => true
      end
  end.

Definition validateRule (validation : FieldValidation)
    (eventType : option ValidationEventType) (holdValidation : Hold ValidationEventType)
    (rulesMessages : nat) (rule : FieldValidationRule) (index : RuleIndex)
    (loc : Locals) : M Locals :=
  on <- ruleValidateOn validation rule ;;
  if negb (shouldValidate eventType holdValidation on) then ret loc else
  passedMaybePromise <-
    try_catch
      match rule_validate rule with
      | Some f => call_validate f
      | None => ret (PassedBool false)
      end
      (ret (PassedBool false)) ;;
  match passedMaybePromise with
  | PassedPromise p =>
      ret {| promisified := true; needUpdate := needUpdate loc;
             results := results loc ++ [Waiting rule index rulesMessages p] |}
  | PassedBool passed =>
      r <- processPassed rule index rulesMessages passed ;;
      ret {| promisified := promisified loc; needUpdate := needUpdate loc || r.1;
             results := results loc ++ [Done r.2] |}
  end.

(** [validation.required] as a condition. *)
Definition required_truthy (r : option FieldRequired) : bool :=
  match r with
  | Some (ReqBool b) => b
  | Some (ReqString s) => bool_decide (s <> "")
  | Some (ReqRule _ _) => true
  | None => false
  end.

(** The rule the required check runs: the rule object itself, or
    [{ type: 'error' }] completed with the check and the message. *)
Definition requiredRule (validation : FieldValidation) (r : FieldRequired)
    : M FieldValidationRule :=
  match r with
  | ReqRule _ rule => ret rule
  | _ =>
      dv <- _getValidationDefault_requiredValidate ;;
      dm <- _getValidationDefault_requiredMessage ;;
      ret {| rule_message := Some (match r with ReqString s => s | _ => dm end);
             rule_type := Some error;
             rule_validate := Some (default dv (fv_requiredValidate validation));
             typeIfPassed := None;
             validateOn := None |}
  end.

(** [for (let i = 0; i < len; i++) validateRule(rules[i], i)], from index [i]. *)
Fixpoint validateRules (validation : FieldValidation)
    (eventType : option ValidationEventType) (holdValidation : Hold ValidationEventType)
    (rulesMessages : nat) (rs : list FieldValidationRule) (i : nat)
    (loc : Locals) : M Locals :=
  match rs with
  | [] => ret loc
  | rule :: rs' =>
      loc' <- validateRule validation eventType holdValidation rulesMessages
                rule (IdxRule i) loc ;;
      validateRules validation eventType holdValidation rulesMessages rs' (S i) loc'
  end.

(** The booleans of a [results] array; a promise object is truthy. *)
Definition bools (rs : list ResultItem) : list bool :=
  map (fun r => match r with Done b => b | Waiting _ _ _ _ => true end) rs.

(** What [_validate] returns: a boolean, or a promise (its index in
    [promises]). *)
Inductive Outcome := Now (b : bool) | Later (promise : nat).

Definition _validate (eventType : option ValidationEventType)
    (skipSyncListeners : bool) : M Outcome :=
  v <- this_settings _validation ;;
  match v with
  | None => ret (Now true)
  | Some validation =>
      hold <- this_settings holdValidation ;;
      let holdForSure :=
        match hold with
        | HoldBool b => b
        | HoldList l => match eventType with Some e => includes e l | None => false end
        end in
      if holdForSure then ret (Now true) else
      rm <- this_sources _rulesMessages ;;
      rulesMessages <- match rm with
                       | Some a => ret a
                       | None => a <- new_array ;;
                                 assign_rulesMessages (Some a) ;;; ret a
                       end ;;
      let loc0 := {| promisified := false; needUpdate := false; results := [] |} in
      loc1 <- (if required_truthy (required validation) then
                 match required validation with
                 | Some r =>
                     rule <- requiredRule validation r ;;
                     validateRule validation eventType hold (arr_id rulesMessages)
                       rule IdxRequired loc0
                 | None => ret loc0
                 end
               else ret loc0) ;;
      loc2 <- match rules validation with
              | Some rs => validateRules validation eventType hold
                             (arr_id rulesMessages) rs 0 loc1
              | None => ret loc1
              end ;;
      if promisified loc2 then
        (* [processBools] is chosen here, from the value [needUpdate] has now *)
        js <- gets (fun s => promises (runtime s)) ;;
        modify (with_runtime (put_promises
          (js ++ [{| job_items := results loc2; job_update := needUpdate loc2;
                     job_value := None |}]))) ;;;
        ret (Later (length js))
      else
        when (needUpdate loc2) (_updateMessages None skipSyncListeners) ;;;
        ret (Now (everyTruthy (bools (results loc2))))
  end.

Definition validate (eventType : option ValidationEventType) : M Outcome :=
  _validate eventType false.

(** *** Promise continuations *)

Definition all_done (rs : list ResultItem) : bool :=
  forallb (fun r => match r with Done _ => true | Waiting _ _ _ _ => false end) rs.

Definition put_job (j : nat) (job : Job) : M unit :=
  modify (with_runtime (fun r => put_promises (<[j := job]> (promises r)) r)).

(** Result [k] of promise [j] settles: [.catch(() => false).then(processPassed)]. *)
Definition settle (j k : nat) : M unit :=
  js <- gets (fun s => promises (runtime s)) ;;
  match js !! j with
  | Some job =>
      match job_items job !! k with
      | Some (Waiting rule index rulesMessages p) =>
          let passed := match p with Resolves b => b | Rejects => false end in
          r <- processPassed rule index rulesMessages passed ;;
          put_job j {| job_items := <[k := Done r.2]> (job_items job);
                       job_update := job_update job; job_value := job_value job |}
      | _ => ret tt
      end
  | None => ret tt
  end.

(** All results of promise [j] are there: [Promise.all(results).then(processBools)]. *)
Definition finish (j : nat) : M unit :=
  js <- gets (fun s => promises (runtime s)) ;;
  match js !! j with
  | Some job =>
      if all_done (job_items job) && bool_decide (job_value job = None) then
        when (job_update job) (_updateMessages None false) ;;;
        put_job j {| job_items := job_items job; job_update := job_update job;
                     job_value := Some (everyTruthy (bools (job_items job))) |}
      else ret tt
  | None => ret tt
  end.

(** ** Numbers *)

(** The number an integer is stored as: an integer of at most 53 bits is a
    number; a longer one is rounded to 53 significant bits, to the nearest
    number and, of two nearest, to the one whose last bit is [0] (IEEE 754
    round to nearest, ties to even).  So [2^53 + 1] is stored as [2^53] and
    [2^53 + 3] as [2^53 + 4]. *)
Definition to_number (z : Z) : Z :=
  let e := Z.log2 (Z.abs z) - 52 in
  if e <=? 0 then z else
  let q := Z.abs z / 2 ^ e in
  let r := Z.abs z mod 2 ^ e in
  let up := (2 ^ (e - 1) <? r) || ((r =? 2 ^ (e - 1)) && Z.odd q) in
  Z.sgn z * ((if up then q + 1 else q) * 2 ^ e).

(** The value [c++] leaves in [c]. *)
Definition number_incr (c : Z) : Z := to_number (c + 1).

(** A sum of counters can leave the integers: a sum beyond the largest
    number, [(2^53 - 1) * 2^971], is an infinity, and stays one. *)
Inductive JsNumber := Num (z : Z) | Infinity (negative : bool).

Definition max_number : Z := (2 ^ 53 - 1) * 2 ^ 971.

(** [a + b] *)
Definition number_add (a : JsNumber) (b : Z) : JsNumber :=
  match a with
  | Num x =>
      let z := to_number (x + b) in
      if Z.abs z <=? max_number then Num z else Infinity (z <? 0)
  | Infinity negative => Infinity negative
  end.

(** ** Field state machine: the public members *)

Definition set_value (v : JsValue) : M unit :=
  prevValue <- this_params _value ;;
  prevChanged <- this_params _changed ;;
  prevError <- this_params _error ;;
  prevWarning <- this_params _warning ;;
  prevMessages <- this_params _messages ;;
  assign_value v ;;;
  assign_changed (number_incr prevChanged) ;;;
  _validate (Some change) true ;;;
  _triggerListeners (param value) (PValue prevValue) ;;;
  _triggerListeners (param changed) (PNum prevChanged) ;;;
  _triggerListeners (param error_) (PBool prevError) ;;;
  _triggerListeners (param warning_) (PBool prevWarning) ;;;
  _triggerListeners (param messages) (PMessages prevMessages) ;;;
  _triggerListeners any PUndefined ;;;
  ret tt.

Definition touch_ (v : JsValue) : M unit :=
  prevValue <- this_params _value ;;
  prevTouched <- this_params _touched ;;
  prevChanged <- this_params _changed ;;
  prevError <- this_params _error ;;
  prevWarning <- this_params _warning ;;
  prevMessages <- this_params _messages ;;
  assign_value v ;;;
  assign_touched (number_incr prevTouched) ;;;
  assign_changed (number_incr prevChanged) ;;;
  _validate (Some touch) true ;;;
  _triggerListeners (param value) (PValue prevValue) ;;;
  _triggerListeners (param touched) (PNum prevTouched) ;;;
  _triggerListeners (param changed) (PNum prevChanged) ;;;
  _triggerListeners (param error_) (PBool prevError) ;;;
  _triggerListeners (param warning_) (PBool prevWarning) ;;;
  _triggerListeners (param messages) (PMessages prevMessages) ;;;
  _triggerListeners any PUndefined ;;;
  ret tt.

Definition set_touched (t : Z) : M unit :=
  prev <- this_params _touched ;;
  assign_touched t ;;;
  _triggerListeners (param touched) (PNum prev) ;;;
  ret tt.

Definition set_changed (c : Z) : M unit :=
  prev <- this_params _changed ;;
  assign_changed c ;;;
  _triggerListeners (param changed) (PNum prev) ;;;
  ret tt.

Definition set_errorOverride (errorOverride : option bool) : M unit :=
  cur <- this_sources _errorOverride ;;
  if decide (cur = errorOverride) then ret tt else
  assign_errorOverride errorOverride ;;;
  match errorOverride with
  | None => _updateMessages (Some onlyError) false
  | Some b =>
      prevError <- this_params _error ;;
      assign_error b ;;;
      _triggerListeners (param error_) (PBool prevError) ;;;
      ret tt
  end.

Definition set_warningOverride (warningOverride : option bool) : M unit :=
  cur <- this_sources _warningOverride ;;
  if decide (cur = warningOverride) then ret tt else
  assign_warningOverride warningOverride ;;;
  match warningOverride with
  | None => _updateMessages (Some onlyWarning) false
  | Some b =>
      prevWarning <- this_params _warning ;;
      assign_warning b ;;;
      _triggerListeners (param warning_) (PBool prevWarning) ;;;
      ret tt
  end.

Definition set_customMessages (ms : option (list FieldMessage)) : M unit :=
  assign_customMessages ms ;;;
  _updateMessages None false.

Definition clearValidated : M unit :=
  req <- this_sources _requiredMessage ;;
  rm <- this_sources _rulesMessages ;;
  if bool_decide (req = None) && bool_decide (rm = None) then ret tt else
  assign_requiredMessage None ;;;
  assign_rulesMessages None ;;;
  _updateMessages None false.

Definition clear : M unit :=
  assign_requiredMessage None ;;;
  assign_rulesMessages None ;;;
  assign_customMessages None ;;;
  assign_errorOverride None ;;;
  assign_warningOverride None ;;;
  _updateMessages None false.

Definition reset : M unit :=
  prevValue <- this_params _value ;;
  prevTouched <- this_params _touched ;;
  prevChanged <- this_params _changed ;;
  d <- this_settings defaultValue ;;
  assign_value d ;;;
  assign_touched 0 ;;;
  assign_changed 0 ;;;
  clear ;;;
  _triggerListeners (param value) (PValue prevValue) ;;;
  _triggerListeners (param touched) (PNum prevTouched) ;;;
  _triggerListeners (param changed) (PNum prevChanged) ;;;
  ret tt.

(** [validation.required === r] *)
Definition strict_equal_required (a : option FieldRequired) (r : FieldRequired) : bool :=
  match a, r with
  | Some (ReqBool x), ReqBool y => bool_decide (x = y)
  | Some (ReqString x), ReqString y => bool_decide (x = y)
  | Some (ReqRule x _), ReqRule y _ => bool_decide (x = y)
  | _, _ => false
  end.

Definition empty_validation : FieldValidation :=
  {| fv_validateOn := None; fv_requiredValidate := None; fv_requiredMessage := None;
     rules := None; required := None |}.

Definition put_required (r : option FieldRequired) (v : FieldValidation) : FieldValidation :=
  {| fv_validateOn := fv_validateOn v; fv_requiredValidate := fv_requiredValidate v;
     fv_requiredMessage := fv_requiredMessage v; rules := rules v; required := r |}.

Definition get_required : M FieldRequired :=
  v <- this_settings _validation ;;
  ret (default (ReqBool false) (validation ← v; required validation)).

Definition set_required (r : FieldRequired) : M unit :=
  v <- this_settings _validation ;;
  if match r, v with ReqBool false, None => true | _, _ => false end then ret tt else
  let validation := default empty_validation v in
  assign_validation (Some validation) ;;;
  if strict_equal_required (required validation) r then ret tt else
  assign_validation (Some (put_required (Some r) validation)) ;;;
  req <- this_sources _requiredMessage ;;
  if req is Some _ then
    assign_requiredMessage None ;;;
    _updateMessages None false
  else ret tt.

(** [_cloneValidation]: a new configuration object, a new array of new rule
    objects; [required] is carried over as it is.  (Which of these objects
    are shared with the caller is the subject of [Module Aliasing].) *)
Definition _cloneValidation (v : option FieldValidation) : option FieldValidation :=
  match v with
  | None => None
  | Some validation =>
      Some {| fv_validateOn := fv_validateOn validation;
              fv_requiredValidate := fv_requiredValidate validation;
              fv_requiredMessage := fv_requiredMessage validation;
              rules := map (fun rule =>
                              {| rule_message := rule_message rule;
                                 rule_type := rule_type rule;
                                 rule_validate := rule_validate rule;
                                 typeIfPassed := typeIfPassed rule;
                                 validateOn := validateOn rule |}) <$> rules validation;
              required := required validation |}
  end.

Definition get_validation : M (option FieldValidation) :=
  v <- this_settings _validation ;;
  ret (_cloneValidation v).

Definition set_validation (v : option FieldValidation) : M unit :=
  assign_validation (_cloneValidation v) ;;;
  clearValidated.

(** [new FieldCtrl(field, parent, defaultValue)]; the key [field] is read by
    nothing in the class and is left out. *)
Definition new_FieldCtrl (parent : option EntityCtrl) (defaultValue : JsValue) : FieldCtrl :=
  {| settings := {| parent := parent; defaultValue := defaultValue;
                    holdValidation := HoldBool false; holdListeners := HoldBool false;
                    _validation := None |};
     params := {| _value := defaultValue; _touched := 0; _changed := 0;
                  _error := false; _warning := false; _messages := None |};
     sources := {| _requiredMessage := None; _rulesMessages := None;
                   _customMessages := None; _errorOverride := None;
                   _warningOverride := None |};
     _listeners := fun _ => NoListeners;
     runtime := {| notifications := []; next_array := 0%nat; promises := [] |} |}.

(** ** Runs of a controller *)

(** What can happen to a controller: a call of a public member, an
    assignment to a public property of the field or of its parent, or a
    promise continuation. *)
Inductive Op :=
| SetValue (v : JsValue)
| Touch (v : JsValue)
| SetTouched (t : Z)
| SetChanged (c : Z)
| SetErrorOverride (o : option bool)
| SetWarningOverride (o : option bool)
| SetCustomMessages (ms : option (list FieldMessage))
| ClearValidated
| Clear
| Reset
| SetRequired (r : FieldRequired)
| SetValidation (v : option FieldValidation)
| Validate (eventType : option ValidationEventType)
| AddListener (p : FieldListenerParam) (l : nat)
| RemoveListener (p : FieldListenerParam) (l : nat)
| SetDefaultValue (v : JsValue)
| SetHoldValidation (h : Hold ValidationEventType)
| SetHoldListeners (h : Hold FieldParam)
| SetParentOptions (o : option ValidationOptions)
| Settle (j k : nat)
| Finish (j : nat).

Definition run (op : Op) : M unit :=
  match op with
  | SetValue v => set_value v
  | Touch v => touch_ v
  | SetTouched t => set_touched t
  | SetChanged c => set_changed c
  | SetErrorOverride o => set_errorOverride o
  | SetWarningOverride o => set_warningOverride o
  | SetCustomMessages ms => set_customMessages ms
  | ClearValidated => clearValidated
  | Clear => clear
  | Reset => reset
  | SetRequired r => set_required r
  | SetValidation v => set_validation v
  | Validate e => validate e ;;; ret tt
  | AddListener p l => addListener p l
  | RemoveListener p l => removeListener p l ;;; ret tt
  | SetDefaultValue v => modify (with_settings (put_defaultValue v))
  | SetHoldValidation h => modify (with_settings (put_holdValidation h))
  | SetHoldListeners h => modify (with_settings (put_holdListeners h))
  | SetParentOptions o =>
      modify (with_settings (fun x =>
        put_parent (match parent x with
                    | Some _ => Some {| validationOptions := o |}
                    | None => None
                    end) x))
  | Settle j k => settle j k
  | Finish j => finish j
  end.

Definition state_after {A} (c : Completion A) : FieldCtrl :=
  match c with Normal _ s => s | Thrown s => s end.

Fixpoint run_all (ops : list Op) (s : FieldCtrl) : FieldCtrl :=
  match ops with
  | [] => s
  | op :: ops' => run_all ops' (state_after (run op s))
  end.

Inductive reachable : FieldCtrl -> Prop :=
| reachable_new p d : reachable (new_FieldCtrl p d)
| reachable_run s op : reachable s -> reachable (state_after (run op s)).

(** ** The message sources and what they compose to *)

Definition rules_items (s : FieldCtrl) : list (option FieldMessage) :=
  match _rulesMessages (sources s) with Some a => arr_items a | None => [] end.

(** The required message if there is one, the rule messages in index order
    without the holes, the custom messages in their order. *)
Definition composed (s : FieldCtrl) : list FieldMessage :=
  option_list (_requiredMessage (sources s)) ++
  omap id (rules_items s) ++
  default [] (_customMessages (sources s)).

Definition messages_list (s : FieldCtrl) : list FieldMessage :=
  match _messages (params s) with Some a => arr_items a | None => [] end.

Definition has_type (t : FieldMessageType) (l : list FieldMessage) : bool :=
  existsb (fun m => bool_decide (type m = Some t)) l.

(** * Vocabulary of the properties *)

(** ** Normal forms of the states an operation can produce *)

Definition log_more (new : list Notification) (s : FieldCtrl) : FieldCtrl :=
  with_runtime (fun r => put_notifications (notifications r ++ new) r) s.

Definition with_flags (e w : bool) (m : option (JsArray FieldMessage))
    (s : FieldCtrl) : FieldCtrl :=
  with_params (fun p => put_error e (put_warning w (put_messages m p))) s.

Definition with_validated (rq : option FieldMessage)
    (rm : option (JsArray (option FieldMessage))) (s : FieldCtrl) : FieldCtrl :=
  with_sources (fun x => put_requiredMessage rq (put_rulesMessages rm x)) s.

Definition with_next_array (n : nat) (s : FieldCtrl) : FieldCtrl :=
  with_runtime (put_next_array n) s.

(** ** Statements about methods *)

(** [returns m s Q]: run from [s], the method [m] returns normally, with a
    result and in a state that satisfy [Q]. *)
Definition returns {A} (m : M A) (s : FieldCtrl) (Q : A -> FieldCtrl -> Prop) : Prop :=
  match m s with
  | Normal a s' => Q a s'
  | Thrown _ => False
  end.

(** ** Message composer *)

(** [l] pushed to [_messages]: a new array is made for the first message. *)
Definition pushed (ms : option (JsArray FieldMessage)) (n : nat)
    (l : list FieldMessage) : option (JsArray FieldMessage) * nat :=
  match l, ms with
  | [], _ => (ms, n)
  | _, Some a => (Some (Build_JsArray (arr_id a) (arr_items a ++ l)), n)
  | _, None => (Some (Build_JsArray n l), S n)
  end.

(** The state after [processInternalMessage] has run on each message of [l]. *)
Definition absorbed (only : option Only) (eo wo : option bool)
    (l : list FieldMessage) (s : FieldCtrl) : FieldCtrl :=
  let p := if only is None
           then pushed (_messages (params s)) (next_array (runtime s)) l
           else (_messages (params s), next_array (runtime s)) in
  with_next_array p.2
    (with_flags
       (if only_not onlyWarning only
        then default (_error (params s) || has_type error l) eo
        else _error (params s))
       (if only_not onlyError only
        then default (_warning (params s) || has_type warning l) wo
        else _warning (params s))
       p.1 s).

(** The flags that [only] lets the composer write hold their override. *)
Definition pinned (only : option Only) (eo wo : option bool) (s : FieldCtrl) : Prop :=
  (only <> Some onlyWarning -> forall b, eo = Some b -> _error (params s) = b) /\
  (only <> Some onlyError -> forall b, wo = Some b -> _warning (params s) = b).

(** The state [_updateMessages] computes, before it notifies anybody. *)
Definition recomputed (only : option Only) (s : FieldCtrl) : FieldCtrl :=
  let eo := _errorOverride (sources s) in
  let wo := _warningOverride (sources s) in
  absorbed only eo wo (composed s)
    (with_flags
       (if only_not onlyWarning only then default false eo else _error (params s))
       (if only_not onlyError only then default false wo else _warning (params s))
       (if not_only only then None else _messages (params s))
       s).

Definition composer_params : list FieldListenerParam :=
  [param error_; param warning_; param messages; any].

(** ** Validation engine *)

(** The rules array [arr] that a run of [_validate] has captured is still
    the one of the field. *)
Definition attached (arr : nat) (s : FieldCtrl) : Prop :=
  arr_id <$> _rulesMessages (sources s) = Some arr.

(** The message slot of a rule. *)
Definition slot_of (index : RuleIndex) (s : FieldCtrl) : option FieldMessage :=
  match index with
  | IdxRequired => _requiredMessage (sources s)
  | IdxRule i => array_get (rules_items s) i
  end.

(** The message a check leaves in its slot: [{ message, type }] with the
    type for the outcome, or nothing when there is no type for it. *)
Definition slot_message (rule : FieldValidationRule) (passed : bool) : option FieldMessage :=
  match (if passed then typeIfPassed rule else Some (default error (rule_type rule))) with
  | Some t => Some {| message := rule_message rule; type := Some t |}
  | None => None
  end.

(** The trigger event [validateRule] resolves for a rule: the rule's own,
    else the one of the configuration, else the one of the parent entity's
    options, else ['demand']. *)
Definition resolved_validateOn (validation : FieldValidation)
    (rule : FieldValidationRule) (s : FieldCtrl) : ValidationEventType :=
  default
    (default default_validateOn
       (o ← (e ← parent (settings s); validationOptions e); opt_validateOn o))
    (validateOn rule ∪ fv_validateOn validation).

(** What the [try] block of [validateRule] leaves in [passedMaybePromise]. *)
Definition check_result (rule : FieldValidationRule) (fc : FieldView) : Passed :=
  match rule_validate rule with
  | Some f =>
      match f fc with
      | Returns b => PassedBool b
      | Throws => PassedBool false
      | ReturnsPromise p => PassedPromise p
      end
  | None => PassedBool false
  end.

(** The boolean a result stands for once its promise has settled. *)
Definition settled (p : Settlement) : bool :=
  match p with Resolves b => b | Rejects => false end.
Definition eventual (r : ResultItem) : bool :=
  match r with Done b => b | Waiting _ _ _ p => settled p end.
Definition passes (rule : FieldValidationRule) (fc : FieldView) : bool :=
  match check_result rule fc with
  | PassedBool b => b
  | PassedPromise p => settled p
  end.

(** How one or several calls of [validateRule] relate the state and the
    local variables before and after; [exec] lists the outcomes of the
    checks they have run. *)
Definition rule_step (arr : nat) (loc : Locals) (s : FieldCtrl)
    (loc' : Locals) (s' : FieldCtrl) (exec : list bool) : Prop :=
  (exists rq rm, s' = with_validated rq rm s) /\
  (attached arr s -> attached arr s') /\
  (needUpdate loc' = false -> needUpdate loc = false /\ s' = s) /\
  map eventual (results loc') = map eventual (results loc) ++ exec /\
  (promisified loc' = false ->
   promisified loc = false /\
   (all_done (results loc) = true -> all_done (results loc') = true)).

(** The outcomes of the checks of [rs] that a run of [_validate] executes. *)
Definition executed (validation : FieldValidation)
    (eventType : option ValidationEventType) (hold : Hold ValidationEventType)
    (s : FieldCtrl) (rs : list FieldValidationRule) : list bool :=
  map (fun rule => passes rule (view s))
    (filter (fun rule =>
       shouldValidate eventType hold (resolved_validateOn validation rule s) = true) rs).

(** [holdForSure] *)
Definition held (eventType : option ValidationEventType) (s : FieldCtrl) : bool :=
  match holdValidation (settings s) with
  | HoldBool b => b
  | HoldList l => match eventType with Some e => includes e l | None => false end
  end.

(** The rule [requiredRule] builds in state [s]. *)
Definition required_rule (validation : FieldValidation) (r : FieldRequired)
    (s : FieldCtrl) : FieldValidationRule :=
  let options := e ← parent (settings s); validationOptions e in
  match r with
  | ReqRule _ rule => rule
  | _ =>
      {| rule_message :=
           Some (match r with
                 | ReqString m => m
                 | _ => match options ≫= opt_requiredMessage with
                        | Some m => if decide (m = "") then default_requiredMessage else m
                        | None => default_requiredMessage
                        end
                 end);
         rule_type := Some error;
         rule_validate :=
           Some (default (default default_requiredValidate
                            (options ≫= opt_requiredValidate))
                         (fv_requiredValidate validation));
         typeIfPassed := None;
         validateOn := None |}
  end.

(** The outcomes of all the checks a call [_validate(eventType)] executes
    in state [s], in the order of the [results] array. *)
Definition outcomes (validation : FieldValidation)
    (eventType : option ValidationEventType) (s : FieldCtrl) : list bool :=
  let hold := holdValidation (settings s) in
  (if required_truthy (required validation) then
     match required validation with
     | Some r =>
         let rule := required_rule validation r s in
         if shouldValidate eventType hold (resolved_validateOn validation rule s)
         then [passes rule (view s)] else []
     | None => []
     end
   else []) ++
  executed validation eventType hold s (default [] (rules validation)).

Definition loc0 : Locals :=
  {| promisified := false; needUpdate := false; results := [] |}.

Definition job_of (loc : Locals) : Job :=
  {| job_items := results loc; job_update := needUpdate loc; job_value := None |}.

Definition add_job (job : Job) (s : FieldCtrl) : FieldCtrl :=
  with_runtime (fun r => put_promises (promises r ++ [job]) r) s.

(** ** Promises along a run *)

(** How the promises of a field evolve: none is dropped, the outcomes its
    results stand for stay, a result that is there stays, and a promise
    that resolves resolves to the conjunction of these outcomes. *)
Definition track (js js' : list Job) : Prop :=
  forall j job, js !! j = Some job ->
    exists job', js' !! j = Some job' /\
      map eventual (job_items job') = map eventual (job_items job) /\
      (forall i b, job_items job !! i = Some (Done b) ->
                   job_items job' !! i = Some (Done b)) /\
      (job_value job' = job_value job \/
       (job_value job = None /\
        job_value job' = Some (everyTruthy (map eventual (job_items job))))).

(** ** Invariants *)

(** The flags follow their override, or else the kinds of the messages. *)
Definition flags_ok (s : FieldCtrl) : Prop :=
  _error (params s) =
    default (has_type error (messages_list s)) (_errorOverride (sources s)) /\
  _warning (params s) =
    default (has_type warning (messages_list s)) (_warningOverride (sources s)).

(** [messages] is what the three sources compose to, and [null] when that
    is nothing. *)
Definition messages_ok (s : FieldCtrl) : Prop :=
  messages_list s = composed s /\
  (composed s = [] -> _messages (params s) = None).

Definition composer_ok (s : FieldCtrl) : Prop := messages_ok s /\ flags_ok s.

(** A flag with an override holds the override. *)
Definition overrides_ok (s : FieldCtrl) : Prop :=
  (forall b, _errorOverride (sources s) = Some b -> _error (params s) = b) /\
  (forall b, _warningOverride (sources s) = Some b -> _warning (params s) = b).

(** No call of [_validate] has met an asynchronous check so far. *)
Definition never_async (s : FieldCtrl) : Prop := promises (runtime s) = [].

(** What validation, message composition and listener dispatch leave alone. *)
Definition quiet (s s' : FieldCtrl) : Prop :=
  settings s' = settings s /\
  _listeners s' = _listeners s /\
  _value (params s') = _value (params s) /\
  _touched (params s') = _touched (params s) /\
  _changed (params s') = _changed (params s) /\
  _customMessages (sources s') = _customMessages (sources s) /\
  _errorOverride (sources s') = _errorOverride (sources s) /\
  _warningOverride (sources s') = _warningOverride (sources s).

(** A step keeps the invariants. *)
Definition effect (s s' : FieldCtrl) : Prop :=
  (overrides_ok s -> overrides_ok s') /\
  (never_async s' -> never_async s /\ (composer_ok s -> composer_ok s')) /\
  track (promises (runtime s)) (promises (runtime s')).

(** What [settle] runs for a waiting result: the continuation of
    [.catch(() => false).then(processPassed)]. *)
Definition settle_continuation (j k : nat) (job : Job) (rule : FieldValidationRule)
    (index : RuleIndex) (arr : nat) (passed : bool) : M unit :=
  r <- processPassed rule index arr passed ;;
  put_job j {| job_items := <[k := Done r.2]> (job_items job);
               job_update := job_update job; job_value := job_value job |}.

(** ** Value and counters *)

Definition counters_of (s : FieldCtrl) : JsValue * Z * Z :=
  (_value (params s), _touched (params s), _changed (params s)).

(** The value and the counters after an operation. *)
Definition expected_counters (op : Op) (s : FieldCtrl) : JsValue * Z * Z :=
  match op with
  | SetValue v => (v, _touched (params s), number_incr (_changed (params s)))
  | Touch v => (v, number_incr (_touched (params s)), number_incr (_changed (params s)))
  | SetTouched t => (_value (params s), t, _changed (params s))
  | SetChanged c => (_value (params s), _touched (params s), c)
  | Reset => (defaultValue (settings s), 0, 0)
  | _ => counters_of s
  end.

(** ** Scenarios *)

(** Rules whose check returns [false], or a promise. *)
Definition failing_rule (text : string) : FieldValidationRule :=
  {| rule_message := Some text; rule_type := None;
     rule_validate := Some (fun _ => Returns false);
     typeIfPassed := None; validateOn := None |}.

Definition async_rule (text : string) (p : Settlement) : FieldValidationRule :=
  {| rule_message := Some text; rule_type := None;
     rule_validate := Some (fun _ => ReturnsPromise p);
     typeIfPassed := None; validateOn := None |}.

(** The configuration [{ rules: rs }]. *)
Definition with_rules (rs : list FieldValidationRule) : FieldValidation :=
  {| fv_validateOn := None; fv_requiredValidate := None; fv_requiredMessage := None;
     rules := Some rs; required := None |}.

(** [validate()] on a field with a failing synchronous rule and a rule whose
    promise is still pending. *)
Definition pending_validation : FieldCtrl :=
  run_all [SetValidation (Some (with_rules [failing_rule "S";
                                            async_rule "A" (Resolves true)]));
           Validate None]
    (new_FieldCtrl None VUndefined).

(** ... and then [errorOverride = true; errorOverride = null]. *)
Definition pending_validation_rederived : FieldCtrl :=
  run_all [SetErrorOverride (Some true); SetErrorOverride None] pending_validation.

(** A required field holding [0], validated, with the error overridden. *)
Definition overridden_required : FieldCtrl :=
  run_all [SetRequired (ReqBool true); Validate None; SetErrorOverride (Some false)]
    (new_FieldCtrl None (VNum 0)).

(** A rule of type ['warning'] whose check throws. *)
Definition throwing_rule : FieldValidationRule :=
  {| rule_message := Some "T"; rule_type := Some warning;
     rule_validate := Some (fun _ => Throws);
     typeIfPassed := None; validateOn := None |}.

(** A field whose only rule has a check that throws. *)
Definition throwing_field : FieldCtrl :=
  run_all [SetValidation (Some (with_rules [throwing_rule]))]
    (new_FieldCtrl None VUndefined).

(** A field whose only rule is asynchronous and fails; [validate()], then
    the promise of the check settles, then the promise of [validate]. *)
Definition async_failure : FieldCtrl :=
  run_all [SetValidation (Some (with_rules [async_rule "A" (Resolves false)]));
           Validate None; Settle 0 0; Finish 0]
    (new_FieldCtrl None VUndefined).

(** A field with a failing synchronous rule and a rule whose check
    returns a promise that is rejected. *)
Definition rejecting_rule : FieldValidationRule := async_rule "R" Rejects.

Definition rejecting_field : FieldCtrl :=
  run_all [SetValidation (Some (with_rules [failing_rule "S"; rejecting_rule]))]
    (new_FieldCtrl None VUndefined).

(** A field whose [changed] has been assigned [2^53], the first number
    that [++] leaves as it is. *)
Definition at_the_limit : FieldCtrl :=
  run_all [SetChanged (2 ^ 53)] (new_FieldCtrl None VUndefined).

(** The operations that recompute the messages from the sources whatever
    the state: [customMessages = ms], [clear()], [reset()]. *)
Definition recomputes (op : Op) : bool :=
  match op with
  | SetCustomMessages _ | Clear | Reset => true
  | _ => false
  end.

(** The direct assignments [touched = t] and [changed = c]. *)
Definition counter_setter (op : Op) : bool :=
  match op with
  | SetTouched _ | SetChanged _ => true
  | _ => false
  end.

(** The three message sources. *)
Definition message_sources (s : FieldCtrl) :=
  (_requiredMessage (sources s), _rulesMessages (sources s),
   _customMessages (sources s)).

(** From [s] to [s'] listeners were called for parameter [p] only. *)
Definition only_notifies (p : FieldParam) (s s' : FieldCtrl) : Prop :=
  exists new, notifications (runtime s') = notifications (runtime s) ++ new /\
              Forall (fun n => n_param n = param p) new.

(** The trigger of a rule as the claim resolves it: the rule's own
    [validateOn], else the one of the configuration, else ['demand']. *)
Definition claimed_validateOn (validation : FieldValidation)
    (rule : FieldValidationRule) : ValidationEventType :=
  match validateOn rule with
  | Some e => e
  | None => match fv_validateOn validation with
            | Some e => e
            | None => demand
            end
  end.

(** A field of an entity whose options make ['change'] the trigger, with one
    rule that has no trigger of its own. *)
Definition child_field : FieldCtrl :=
  run_all [SetValidation (Some (with_rules [failing_rule "E"]))]
    (new_FieldCtrl
       (Some {| validationOptions :=
                  Some {| opt_validateOn := Some change;
                          opt_requiredValidate := None;
                          opt_requiredMessage := None |} |})
       VUndefined).

(** A field with the same rule and [holdValidation = true]. *)
Definition held_field : FieldCtrl :=
  run_all [SetValidation (Some (with_rules [failing_rule "E"]));
           SetHoldValidation (HoldBool true)]
    (new_FieldCtrl None VUndefined).


(** The message of a failed check: [{ message, type: type || 'error' }]. *)
Definition failure_message (rule : FieldValidationRule) : FieldMessage :=
  {| message := rule_message rule; type := Some (default error (rule_type rule)) |}.



(** * Object identity: who shares what with the field's configuration *)

(** The configuration, its [rules] array and the rule objects are
    JavaScript objects.  [Module Aliasing] keeps them in a store, to see
    which objects [_cloneValidation] copies and which it shares; the
    configuration [_validate] reads is what the store holds at the time of
    the call ([read_validation]). *)
Module Aliasing.

Inductive HRequired :=
| HBool (b : bool)
| HString (s : string)
| HRule (l : nat).

Record HValidation := {
  h_validateOn : option ValidationEventType;
  h_requiredValidate : option FieldValidate;
  h_requiredMessage : option string;
  h_rules : option nat;
  h_required : option HRequired;
}.

Inductive Obj :=
| ObjRule (r : FieldValidationRule)
| ObjArray (items : list nat)
| ObjConfig (c : HValidation).

Record Store := { objs : gmap nat Obj; next : nat }.

(** A new object. *)
Definition alloc (o : Obj) (h : Store) : nat * Store :=
  (next h, {| objs := <[next h := o]> (objs h); next := S (next h) |}).

(** An assignment to a property of the object at [l], or a [push]. *)
Definition write (l : nat) (o : Obj) (h : Store) : Store :=
  {| objs := <[l := o]> (objs h); next := next h |}.

Definition put_rules (a : option nat) (c : HValidation) : HValidation :=
  {| h_validateOn := h_validateOn c; h_requiredValidate := h_requiredValidate c;
     h_requiredMessage := h_requiredMessage c; h_rules := a;
     h_required := h_required c |}.

(** [for (const rule of rules) copyRules.push({ ...rule })] *)
Fixpoint copy_rules (copyRules : nat) (items : list nat) (h : Store) : Store :=
  match items with
  | [] => h
  | rule :: items' =>
      match objs h !! rule with
      | Some o =>
          let (l, h1) := alloc o h in
          let h2 := match objs h1 !! copyRules with
                    | Some (ObjArray copied) => write copyRules (ObjArray (copied ++ [l])) h1
                    | _ => h1
                    end in
          copy_rules copyRules items' h2
      | None => copy_rules copyRules items' h
      end
  end.

Definition _cloneValidation (validation : option nat) (h : Store) : option nat * Store :=
  match validation with
  | None => (None, h)
  | Some v =>
      match objs h !! v with
      | Some (ObjConfig c) =>
          let (copy, h1) := alloc (ObjConfig c) h in
          match h_rules c with
          | Some rules =>
              match objs h1 !! rules with
              | Some (ObjArray items) =>
                  let (copyRules, h2) := alloc (ObjArray []) h1 in
                  let h3 := copy_rules copyRules items h2 in
                  (Some copy, write copy (ObjConfig (put_rules (Some copyRules) c)) h3)
              | _ => (Some copy, h1)
              end
          | None => (Some copy, h1)
          end
      | _ => (Some v, h)
      end
  end.

(** [get validation()] of a field whose [_validation] is the object [v]. *)
Definition get_validation (v : option nat) (h : Store) : option nat * Store :=
  _cloneValidation v h.

(** The configuration a call of [_validate] reads through [v]. *)
Definition read_rule (h : Store) (l : nat) : option FieldValidationRule :=
  match objs h !! l with
  | Some (ObjRule r) => Some r
  | _ => None
  end.

Definition read_rules (h : Store) (a : nat) : option (list FieldValidationRule) :=
  match objs h !! a with
  | Some (ObjArray items) => mapM (read_rule h) items
  | _ => None
  end.

Definition read_required (h : Store) (r : HRequired) : option FieldRequired :=
  match r with
  | HBool b => Some (ReqBool b)
  | HString s => Some (ReqString s)
  | HRule l => ReqRule l <$> read_rule h l
  end.

Definition read_validation (h : Store) (v : nat) : option FieldValidation :=
  match objs h !! v with
  | Some (ObjConfig c) =>
      rs ← match h_rules c with
           | Some a => Some <$> read_rules h a
           | None => Some None
           end;
      rq ← match h_required c with
           | Some r => Some <$> read_required h r
           | None => Some None
           end;
      Some {| fv_validateOn := h_validateOn c;
              fv_requiredValidate := h_requiredValidate c;
              fv_requiredMessage := h_requiredMessage c;
              rules := rs; required := rq |}
  | _ => None
  end.

(** The field [s] with the configuration the store holds at [v]. *)
Definition field_with (h : Store) (v : nat) (s : FieldCtrl) : FieldCtrl :=
  with_settings (put_validation (read_validation h v)) s.

(** *** A configuration whose [required] is a rule object *)

Definition required_object : FieldValidationRule :=
  {| rule_message := Some "m"; rule_type := None;
     rule_validate := Some (fun _ => Returns false);
     typeIfPassed := None; validateOn := None |}.

(** Object 0 is the rule, object 1 the field's configuration
    [{ required: <object 0> }]. *)
Definition store0 : Store :=
  {| objs := {[ 0%nat := ObjRule required_object;
                1%nat := ObjConfig {| h_validateOn := None; h_requiredValidate := None;
                                      h_requiredMessage := None; h_rules := None;
                                      h_required := Some (HRule 0) |} ]};
     next := 2 |}.

(** [const v = fc.validation] *)
Definition returned : option nat * Store := get_validation (Some 1%nat) store0.

(** [v.required.message = 'x'] *)
Definition store_mutated : Store :=
  match returned.1 with
  | Some v =>
      match objs returned.2 !! v with
      | Some (ObjConfig c) =>
          match h_required c with
          | Some (HRule l) =>
              write l (ObjRule {| rule_message := Some "x"; rule_type := None;
                                  rule_validate := rule_validate required_object;
                                  typeIfPassed := None; validateOn := None |})
                returned.2
          | _ => returned.2
          end
      | _ => returned.2
      end
  | None => returned.2
  end.

Definition required_message_after_validate (h : Store) : option FieldMessage :=
  _requiredMessage
    (sources (state_after
                (validate None (field_with h 1 (new_FieldCtrl None VUndefined))))).

(** Every object of the store was allocated by it. *)
Definition bounded (h : Store) : Prop :=
  forall l, is_Some (objs h !! l) -> (l < next h)%nat.

End Aliasing.

(** * Vocabulary of the further properties *)

(** ** Listener registration and dispatch *)

(** The listeners of a slot, in the order [_triggerListeners] calls them. *)
Definition registered (ls : ParamListeners) : list nat :=
  match ls with
  | NoListeners => []
  | OneListener l => [l]
  | SetOfListeners ls => ls
  end.

(** [holdParamListeners] for parameter [p]. *)
Definition listeners_held (p : FieldListenerParam) (s : FieldCtrl) : bool :=
  match holdListeners (settings s) with
  | HoldBool b => b
  | HoldList l => match p with param q => includes q l | any => false end
  end.

(** [!Object.is(this[`_${param}`], prev)]; for ['any'] nothing is compared. *)
Definition param_changed (p : FieldListenerParam) (prev : ParamValue)
    (s : FieldCtrl) : bool :=
  match p with
  | param q => negb (Object_is (current q s) prev)
  | any => true
  end.

(** The calls [_triggerListeners(p, prev)] makes in state [s]. *)
Definition dispatch (p : FieldListenerParam) (prev : ParamValue)
    (s : FieldCtrl) : list Notification :=
  if param_changed p prev s && negb (listeners_held p s)
  then map (fun l => Build_Notification l p prev) (registered (_listeners s p))
  else [].

(** The calls of the last part of [_updateMessages], made in the state [s]
    it has computed; [e], [w] and [m] are the previous flags and messages. *)
Definition composer_calls (skipListeners : bool) (e w : bool)
    (m : option (JsArray FieldMessage)) (s : FieldCtrl) : list Notification :=
  if skipListeners then [] else
  dispatch (param error_) (PBool e) s ++
  dispatch (param warning_) (PBool w) s ++
  dispatch (param messages) (PMessages m) s ++
  (if param_changed (param error_) (PBool e) s ||
      param_changed (param warning_) (PBool w) s ||
      param_changed (param messages) (PMessages m) s
   then dispatch any PUndefined s else []).

(** Registration and holds are the same in [s] and [s']. *)
Definition same_wiring (s s' : FieldCtrl) : Prop :=
  _listeners s' = _listeners s /\
  holdListeners (settings s') = holdListeners (settings s).

(** A call that the wiring of [s] allows: the listener is registered for
    the parameter, and the parameter is not held. *)
Definition allowed_call (s : FieldCtrl) (n : Notification) : Prop :=
  n_listener n ∈ registered (_listeners s (n_param n)) /\
  listeners_held (n_param n) s = false.

(** From [s] to [s'] the wiring stays and only allowed calls are made. *)
Definition calls (s s' : FieldCtrl) : Prop :=
  same_wiring s s' /\
  exists new, notifications (runtime s') = notifications (runtime s) ++ new /\
              Forall (allowed_call s) new.

(** The operations that change registration or the hold of listeners. *)
Definition wiring_op (op : Op) : bool :=
  match op with
  | AddListener _ _ | RemoveListener _ _ | SetHoldListeners _ => true
  | _ => false
  end.

(** No listener is registered twice for a parameter. *)
Definition listeners_ok (s : FieldCtrl) : Prop :=
  forall p, NoDup (registered (_listeners s p)).

(** ** Message slots after validation *)

(** The slot of a check after a call [validate(eventType)] made in state
    [s]: the message for the outcome if the call runs the check and the
    check completes synchronously, else [old], what the slot held. *)
Definition slot_after (validation : FieldValidation)
    (eventType : option ValidationEventType) (s : FieldCtrl)
    (rule : FieldValidationRule) (old : option FieldMessage) : option FieldMessage :=
  if shouldValidate eventType (holdValidation (settings s))
       (resolved_validateOn validation rule s)
  then match check_result rule (view s) with
       | PassedBool b => slot_message rule b
       | PassedPromise _ => old
       end
  else old.

(** The required slot after [validate(eventType)]. *)
Definition required_slot_after (validation : FieldValidation)
    (eventType : option ValidationEventType) (s : FieldCtrl) : option FieldMessage :=
  match required validation with
  | Some r =>
      if required_truthy (Some r)
      then slot_after validation eventType s (required_rule validation r s)
             (_requiredMessage (sources s))
      else _requiredMessage (sources s)
  | None => _requiredMessage (sources s)
  end.

(** The slot of rule [i] after [validate(eventType)]. *)
Definition rule_slot_after (validation : FieldValidation)
    (eventType : option ValidationEventType) (s : FieldCtrl) (i : nat)
    : option FieldMessage :=
  match default [] (rules validation) !! i with
  | Some rule => slot_after validation eventType s rule (array_get (rules_items s) i)
  | None => array_get (rules_items s) i
  end.

(** The call [validate(eventType)] runs the check of [rule], and the check
    returns a promise. *)
Definition returns_promise (validation : FieldValidation)
    (eventType : option ValidationEventType) (s : FieldCtrl)
    (rule : FieldValidationRule) : bool :=
  shouldValidate eventType (holdValidation (settings s))
    (resolved_validateOn validation rule s) &&
  match check_result rule (view s) with
  | PassedPromise _ => true
  | PassedBool _ => false
  end.

(** One of the checks the call [validate(eventType)] runs returns a
    promise. *)
Definition asynchronous (validation : FieldValidation)
    (eventType : option ValidationEventType) (s : FieldCtrl) : bool :=
  match required validation with
  | Some r => required_truthy (Some r) &&
              returns_promise validation eventType s (required_rule validation r s)
  | None => false
  end ||
  existsb (returns_promise validation eventType s) (default [] (rules validation)).

(** The values the default required check rejects. *)
Definition empty_values : list JsValue := [VUndefined; VNull; VStr ""; VNum 0].

(** ** The promise [validate] returns *)

(** The continuations of promise [j] with [n] results, in the order they
    run once every check has settled: the continuation of each result,
    then [processBools]. *)
Definition resolution (j n : nat) : list Op :=
  map (Settle j) (seq 0 n) ++ [Finish j].

(** The value promise [j] has resolved to, if it has. *)
Definition resolved_to (j : nat) (s : FieldCtrl) : option bool :=
  promises (runtime s) !! j ≫= job_value.

(** * The entity controller ([EntityCtrl.ts]) *)

(** An entity is a [Map] from field keys to field controllers, with the
    validation options its fields read.  The map is modelled as the list of
    its entries in insertion order; a field controller is an object the map
    refers to, so a call of one of its methods updates the entry in place.
    Field keys are property names (strings).  The key a controller was
    created with ([fc.field]) is the key of its entry: [createField] is the
    only writer of the map. *)

Module Entity.

(** The [validate] of a field, where the entity's own is in scope. *)
Local Abbreviation validate_field := validate (only parsing).

(** ** JavaScript [Map] *)

Section JsMap.
Context {K V : Type} `{EqDecision K}.

(** [m.get(k)] *)
Fixpoint map_get (k : K) (m : list (K * V)) : option V :=
  match m with
  | [] => None
  | (k', v) :: m' => if decide (k' = k) then Some v else map_get k m'
  end.

(** [m.set(k, v)]: an existing key keeps its place. *)
Fixpoint map_set (k : K) (v : V) (m : list (K * V)) : list (K * V) :=
  match m with
  | [] => [(k, v)]
  | (k', v') :: m' =>
      if decide (k' = k) then (k, v) :: m' else (k', v') :: map_set k v m'
  end.

(** [m.has(k)] *)
Definition map_has (k : K) (m : list (K * V)) : bool :=
  bool_decide (is_Some (map_get k m)).

(** What [m.delete(k)] leaves. *)
Definition map_delete (k : K) (m : list (K * V)) : list (K * V) :=
  filter (fun kv => kv.1 <> k) m.

(** [[...m.keys()]] *)
Definition map_keys (m : list (K * V)) : list K := m.*1.

End JsMap.

(** [Boolean(v)]. *)
Definition truthy (v : JsValue) : bool :=
  match v with
  | VUndefined | VNull => false
  | VBool b => b
  | VNum n => bool_decide (n <> 0)
  | VStr s => bool_decide (s <> "")
  | VObj _ => true
  end.

(** ** The class *)

Record EntityState := {
  key : JsValue;
  _fields : list (string * FieldCtrl);
  e_validationOptions : option ValidationOptions;
}.

Definition with_fields (f : list (string * FieldCtrl) -> list (string * FieldCtrl))
    (e : EntityState) : EntityState :=
  {| key := key e; _fields := f (_fields e);
     e_validationOptions := e_validationOptions e |}.

(** Methods of the entity: state, and the exceptions of the field methods
    they call. *)
Inductive EntityCompletion (A : Type) :=
| ENormal (a : A) (e : EntityState)
| EThrown (e : EntityState).
Arguments ENormal {A} a e.
Arguments EThrown {A} e.

Definition EM (A : Type) : Type := EntityState -> EntityCompletion A.

Definition eret {A} (a : A) : EM A := fun e => ENormal a e.
Definition ebind {A B} (m : EM A) (k : A -> EM B) : EM B :=
  fun e => match m e with
           | ENormal a e' => k a e'
           | EThrown e' => EThrown e'
           end.
Definition egets {A} (f : EntityState -> A) : EM A := fun e => ENormal (f e) e.
Definition emodify (f : EntityState -> EntityState) : EM unit := fun e => ENormal tt (f e).

Notation "x <~ m ;; k" := (ebind m (fun x => k))
  (at level 100, m at next level, k at level 200, right associativity).
Notation "m ;;~ k" := (ebind m (fun _ => k))
  (at level 100, k at level 200, right associativity).

(** A call [fc.m(...)] on the controller [fc] that the map holds under [k]:
    the object changes in place. *)
Definition call {A} (k : string) (fc : FieldCtrl) (m : M A) : EM A :=
  fun e => match m fc with
           | Normal a fc' => ENormal a (with_fields (map_set k fc') e)
           | Thrown fc' => EThrown (with_fields (map_set k fc') e)
           end.

(** [for (const fc of this._fields.values()) fc.m()], on the entries [todo]. *)
Fixpoint each_value (m : M unit) (todo : list (string * FieldCtrl)) : EM unit :=
  match todo with
  | [] => eret tt
  | (k, fc) :: todo' => call k fc m ;;~ each_value m todo'
  end.

(** [new EntityCtrl(key)], the cache apart. *)
Definition new_EntityState (key : JsValue) : EntityState :=
  {| key := key; _fields := []; e_validationOptions := None |}.

(** [get fields()] *)
Definition fields : EM (list string) := egets (fun e => map_keys (_fields e)).

(** [fc[param]] as a condition. *)
Definition truthy_param (p : FieldParam) (fc : FieldCtrl) : bool :=
  match p with
  | value => truthy (_value (params fc))
  | touched => bool_decide (_touched (params fc) <> 0)
  | changed => bool_decide (_changed (params fc) <> 0)
  | error_ => _error (params fc)
  | warning_ => _warning (params fc)
  | messages => bool_decide (is_Some (_messages (params fc)))
  end.

Definition _getFieldsIf (p : FieldParam) : EM (list string) :=
  egets (fun e => map_keys (filter (fun kv => truthy_param p kv.2 = true) (_fields e))).

Definition touchedFields : EM (list string) := _getFieldsIf touched.
Definition changedFields : EM (list string) := _getFieldsIf changed.
Definition errorFields : EM (list string) := _getFieldsIf error_.
Definition warningFields : EM (list string) := _getFieldsIf warning_.

(** [new FieldCtrl(field, this, defaultValue)]; [this._fields.set(field, fc)].
    An omitted [defaultValue] is [undefined]. *)
Definition createField (k : string) (defaultValue : JsValue) : EM FieldCtrl :=
  options <~ egets e_validationOptions ;;
  let fc := new_FieldCtrl (Some {| validationOptions := options |}) defaultValue in
  emodify (with_fields (map_set k fc)) ;;~
  eret fc.

Definition field (k : string) (strict : bool) : EM (option FieldCtrl) :=
  fc <~ egets (fun e => map_get k (_fields e)) ;;
  match fc with
  | Some fc => eret (Some fc)
  | None => if strict then eret None
            else fc <~ createField k VUndefined ;; eret (Some fc)
  end.

Definition hasField (k : string) : EM bool :=
  egets (fun e => map_has k (_fields e)).

Definition deleteField (k : string) : EM bool :=
  had <~ egets (fun e => map_has k (_fields e)) ;;
  emodify (with_fields (map_delete k)) ;;~
  eret had.

(** [createFields(defaultValues)]: [defaultValues] lists the properties
    that [for (const field in defaultValues)] visits, in that order, each
    with the value [defaultValues[field]]. *)
Fixpoint createFields (defaultValues : list (string * JsValue)) : EM unit :=
  match defaultValues with
  | [] => eret tt
  | (k, d) :: rest => createField k d ;;~ createFields rest
  end.

Definition deleteFields (fs : option (list string)) : EM unit :=
  match fs with
  | Some l => emodify (with_fields (fun m => foldl (fun m k => map_delete k m) m l))
  | None => emodify (with_fields (fun _ => []))
  end.

(** [get touched()], [get changed()]: the sums over the fields. *)
Definition get_touched : EM JsNumber :=
  egets (fun e => foldl (fun n kv => number_add n (_touched (params kv.2))) (Num 0)
                    (_fields e)).
Definition get_changed : EM JsNumber :=
  egets (fun e => foldl (fun n kv => number_add n (_changed (params kv.2))) (Num 0)
                    (_fields e)).

(** [get error()], [get warning()]: whether a field has the flag. *)
Definition get_error : EM bool :=
  egets (fun e => existsb (fun kv => _error (params kv.2)) (_fields e)).
Definition get_warning : EM bool :=
  egets (fun e => existsb (fun kv => _warning (params kv.2)) (_fields e)).

Definition clear : EM unit :=
  fs <~ egets _fields ;; each_value clear fs.

Definition reset : EM unit :=
  fs <~ egets _fields ;; each_value reset fs.

(** The object [_getFieldsParam] returns starts as [{}], an ordinary object
    that inherits from [Object.prototype].  [result[k] = v] creates or
    updates the own property [k], except for the key [__proto__]: this one
    is an accessor of [Object.prototype], so the assignment calls its
    setter, which makes [v] the prototype of [result] when [v] is an object
    or [null], does nothing otherwise, and creates no own property.  Once
    the prototype is [null] nothing is inherited, and [__proto__] is a key
    like any other.  An object that is the value of a field is taken to be
    an ordinary object that inherits from [Object.prototype] and has data
    properties only. *)
Inductive Prototype := ObjectPrototype | NullPrototype | ObjectValue (ref : nat).

Record PlainObject := {
  own : gmap string JsValue;
  prototype : Prototype;
}.

Definition empty_object : PlainObject := {| own := ∅; prototype := ObjectPrototype |}.

Definition proto_key : string := "__proto__".

(** The object inherits the accessor [__proto__]. *)
Definition inherits_proto (o : PlainObject) : bool :=
  match prototype o with
  | NullPrototype => false
  | ObjectPrototype | ObjectValue _ => true
  end.

(** The values the setter of [__proto__] ignores: all but objects and
    [null]. *)
Definition ignored_as_prototype (v : JsValue) : bool :=
  match v with
  | VObj _ | VNull => false
  | _ => true
  end.

(** [o[k] = v] *)
Definition object_set (k : string) (v : JsValue) (o : PlainObject) : PlainObject :=
  if bool_decide (k = proto_key) && inherits_proto o then
    match v with
    | VObj ref => {| own := own o; prototype := ObjectValue ref |}
    | VNull => {| own := own o; prototype := NullPrototype |}
    | _ => o
    end
  else {| own := <[k := v]> (own o); prototype := prototype o |}.

(** [_getFieldsParam(param, fields)]: the parameter is read by [read]. *)
Fixpoint get_loop (read : FieldCtrl -> JsValue) (ks : list string)
    (result : PlainObject) : EM PlainObject :=
  match ks with
  | [] => eret result
  | k :: ks' =>
      fc <~ egets (fun e => map_get k (_fields e)) ;;
      match fc with
      | None => get_loop read ks' result
      | Some fc => get_loop read ks' (object_set k (read fc) result)
      end
  end.

Definition _getFieldsParam (read : FieldCtrl -> JsValue) (fs : option (list string))
    : EM PlainObject :=
  ks <~ match fs with
        | Some l => eret l
        | None => egets (fun e => map_keys (_fields e))
        end ;;
  get_loop read ks empty_object.

Definition getValues (fs : option (list string)) : EM PlainObject :=
  _getFieldsParam (fun fc => _value (params fc)) fs.

Definition getDefaultValues (fs : option (list string)) : EM PlainObject :=
  _getFieldsParam (fun fc => defaultValue (settings fc)) fs.

(** [_setFieldsParam(param, params, strict)]: the parameter is assigned by
    [assign]; [params] lists the properties of the object that
    [for (const field in params)] visits, in that order, each with the
    value [params[field]]. *)
Fixpoint _setFieldsParam (assign : JsValue -> M unit)
    (params : list (string * JsValue)) (strict : bool) : EM unit :=
  match params with
  | [] => eret tt
  | (k, v) :: rest =>
      fc <~ field k strict ;;
      match fc with
      | None => eret tt
      | Some fc => call k fc (assign v)
      end ;;~
      _setFieldsParam assign rest strict
  end.

Definition setValues (values : list (string * JsValue)) (strict : bool) : EM unit :=
  _setFieldsParam set_value values strict.

Definition setDefaultValues (defaultValues : list (string * JsValue)) (strict : bool)
    : EM unit :=
  _setFieldsParam (fun v => modify (with_settings (put_defaultValue v)))
    defaultValues strict.

(** What the entity's [validate] returns: a boolean, or the promise
    [Promise.all(allResults).then(everyTruthy)] with the results it waits
    for, each with the key of the field it comes from. *)
Inductive EntityOutcome :=
| AllNow (b : bool)
| AllLater (allResults : list (string * Outcome)).

Fixpoint validate_loop (eventType : option ValidationEventType) (ks : list string)
    (allResults : list (string * Outcome)) : EM (list (string * Outcome)) :=
  match ks with
  | [] => eret allResults
  | k :: ks' =>
      fc <~ egets (fun e => map_get k (_fields e)) ;;
      match fc with
      | None => validate_loop eventType ks' allResults
      | Some fc =>
          passedMaybePromise <~ call k fc (validate eventType) ;;
          validate_loop eventType ks' (allResults ++ [(k, passedMaybePromise)])
      end
  end.

Definition is_promise (o : Outcome) : bool :=
  match o with Later _ => true | Now _ => false end.

Definition validate (fs : option (list string))
    (eventType : option ValidationEventType) : EM EntityOutcome :=
  ks <~ match fs with
        | Some l => eret l
        | None => egets (fun e => map_keys (_fields e))
        end ;;
  allResults <~ validate_loop eventType ks [] ;;
  eret (if existsb (fun r => is_promise r.2) allResults
        then AllLater allResults
        else AllNow (everyTruthy
                       (map (fun r => match r.2 with Now b => b | Later _ => true end)
                          allResults))).

(** [ec.validationOptions = o]: the fields read the options through their
    [parent], which is this entity. *)
Definition set_validationOptions (o : option ValidationOptions) : EM unit :=
  emodify (fun e =>
    {| key := key e;
       _fields := map (fun kv => (kv.1, state_after (run (SetParentOptions o) kv.2)))
                    (_fields e);
       e_validationOptions := o |}).

(** ** The cache of entities *)

(** The module variable [entityCache], and the entities by reference. *)
Record World := {
  entityCache : option (list (JsValue * nat));
  entities : gmap nat EntityState;
  next_entity : nat;
}.

Definition empty_world : World :=
  {| entityCache := None; entities := ∅; next_entity := 0%nat |}.

(** [new EntityCtrl(key)]: returns the reference of the new entity. *)
Definition new_EntityCtrl (k : JsValue) (w : World) : nat * World :=
  let this := next_entity w in
  (this,
   {| entityCache := if truthy k
                     then Some (map_set k this (default [] (entityCache w)))
                     else entityCache w;
      entities := <[this := new_EntityState k]> (entities w);
      next_entity := S this |}).

(** [EntityCtrl.get(key)] *)
Definition get (k : JsValue) (w : World) : option nat :=
  match entityCache w with
  | None => None
  | Some cache => map_get k cache
  end.

(** [EntityCtrl.keys()] *)
Definition keys (w : World) : list JsValue :=
  match entityCache w with
  | None => []
  | Some cache => map_keys cache
  end.

(** [EntityCtrl.clearCache()] *)
Definition clearCache (w : World) : World :=
  {| entityCache := None; entities := entities w; next_entity := next_entity w |}.

(** [this.destroy()] on the entity [this]. *)
Definition destroy (this : nat) (w : World) : bool * World :=
  match entities w !! this with
  | None => (false, w)
  | Some e =>
      let ents := <[this := with_fields (fun _ => []) e]> (entities w) in
      match entityCache w with
      | Some cache =>
          if truthy (key e) then
            let cache' := map_delete (key e) cache in
            (map_has (key e) cache,
             {| entityCache := if decide (length cache' = 0%nat) then None else Some cache';
                entities := ents; next_entity := next_entity w |})
          else (false, {| entityCache := Some cache; entities := ents;
                          next_entity := next_entity w |})
      | None => (false, {| entityCache := None; entities := ents;
                           next_entity := next_entity w |})
      end
  end.

(** ** [entc.ts] *)

(** [entc(key)] *)
Definition entc (k : JsValue) (w : World) : nat * World := new_EntityCtrl k w.

(** [entc.field(defaultValue, field)]: a field with no parent. *)
Definition entc_field (defaultValue : JsValue) : FieldCtrl :=
  new_FieldCtrl None defaultValue.

(** ** Runs of an entity *)

(** What can happen to an entity: a call of a public member, an assignment
    to [validationOptions], or something happening to one of its fields
    ([fc = ec.field(k, true)] and then an operation on [fc]). *)
Inductive EntityOp :=
| CreateField (k : string) (defaultValue : JsValue)
| GetField (k : string) (strict : bool)
| DeleteField (k : string)
| CreateFields (defaultValues : list (string * JsValue))
| DeleteFields (fs : option (list string))
| ClearAll
| ResetAll
| SetValues (values : list (string * JsValue)) (strict : bool)
| SetDefaultValues (defaultValues : list (string * JsValue)) (strict : bool)
| ValidateAll (fs : option (list string)) (eventType : option ValidationEventType)
| SetValidationOptions (o : option ValidationOptions)
| OnField (k : string) (op : Op).

(** The operations on a field that the entity's fields can undergo: a field
    of an entity has the entity as its parent for good. *)
Definition field_op (op : Op) : bool :=
  match op with
  | SetParentOptions _ => false
  | _ => true
  end.

Definition run_entity (op : EntityOp) : EM unit :=
  match op with
  | CreateField k d => createField k d ;;~ eret tt
  | GetField k strict => field k strict ;;~ eret tt
  | DeleteField k => deleteField k ;;~ eret tt
  | CreateFields dv => createFields dv
  | DeleteFields fs => deleteFields fs
  | ClearAll => clear
  | ResetAll => reset
  | SetValues vs strict => setValues vs strict
  | SetDefaultValues dv strict => setDefaultValues dv strict
  | ValidateAll fs eventType => validate fs eventType ;;~ eret tt
  | SetValidationOptions o => set_validationOptions o
  | OnField k op =>
      fc <~ egets (fun e => map_get k (_fields e)) ;;
      match fc with
      | Some fc => if field_op op then call k fc (run op) else eret tt
      | None => eret tt
      end
  end.

Definition entity_after {A} (c : EntityCompletion A) : EntityState :=
  match c with ENormal _ e => e | EThrown e => e end.

Inductive reachable_entity : EntityState -> Prop :=
| reachable_entity_new k : reachable_entity (new_EntityState k)
| reachable_entity_run e op :
    reachable_entity e -> reachable_entity (entity_after (run_entity op e)).

(** [ereturns m e Q]: run from [e], the method [m] returns normally, with a
    result and in a state that satisfy [Q]. *)
Definition ereturns {A} (m : EM A) (e : EntityState)
    (Q : A -> EntityState -> Prop) : Prop :=
  match m e with
  | ENormal a e' => Q a e'
  | EThrown _ => False
  end.

(** The state of the field under [k]. *)
Definition field_state (k : string) (e : EntityState) : option FieldCtrl :=
  map_get k (_fields e).

(** Every field reads the options of the entity it is in. *)
Definition parent_ok (e : EntityState) : Prop :=
  forall k fc, field_state k e = Some fc ->
    parent (settings fc) = Some {| validationOptions := e_validationOptions e |}.

(** The entries of the map have distinct keys, and every field is in a
    state a field controller can reach. *)
Definition entity_ok (e : EntityState) : Prop :=
  NoDup (map_keys (_fields e)) /\
  (forall k fc, field_state k e = Some fc -> reachable fc) /\
  parent_ok e.

(** ** The loops over fields *)

(** The state [_setFieldsParam] leaves after one pair: the field under [k],
    created if it is missing and [strict] is not set, has undergone [op]. *)
Definition assigned (k : string) (op : Op) (strict : bool) (e : EntityState)
    : EntityState :=
  match field_state k e with
  | Some fc => with_fields (map_set k (state_after (run op fc))) e
  | None =>
      if strict then e
      else with_fields
             (map_set k (state_after (run op
                (new_FieldCtrl (Some {| validationOptions := e_validationOptions e |})
                   VUndefined)))) e
  end.

(** The state the entity's [validate] leaves: the fields of [ks] that
    exist have undergone [validate(eventType)], in the order of [ks]. *)
Definition validated (eventType : option ValidationEventType) (ks : list string)
    (e : EntityState) : EntityState :=
  foldl (fun e k => assigned k (Validate eventType) true e) e ks.

(** The results the entity's [validate] collects. *)
Fixpoint collected (eventType : option ValidationEventType) (ks : list string)
    (e : EntityState) : list (string * Outcome) :=
  match ks with
  | [] => []
  | k :: ks' =>
      match field_state k e with
      | Some fc =>
          match validate_field eventType fc with
          | Normal r _ => [(k, r)]
          | Thrown _ => []
          end
      | None => []
      end ++ collected eventType ks' (assigned k (Validate eventType) true e)
  end.

(** The field under [k] once it has been assigned to by [op]. *)
Definition assigned_field (k : string) (op : Op) (strict : bool) (e : EntityState)
    : option FieldCtrl :=
  match field_state k e with
  | Some fc => Some (state_after (run op fc))
  | None =>
      if strict then None
      else Some (state_after (run op
             (new_FieldCtrl (Some {| validationOptions := e_validationOptions e |})
                VUndefined)))
  end.

(** The sum of a counter over the fields. *)
Definition total (f : FieldCtrl -> Z) (m : list (string * FieldCtrl)) : Z :=
  foldl (fun n kv => n + f kv.2) 0 m.

(** The keys the entity's [validate] and [getValues] go through. *)
Definition keys_of (fs : option (list string)) (e : EntityState) : list string :=
  match fs with
  | Some l => l
  | None => map_keys (_fields e)
  end.

(** What the entity's [validate] makes of the results it has collected. *)
Definition all_results (allResults : list (string * Outcome)) : EntityOutcome :=
  if existsb (fun r => is_promise r.2) allResults
  then AllLater allResults
  else AllNow (everyTruthy
                 (map (fun r => match r.2 with Now b => b | Later _ => true end)
                    allResults)).

(** The value the promise of the entity's [validate] resolves to, once the
    promises of its fields have resolved. *)
Definition all_resolved_to (allResults : list (string * Outcome)) (e : EntityState)
    : option bool :=
  everyTruthy <$>
    mapM (fun r : string * Outcome =>
            match r.2 with
            | Now b => Some b
            | Later j => fc ← field_state r.1 e; resolved_to j fc
            end) allResults.

End Entity.

(** * Properties *)

(** ** Normal forms *)

Lemma log_more_nil s : log_more [] s = s.
Proof.
  destruct s as [? ? ? ? []]. unfold log_more, with_runtime, put_notifications.
  cbn. by rewrite app_nil_r.
Qed.

Lemma log_more_app a b s : log_more b (log_more a s) = log_more (a ++ b) s.
Proof.
  unfold log_more, with_runtime, put_notifications. cbn. by rewrite app_assoc.
Qed.

Lemma with_flags_id s :
  with_flags (_error (params s)) (_warning (params s)) (_messages (params s)) s = s.
Proof. by destruct s as [? [] ? ? ?]. Qed.

Lemma with_validated_id s :
  with_validated (_requiredMessage (sources s)) (_rulesMessages (sources s)) s = s.
Proof. by destruct s as [? ? [] ? ?]. Qed.

Lemma with_next_array_id s : with_next_array (next_array (runtime s)) s = s.
Proof. by destruct s as [? ? ? ? []]. Qed.

(** ** Reasoning about methods *)

Lemma returns_ret {A} (a : A) s (Q : A -> FieldCtrl -> Prop) :
  Q a s -> returns (ret a) s Q.
Proof. done. Qed.

Lemma returns_bind {A B} (m : M A) (k : A -> M B) s (Q : B -> FieldCtrl -> Prop) :
  returns m s (fun a s' => returns (k a) s' Q) -> returns (bind m k) s Q.
Proof. unfold returns, bind. by destruct (m s). Qed.

Lemma returns_gets {A} (f : FieldCtrl -> A) s (Q : A -> FieldCtrl -> Prop) :
  Q (f s) s -> returns (gets f) s Q.
Proof. done. Qed.

Lemma returns_modify f s (Q : unit -> FieldCtrl -> Prop) :
  Q tt (f s) -> returns (modify f) s Q.
Proof. done. Qed.

Lemma returns_mono {A} (m : M A) s (Q Q' : A -> FieldCtrl -> Prop) :
  returns m s Q -> (forall a s', Q a s' -> Q' a s') -> returns m s Q'.
Proof. unfold returns. destruct (m s); [auto|done]. Qed.

Lemma returns_inv {A} (m : M A) s (Q : A -> FieldCtrl -> Prop) :
  returns m s Q -> exists a s', m s = Normal a s' /\ Q a s'.
Proof. unfold returns. destruct (m s); [eauto|done]. Qed.

Lemma returns_eq {A} (m : M A) s a s' (Q : A -> FieldCtrl -> Prop) :
  returns m s Q -> m s = Normal a s' -> Q a s'.
Proof. unfold returns. intros H E. by rewrite E in H. Qed.

Lemma returns_state_after {A} (m : M A) s (Q : A -> FieldCtrl -> Prop) :
  returns m s Q -> exists a, Q a (state_after (m s)).
Proof. unfold returns. destruct (m s); [eauto|done]. Qed.

Ltac unfold_accessors :=
  unfold this_params, this_sources, this_settings,
    assign_value, assign_touched, assign_changed, assign_error, assign_warning,
    assign_messages, assign_requiredMessage, assign_rulesMessages,
    assign_customMessages, assign_errorOverride, assign_warningOverride,
    assign_validation.

(** One step through a method body. *)
Ltac mstep :=
  unfold_accessors;
  lazymatch goal with
  | |- returns (bind _ _) _ _ => apply returns_bind
  | |- returns (ret _) _ _ => apply returns_ret
  | |- returns (gets _) _ _ => apply returns_gets
  | |- returns (modify _) _ _ => apply returns_modify
  end.
Ltac msteps := repeat mstep.

(** Use a proved specification for the method at the head of the goal. *)
Ltac mcall H :=
  lazymatch goal with
  | |- returns (bind _ _) _ _ => apply returns_bind; eapply returns_mono; [apply H|]
  | |- returns _ _ _ => eapply returns_mono; [apply H|]
  end.

Lemma returns_when_modify (b : bool) f s (Q : unit -> FieldCtrl -> Prop) :
  Q tt (if b then f s else s) -> returns (when b (modify f)) s Q.
Proof. by destruct b. Qed.

(** ** Listener dispatch *)

Lemma for_each_call_listener p prev ls s :
  for_each ls (call_listener p prev) s =
  Normal tt (log_more (map (fun l => Build_Notification l p prev) ls) s).
Proof.
  revert s. induction ls as [|l ls IH]; intros s; cbn.
  - by rewrite log_more_nil.
  - unfold bind. cbn. rewrite IH. f_equal.
    unfold log_more, with_runtime, put_notifications. cbn.
    by rewrite <- app_assoc.
Qed.

(** [_triggerListeners] returns normally and changes nothing but the log,
    to which it adds notifications for its parameter only. *)
Lemma _triggerListeners_spec p prev s :
  returns (_triggerListeners p prev) s (fun _ s' =>
    exists new, s' = log_more new s /\ Forall (fun n => n_param n = p) new).
Proof.
  assert (Hnil : exists new, s = log_more new s /\
                   Forall (fun n => n_param n = p) new).
  { exists []. by rewrite log_more_nil. }
  unfold _triggerListeners. mstep.
  apply returns_mono with (Q := fun _ s' => s' = s).
  { destruct p; msteps; done. }
  intros same ? ->. destruct same; [by mstep|].
  msteps. destruct (_listeners s p) as [|l|ls] eqn:El; [by mstep| |].
  - msteps. destruct (match holdListeners (settings s) with
                      | HoldBool b => b
                      | HoldList l0 => match p with param q => includes q l0 | any => false end
                      end); [by mstep|].
    mstep. unfold call_listener. mstep. mstep.
    exists [Build_Notification l p prev]. split; [done|]. by constructor.
  - msteps. destruct (match holdListeners (settings s) with
                      | HoldBool b => b
                      | HoldList l0 => match p with param q => includes q l0 | any => false end
                      end); [by mstep|].
    mstep. unfold returns at 1. rewrite for_each_call_listener. mstep.
    eexists. split; [done|].
    apply Forall_forall. intros n Hn.
    apply list_elem_of_fmap in Hn as (l & -> & _). done.
Qed.

(** ** Message composer *)

Lemma absorbed_nil only eo wo s : pinned only eo wo s -> absorbed only eo wo [] s = s.
Proof.
  intros [He Hw]. unfold absorbed. cbn.
  replace (if only is None
           then (_messages (params s), next_array (runtime s))
           else (_messages (params s), next_array (runtime s)))
    with (_messages (params s), next_array (runtime s)) by by destruct only.
  cbn.
  assert ((if only_not onlyWarning only
           then default (_error (params s) || false) eo
           else _error (params s)) = _error (params s)) as ->.
  { destruct (only_not onlyWarning only) eqn:E; [|done]. rewrite orb_false_r.
    destruct eo as [b|]; [|done]. cbn. symmetry. apply He; [|done].
    by intros ->. }
  assert ((if only_not onlyError only
           then default (_warning (params s) || false) wo
           else _warning (params s)) = _warning (params s)) as ->.
  { destruct (only_not onlyError only) eqn:E; [|done]. rewrite orb_false_r.
    destruct wo as [b|]; [|done]. cbn. symmetry. apply Hw; [|done].
    by intros ->. }
  by rewrite with_flags_id, with_next_array_id.
Qed.

Lemma has_type_app t l1 l2 : has_type t (l1 ++ l2) = has_type t l1 || has_type t l2.
Proof. apply existsb_app. Qed.

Lemma pushed_app ms n l1 l2 :
  pushed (pushed ms n l1).1 (pushed ms n l1).2 l2 = pushed ms n (l1 ++ l2).
Proof.
  destruct l1 as [|x l1]; [done|]. destruct l2 as [|y l2].
  { rewrite app_nil_r. by destruct ms. }
  destruct ms; cbn; [|done]. by rewrite <- app_assoc.
Qed.

Lemma absorbed_app only eo wo l1 l2 s :
  absorbed only eo wo l2 (absorbed only eo wo l1 s) = absorbed only eo wo (l1 ++ l2) s.
Proof.
  unfold absorbed at 1 3.
  assert (forall t a (o : option bool),
             default (default (a || has_type t l1) o || has_type t l2) o =
             default (a || has_type t (l1 ++ l2)) o) as Hd.
  { intros t a [b|]; cbn; [done|]. by rewrite has_type_app, orb_assoc. }
  destruct only as [[]|]; cbn.
  - by rewrite Hd.
  - by rewrite Hd.
  - rewrite !Hd.
    pose proof (pushed_app (_messages (params s)) (next_array (runtime s)) l1 l2) as Hp.
    unfold absorbed. cbn.
    destruct (pushed (_messages (params s)) (next_array (runtime s)) l1) as [m1 n1].
    cbn in *. by rewrite Hp.
Qed.

Lemma absorbed_pinned only eo wo l s :
  pinned only eo wo s -> pinned only eo wo (absorbed only eo wo l s).
Proof.
  intros [He Hw]. split; intros Ho b ->; cbn.
  - by destruct only as [[]|].
  - by destruct only as [[]|].
Qed.

Lemma processInternalMessage_spec only eo wo m s :
  returns (processInternalMessage only eo wo m) s (fun _ s' =>
    s' = absorbed only eo wo [m] s).
Proof.
  unfold processInternalMessage, when, absorbed, new_array.
  destruct s as [st [v t c e w ms] so ls [log n js]].
  destruct only as [[]|]; cbn; msteps; cbn.
  - by rewrite orb_false_r.
  - by rewrite orb_false_r.
  - destruct ms as [a|]; msteps; cbn; by rewrite !orb_false_r.
Qed.

Lemma for_each_process only eo wo l s :
  pinned only eo wo s ->
  returns (for_each l (processInternalMessage only eo wo)) s (fun _ s' =>
    s' = absorbed only eo wo l s).
Proof.
  revert s. induction l as [|m l IH]; intros s Hp; cbn [for_each].
  - mstep. by rewrite absorbed_nil.
  - mcall processInternalMessage_spec. intros _ ? ->.
    eapply returns_mono; [apply IH; by apply absorbed_pinned|].
    intros _ ? ->. by rewrite absorbed_app.
Qed.

Lemma for_each_process_slots only eo wo (l : list (option FieldMessage)) s :
  pinned only eo wo s ->
  returns (for_each l (fun slot => match slot with
                                   | Some m => processInternalMessage only eo wo m
                                   | None => ret tt
                                   end)) s (fun _ s' =>
    s' = absorbed only eo wo (omap id l) s).
Proof.
  revert s. induction l as [|[m|] l IH]; intros s Hp; cbn [for_each omap].
  - mstep. by rewrite absorbed_nil.
  - mcall processInternalMessage_spec. intros _ ? ->.
    eapply returns_mono; [apply IH; by apply absorbed_pinned|].
    intros _ ? ->. by rewrite absorbed_app.
  - mstep. mstep. by apply IH.
Qed.

Lemma _updateMessages_spec only skip s :
  returns (_updateMessages only skip) s (fun _ s' =>
    exists new,
      s' = log_more new (recomputed only s) /\
      (skip = true -> new = []) /\
      Forall (fun n => n_param n ∈ composer_params) new).
Proof.
  unfold _updateMessages. do 16 mstep. cbv beta.
  set (eo := _errorOverride (sources s)). set (wo := _warningOverride (sources s)).
  set (s1 := with_flags
       (if only_not onlyWarning only then default false eo else _error (params s))
       (if only_not onlyError only then default false wo else _warning (params s))
       (if not_only only then None else _messages (params s)) s).
  assert (Hs1 : pinned only eo wo s1).
  { split; intros Ho b ->; cbn; by destruct only as [[]|]. }
  do 3 (apply returns_bind; unfold_accessors; apply returns_when_modify).
  match goal with
  | |- returns _ ?st _ => replace st with s1
  end.
  2: { unfold s1. destruct s as [st [v t c e w ms] so ls rt].
       by destruct only as [[]|]. }
  mstep.
  apply returns_mono with (Q := fun _ s' =>
    s' = absorbed only eo wo (option_list (_requiredMessage (sources s))) s1).
  { destruct (_requiredMessage (sources s)) as [m|]; cbn [option_list].
    - apply processInternalMessage_spec.
    - mstep. by rewrite absorbed_nil. }
  intros _ ? ->. mstep.
  apply returns_mono with (Q := fun _ s' =>
    s' = absorbed only eo wo (option_list (_requiredMessage (sources s)) ++
                              omap id (rules_items s)) s1).
  { unfold rules_items. destruct (_rulesMessages (sources s)) as [a|].
    - eapply returns_mono;
        [apply for_each_process_slots; by apply absorbed_pinned|].
      intros _ ? ->. by rewrite absorbed_app.
    - mstep. by rewrite app_nil_r. }
  intros _ ? ->. mstep.
  apply returns_mono with (Q := fun _ s' => s' = recomputed only s).
  { unfold recomputed, composed. fold eo wo s1.
    destruct (_customMessages (sources s)) as [l|]; cbn [default].
    - eapply returns_mono; [apply for_each_process; by apply absorbed_pinned|].
      intros _ ? ->. by rewrite absorbed_app, <- app_assoc.
    - mstep. by rewrite app_nil_r. }
  intros _ ? ->. clear s1 Hs1.
  destruct skip; cbn [negb when].
  { mstep. exists []. by rewrite log_more_nil. }
  mcall _triggerListeners_spec. intros b1 ? (n1 & -> & H1).
  mcall _triggerListeners_spec. intros b2 ? (n2 & -> & H2).
  mcall _triggerListeners_spec. intros b3 ? (n3 & -> & H3).
  assert (Hn : Forall (fun n => n_param n ∈ composer_params) (n1 ++ n2 ++ n3)).
  { rewrite !Forall_app. repeat split;
      (eapply Forall_impl; [eassumption|]); intros n ->; unfold composer_params;
      set_solver. }
  unfold when. destruct (b1 || b2 || b3).
  - mcall _triggerListeners_spec. intros b4 ? (n4 & -> & H4). mstep.
    exists ((n1 ++ n2 ++ n3) ++ n4). rewrite !log_more_app.
    split; [by rewrite <- ?app_assoc|]. split; [done|].
    rewrite Forall_app. split; [done|].
    eapply Forall_impl; [eassumption|]. intros n ->. unfold composer_params.
    set_solver.
  - mstep. exists (n1 ++ n2 ++ n3). rewrite !log_more_app.
    split; [by rewrite <- ?app_assoc|]. done.
Qed.

Lemma recomputed_error s :
  _error (params (recomputed None s)) =
  default (has_type error (composed s)) (_errorOverride (sources s)).
Proof. cbn. by destruct (_errorOverride (sources s)). Qed.

Lemma recomputed_warning s :
  _warning (params (recomputed None s)) =
  default (has_type warning (composed s)) (_warningOverride (sources s)).
Proof. cbn. by destruct (_warningOverride (sources s)). Qed.

Lemma recomputed_messages s :
  messages_list (recomputed None s) = composed s /\
  (composed s = [] -> _messages (params (recomputed None s)) = None).
Proof.
  unfold messages_list. cbn. destruct (composed s) as [|m l]; [done|].
  split; [done|]. discriminate.
Qed.

Lemma recomputed_only_error s :
  _error (params (recomputed (Some onlyError) s)) =
  default (has_type error (composed s)) (_errorOverride (sources s)) /\
  _warning (params (recomputed (Some onlyError) s)) = _warning (params s) /\
  _messages (params (recomputed (Some onlyError) s)) = _messages (params s).
Proof. cbn. by destruct (_errorOverride (sources s)). Qed.

Lemma recomputed_only_warning s :
  _warning (params (recomputed (Some onlyWarning) s)) =
  default (has_type warning (composed s)) (_warningOverride (sources s)) /\
  _error (params (recomputed (Some onlyWarning) s)) = _error (params s) /\
  _messages (params (recomputed (Some onlyWarning) s)) = _messages (params s).
Proof. cbn. by destruct (_warningOverride (sources s)). Qed.

(** ** Validation engine *)

Lemma shallowEqual_true a b : shallowEqual a b = true <-> a = Some b.
Proof.
  destruct a as [[m t]|], b as [m' t']; cbn; [|done].
  rewrite andb_true_iff, !bool_decide_eq_true. split.
  - by intros [-> ->].
  - intros [= -> ->]. done.
Qed.

Lemma array_get_set {A} (l : list (option A)) i x :
  array_get (array_set l i x) i = Some x.
Proof.
  unfold array_get, array_set. destruct (decide (i < length l)%nat).
  - by rewrite list_lookup_insert_eq.
  - rewrite lookup_app_r by lia. rewrite lookup_app_r; rewrite length_replicate; [|lia].
    by replace (i - length l - (i - length l))%nat with 0%nat by lia.
Qed.

Lemma array_get_delete {A} (l : list (option A)) i :
  array_get (array_delete l i) i = None.
Proof.
  unfold array_get, array_delete. destruct (decide (i < length l)%nat).
  - by rewrite list_lookup_insert_eq.
  - rewrite list_insert_ge by lia. by rewrite lookup_ge_None_2 by lia.
Qed.

Lemma update_rulesMessages_spec arr f s :
  returns (update_rulesMessages arr f) s (fun r s' =>
    (exists rm, s' = with_validated (_requiredMessage (sources s)) rm s) /\
    (r = false -> s' = s) /\
    (attached arr s -> attached arr s' /\
       rules_items s' = default (rules_items s) (f (rules_items s)) /\
       (r = false -> f (rules_items s) = None))).
Proof.
  assert (Hid : exists rm, s = with_validated (_requiredMessage (sources s)) rm s).
  { exists (_rulesMessages (sources s)). by rewrite with_validated_id. }
  unfold update_rulesMessages, attached, rules_items. mstep. mstep. cbv beta.
  destruct (_rulesMessages (sources s)) as [a|] eqn:E.
  2: { by mstep. }
  destruct (decide (arr_id a = arr)) as [Ha|Ha].
  2: { mstep. split; [done|]. split; [done|]. cbn. congruence. }
  destruct (f (arr_items a)) as [items'|] eqn:Ef.
  - msteps. cbn. split; [by eexists|]. done.
  - mstep. cbn. rewrite ?E, ?Ef. done.
Qed.

Lemma validated_form s s' :
  settings s' = settings s -> params s' = params s ->
  _listeners s' = _listeners s -> runtime s' = runtime s ->
  _customMessages (sources s') = _customMessages (sources s) ->
  _errorOverride (sources s') = _errorOverride (sources s) ->
  _warningOverride (sources s') = _warningOverride (sources s) ->
  exists rq rm, s' = with_validated rq rm s.
Proof.
  intros. exists (_requiredMessage (sources s')), (_rulesMessages (sources s')).
  destruct s' as [? ? [] ? ?], s as [? ? [] ? ?]. cbn in *. by subst.
Qed.

Lemma processPassed_spec rule index arr passed s :
  returns (processPassed rule index arr passed) s (fun r s' =>
    r.2 = passed /\
    (exists rq rm, s' = with_validated rq rm s) /\
    (r.1 = false -> s' = s) /\
    (attached arr s -> attached arr s') /\
    (index = IdxRequired \/ attached arr s ->
     slot_of index s' = slot_message rule passed)).
Proof.
  unfold processPassed, slot_message. mstep.
  destruct (if passed then typeIfPassed rule else Some (default error (rule_type rule)))
    as [t|]; destruct index as [|i].
  - msteps. cbv beta.
    destruct (shallowEqual (_requiredMessage (sources s)) _) eqn:Eq.
    + apply shallowEqual_true in Eq. msteps. cbn.
      split; [done|]. split; [by apply validated_form|]. done.
    + msteps. cbn. split; [done|]. split; [by apply validated_form|]. done.
  - mcall update_rulesMessages_spec. intros r s' ((rm & Hs') & Hr & Hatt).
    mstep. cbn. split; [done|]. split; [eauto|]. split; [done|].
    split; [intros Ha; by destruct (Hatt Ha)|]. intros [|Ha]; [done|].
    destruct (Hatt Ha) as (_ & -> & Hnone).
    destruct (shallowEqual (array_get (rules_items s) i) _) eqn:Eq.
    * apply shallowEqual_true in Eq. done.
    * cbn. apply array_get_set.
  - msteps. cbv beta. destruct (_requiredMessage (sources s)) eqn:Eq.
    + msteps. cbn. split; [done|]. split; [by apply validated_form|]. done.
    + msteps. cbn. split; [done|]. split; [by apply validated_form|]. done.
  - mcall update_rulesMessages_spec. intros r s' ((rm & Hs') & Hr & Hatt).
    mstep. cbn. split; [done|]. split; [eauto|]. split; [done|].
    split; [intros Ha; by destruct (Hatt Ha)|]. intros [|Ha]; [done|].
    destruct (Hatt Ha) as (_ & -> & Hnone).
    destruct (array_get (rules_items s) i) eqn:Eq.
    * cbn. apply array_get_delete.
    * done.
Qed.

Lemma ruleValidateOn_spec validation rule s :
  returns (ruleValidateOn validation rule) s (fun on s' =>
    s' = s /\ on = resolved_validateOn validation rule s).
Proof.
  unfold ruleValidateOn, _getValidationDefault_validateOn, parent_option.
  msteps. done.
Qed.

Lemma check_spec rule s :
  returns (try_catch
             match rule_validate rule with
             | Some f => call_validate f
             | None => ret (PassedBool false)
             end
             (ret (PassedBool false))) s (fun r s' =>
    s' = s /\ r = check_result rule (view s)).
Proof.
  unfold returns, try_catch, check_result, call_validate.
  destruct (rule_validate rule) as [f|]; [|done].
  by destruct (f (view s)).
Qed.

Lemma validateRule_cases validation eventType hold arr rule index loc s :
  returns (validateRule validation eventType hold arr rule index loc) s (fun loc' s' =>
    if shouldValidate eventType hold (resolved_validateOn validation rule s) then
      match check_result rule (view s) with
      | PassedPromise p =>
          s' = s /\
          loc' = {| promisified := true; needUpdate := needUpdate loc;
                    results := results loc ++ [Waiting rule index arr p] |}
      | PassedBool passed =>
          exists update,
            processPassed rule index arr passed s = Normal (update, passed) s' /\
            loc' = {| promisified := promisified loc;
                      needUpdate := needUpdate loc || update;
                      results := results loc ++ [Done passed] |}
      end
    else s' = s /\ loc' = loc).
Proof.
  unfold validateRule. mcall ruleValidateOn_spec. intros on ? [-> ->].
  destruct (shouldValidate eventType hold _); cbn [negb]; [|by mstep].
  mcall check_spec. intros r ? [-> ->].
  destruct (check_result rule (view s)) as [passed|p]; [|by mstep].
  apply returns_bind.
  pose proof (processPassed_spec rule index arr passed s) as H.
  apply returns_inv in H as ([update b] & s' & E & Hb & _). cbn in Hb. subst b.
  unfold returns at 1. rewrite E. mstep. eauto.
Qed.

Lemma rule_step_refl arr loc s : rule_step arr loc s loc s [].
Proof.
  refine (conj _ (conj _ (conj _ (conj _ _)))); try done.
  - exists (_requiredMessage (sources s)), (_rulesMessages (sources s)).
    by rewrite with_validated_id.
  - by rewrite app_nil_r.
Qed.

Lemma rule_step_trans arr loc s loc1 s1 loc2 s2 e1 e2 :
  rule_step arr loc s loc1 s1 e1 -> rule_step arr loc1 s1 loc2 s2 e2 ->
  rule_step arr loc s loc2 s2 (e1 ++ e2).
Proof.
  intros ((rq & rm & ->) & Ha & Hn & He & Hp) ((rq' & rm' & ->) & Ha' & Hn' & He' & Hp').
  refine (conj _ (conj _ (conj _ (conj _ _)))).
  - by exists rq', rm'.
  - auto.
  - intros H. destruct (Hn' H) as [H1 E']. destruct (Hn H1) as [? E].
    split; [done|]. cbn in *. congruence.
  - by rewrite He', He, app_assoc.
  - intros H. destruct (Hp' H) as [H1 Hd']. destruct (Hp H1) as [? Hd1]. auto.
Qed.

Lemma all_done_snoc rs b : all_done (rs ++ [Done b]) = all_done rs.
Proof. unfold all_done. rewrite forallb_app. cbn. by rewrite andb_true_r. Qed.

Lemma validateRule_spec validation eventType hold arr rule index loc s :
  returns (validateRule validation eventType hold arr rule index loc) s (fun loc' s' =>
    rule_step arr loc s loc' s'
      (if shouldValidate eventType hold (resolved_validateOn validation rule s)
       then [passes rule (view s)] else [])).
Proof.
  eapply returns_mono; [apply validateRule_cases|]. intros loc' s' H. cbv beta in H.
  destruct (shouldValidate eventType hold _).
  2: { destruct H as [-> ->]. apply rule_step_refl. }
  unfold passes. destruct (check_result rule (view s)) as [passed|p].
  - destruct H as (update & E & ->).
    pose proof (processPassed_spec rule index arr passed s) as Hpp.
    eapply returns_eq in Hpp; [|exact E].
    destruct Hpp as (_ & Hform & Hsame & Hatt & _). cbn in Hsame.
    refine (conj _ (conj _ (conj _ (conj _ _)))); cbn; try done.
    + intros [? ?]%orb_false_elim. auto.
    + by rewrite map_app.
    + by rewrite all_done_snoc.
  - destruct H as [-> ->].
    refine (conj _ (conj _ (conj _ (conj _ _)))); cbn; try done.
    + exists (_requiredMessage (sources s)), (_rulesMessages (sources s)).
      by rewrite with_validated_id.
    + by rewrite map_app.
Qed.

Lemma validateRules_spec validation eventType hold arr rs i loc s :
  returns (validateRules validation eventType hold arr rs i loc) s (fun loc' s' =>
    rule_step arr loc s loc' s' (executed validation eventType hold s rs)).
Proof.
  revert i loc s. induction rs as [|rule rs IH]; intros i loc s; cbn [validateRules].
  - mstep. apply rule_step_refl.
  - mcall validateRule_spec. intros loc1 s1 H1.
    eapply returns_mono; [apply IH|]. intros loc2 s2 H2. cbv beta in H2.
    pose proof H1 as ((rq & rm & E) & _).
    assert (executed validation eventType hold s1 rs =
            executed validation eventType hold s rs) as Hex by by rewrite E.
    rewrite Hex in H2.
    pose proof (rule_step_trans _ _ _ _ _ _ _ _ _ H1 H2) as H.
    unfold executed in *. rewrite filter_cons.
    destruct (decide _) as [Hs|Hs].
    + by rewrite Hs in H.
    + apply not_true_is_false in Hs. by rewrite Hs in H.
Qed.

Lemma requiredRule_spec validation r s :
  returns (requiredRule validation r) s (fun rule s' =>
    s' = s /\ rule = required_rule validation r s).
Proof.
  unfold requiredRule, required_rule, _getValidationDefault_requiredValidate,
    _getValidationDefault_requiredMessage, parent_option.
  destruct r; msteps; done.
Qed.

Lemma bools_eventual rs : all_done rs = true -> bools rs = map eventual rs.
Proof.
  induction rs as [|[b|] rs IH]; cbn; [done| |done].
  intros H. f_equal. by apply IH.
Qed.

(** What [_validate] does.  [s0] is the state once [_rulesMessages] is an
    array, [s1] the state after the checks that completed synchronously. *)
Lemma _validate_spec eventType skip s :
  returns (_validate eventType skip) s (fun r s' =>
    match _validation (settings s) with
    | None => r = Now true /\ s' = s
    | Some validation =>
        if held eventType s then r = Now true /\ s' = s else
        exists n rm0 loc s1,
          let s0 := with_next_array n
                      (with_validated (_requiredMessage (sources s)) (Some rm0) s) in
          arr_items rm0 = rules_items s /\
          rule_step (arr_id rm0) loc0 s0 loc s1 (outcomes validation eventType s) /\
          if promisified loc then
            r = Later (length (promises (runtime s))) /\ s' = add_job (job_of loc) s1
          else
            r = Now (everyTruthy (outcomes validation eventType s)) /\
            if needUpdate loc then
              exists new, s' = log_more new (recomputed None s1) /\
                          (skip = true -> new = []) /\
                          Forall (fun x => n_param x ∈ composer_params) new
            else s' = s1 /\ s1 = s0
    end).
Proof.
  unfold _validate, held. mstep. mstep. cbv beta.
  destruct (_validation (settings s)) as [validation|]; [|by mstep].
  mstep. mstep. cbv beta. set (hold := holdValidation (settings s)).
  destruct (match hold with
            | HoldBool b => b
            | HoldList l => match eventType with Some e => includes e l | None => false end
            end); [by mstep|].
  mstep. mstep. cbv beta. apply returns_bind.
  apply returns_mono with (Q := fun a s0 =>
    exists n, s0 = with_next_array n
                     (with_validated (_requiredMessage (sources s)) (Some a) s) /\
              arr_items a = rules_items s).
  { unfold rules_items, new_array.
    destruct (_rulesMessages (sources s)) as [a|] eqn:E.
    - mstep. exists (next_array (runtime s)). split; [|done].
      rewrite <- E, with_validated_id. by rewrite with_next_array_id.
    - msteps. exists (S (next_array (runtime s))). split; [|done].
      cbn. by destruct s as [? ? [] ? ?]. }
  intros rm0 s0 (n & -> & Hrm0).
  set (s0 := with_next_array n _).
  assert (Hview : forall rq rm, view (with_validated rq rm s0) = view s /\
                                settings (with_validated rq rm s0) = settings s) by done.
  apply returns_bind.
  apply returns_mono with (Q := fun loc1 s1 =>
    rule_step (arr_id rm0) loc0 s0 loc1 s1
      (if required_truthy (required validation) then
         match required validation with
         | Some r =>
             let rule := required_rule validation r s in
             if shouldValidate eventType hold (resolved_validateOn validation rule s)
             then [passes rule (view s)] else []
         | None => []
         end
       else [])).
  { destruct (required_truthy (required validation)); [|mstep; apply rule_step_refl].
    destruct (required validation) as [r|]; [|mstep; apply rule_step_refl].
    mcall requiredRule_spec. intros rule ? [-> ->].
    eapply returns_mono; [apply validateRule_spec|]. intros loc1 s1 H. exact H. }
  intros loc1 s1 H1. apply returns_bind.
  apply returns_mono with (Q := fun loc2 s2 =>
    rule_step (arr_id rm0) loc0 s0 loc2 s2 (outcomes validation eventType s)).
  { pose proof H1 as ((rq & rm & E) & _).
    unfold outcomes. fold hold. destruct (rules validation) as [rs|]; cbn [default].
    - eapply returns_mono; [apply validateRules_spec|]. intros loc2 s2 H2.
      cbv beta in H2.
      assert (executed validation eventType hold s1 rs =
              executed validation eventType hold s rs) as Hex by by rewrite E.
      rewrite Hex in H2. eapply rule_step_trans; eassumption.
    - mstep. unfold executed. cbn. by rewrite app_nil_r. }
  intros loc s2 H2. cbv beta.
  destruct (promisified loc) eqn:Ep.
  - msteps. exists n, rm0, loc, s2. cbv zeta. fold s0. rewrite Ep.
    pose proof H2 as ((rq & rm & E) & _). split; [done|]. split; [done|].
    by rewrite E.
  - destruct H2 as (Hform & Hatt & Hn & He & Hp).
    destruct (Hp Ep) as [_ Hdone]. specialize (Hdone eq_refl).
    cbn in He.
    assert (Hout : everyTruthy (bools (results loc)) =
                   everyTruthy (outcomes validation eventType s)).
    { by rewrite <- He, <- bools_eventual. }
    assert (H2 : rule_step (arr_id rm0) loc0 s0 loc s2
                   (outcomes validation eventType s)).
    { by refine (conj _ (conj _ (conj _ (conj _ _)))). }
    destruct (needUpdate loc) eqn:En; cbn [when].
    + mcall _updateMessages_spec. intros _ s' (new & -> & Hnew). mstep.
      exists n, rm0, loc, s2. cbv zeta. fold s0. rewrite Ep, En, Hout. eauto 10.
    + msteps. exists n, rm0, loc, s2. cbv zeta. fold s0. rewrite Ep, En, Hout.
      destruct (Hn eq_refl) as [_ ->]. done.
Qed.

(** *** Promises along a run *)

Lemma track_refl js : track js js.
Proof. intros j job E. exists job. auto. Qed.

Lemma track_trans js1 js2 js3 : track js1 js2 -> track js2 js3 -> track js1 js3.
Proof.
  intros H1 H2 j job E. destruct (H1 j job E) as (job2 & E2 & He2 & Hd2 & Hv2).
  destruct (H2 j job2 E2) as (job3 & E3 & He3 & Hd3 & Hv3).
  exists job3. split; [done|]. split; [congruence|]. split; [by auto|].
  destruct Hv2 as [Hv2|[Hn Hv2]], Hv3 as [Hv3|[Hn3 Hv3]].
  - left. congruence.
  - right. split; congruence.
  - right. split; congruence.
  - congruence.
Qed.

Lemma track_app js job : track js (js ++ [job]).
Proof.
  intros j x E. exists x. split; [|auto]. rewrite lookup_app_l; [done|].
  by eapply lookup_lt_Some.
Qed.

(** ** Invariants *)

Lemma quiet_refl s : quiet s s.
Proof. unfold quiet. tauto. Qed.

Lemma quiet_trans s1 s2 s3 : quiet s1 s2 -> quiet s2 s3 -> quiet s1 s3.
Proof.
  unfold quiet. intros (?&?&?&?&?&?&?&?) (?&?&?&?&?&?&?&?).
  repeat split; congruence.
Qed.

Lemma effect_refl s : effect s s.
Proof. split; [done|]. split; [done|]. apply track_refl. Qed.

Lemma effect_trans s1 s2 s3 : effect s1 s2 -> effect s2 s3 -> effect s1 s3.
Proof.
  intros (Ho1 & Hc1 & Ht1) (Ho2 & Hc2 & Ht2). split; [auto|].
  split; [|by eapply track_trans].
  intros H3. destruct (Hc2 H3) as [H2 Hi2]. destruct (Hc1 H2) as [H1 Hi1]. auto.
Qed.

Lemma composer_ok_same s s' :
  _error (params s') = _error (params s) ->
  _warning (params s') = _warning (params s) ->
  _messages (params s') = _messages (params s) ->
  composed s' = composed s ->
  _errorOverride (sources s') = _errorOverride (sources s) ->
  _warningOverride (sources s') = _warningOverride (sources s) ->
  composer_ok s -> composer_ok s'.
Proof.
  unfold composer_ok, messages_ok, flags_ok, messages_list.
  intros -> -> -> -> -> ->. done.
Qed.

Lemma overrides_ok_same s s' :
  _error (params s') = _error (params s) ->
  _warning (params s') = _warning (params s) ->
  _errorOverride (sources s') = _errorOverride (sources s) ->
  _warningOverride (sources s') = _warningOverride (sources s) ->
  overrides_ok s -> overrides_ok s'.
Proof. unfold overrides_ok. intros -> -> -> ->. done. Qed.

Lemma effect_same s s' :
  _error (params s') = _error (params s) ->
  _warning (params s') = _warning (params s) ->
  _messages (params s') = _messages (params s) ->
  composed s' = composed s ->
  _errorOverride (sources s') = _errorOverride (sources s) ->
  _warningOverride (sources s') = _warningOverride (sources s) ->
  promises (runtime s') = promises (runtime s) ->
  effect s s'.
Proof.
  intros He Hw Hm Hc Heo Hwo Hp. split; [|split].
  - by apply overrides_ok_same.
  - unfold never_async. rewrite Hp. split; [done|]. by apply composer_ok_same.
  - rewrite Hp. apply track_refl.
Qed.

Lemma composer_ok_recomputed new s : composer_ok (log_more new (recomputed None s)).
Proof.
  destruct (recomputed_messages s) as [Hm Hn].
  split; split.
  - exact Hm.
  - exact Hn.
  - change (_error (params (recomputed None s)) =
            default (has_type error (messages_list (recomputed None s)))
              (_errorOverride (sources s))).
    rewrite Hm. apply recomputed_error.
  - change (_warning (params (recomputed None s)) =
            default (has_type warning (messages_list (recomputed None s)))
              (_warningOverride (sources s))).
    rewrite Hm. apply recomputed_warning.
Qed.

Lemma overrides_ok_recomputed new s : overrides_ok (log_more new (recomputed None s)).
Proof.
  split; intros b Hb.
  - change (_error (params (recomputed None s)) = b).
    rewrite recomputed_error. change (_errorOverride (sources s) = Some b) in Hb.
    by rewrite Hb.
  - change (_warning (params (recomputed None s)) = b).
    rewrite recomputed_warning. change (_warningOverride (sources s) = Some b) in Hb.
    by rewrite Hb.
Qed.

(** A full recomputation establishes the invariants whatever the state. *)
Lemma effect_recomputed new s0 s :
  promises (runtime s) = promises (runtime s0) ->
  effect s0 (log_more new (recomputed None s)).
Proof.
  intros Hp. split; [|split].
  - intros _. apply overrides_ok_recomputed.
  - unfold never_async. change (promises (runtime (log_more new (recomputed None s))))
      with (promises (runtime s)). rewrite Hp. split; [done|].
    intros _. apply composer_ok_recomputed.
  - change (promises (runtime (log_more new (recomputed None s))))
      with (promises (runtime s)). rewrite Hp. apply track_refl.
Qed.

Lemma quiet_recomputed new only s0 s :
  quiet s0 s -> quiet s0 (log_more new (recomputed only s)).
Proof. intros H. eapply quiet_trans; [exact H|]. by repeat split. Qed.

Lemma _triggerListeners_quiet p prev s :
  returns (_triggerListeners p prev) s (fun _ s' => quiet s s' /\ effect s s').
Proof.
  eapply returns_mono; [apply _triggerListeners_spec|].
  intros _ ? (new & -> & _). split; [by repeat split|]. by apply effect_same.
Qed.

Lemma _updateMessages_quiet skip s :
  returns (_updateMessages None skip) s (fun _ s' => quiet s s' /\ effect s s').
Proof.
  eapply returns_mono; [apply _updateMessages_spec|].
  intros _ ? (new & -> & _). split.
  - apply quiet_recomputed, quiet_refl.
  - by apply effect_recomputed.
Qed.

Lemma _validate_quiet eventType skip s :
  returns (_validate eventType skip) s (fun _ s' => quiet s s' /\ effect s s').
Proof.
  eapply returns_mono; [apply _validate_spec|]. intros r s' H. cbv beta in H.
  destruct (_validation (settings s)) as [validation|].
  2: { destruct H as [_ ->]. split; [apply quiet_refl|apply effect_refl]. }
  destruct (held eventType s).
  { destruct H as [_ ->]. split; [apply quiet_refl|apply effect_refl]. }
  destruct H as (n & rm0 & loc & s1 & Hrm0 & Hstep & H). cbv zeta in Hstep.
  destruct Hstep as ((rq & rm & ->) & _).
  destruct (promisified loc).
  - destruct H as [_ ->]. split; [by repeat split|].
    split; [by apply overrides_ok_same|]. split; [|apply track_app].
    unfold never_async. cbn. intros E. by destruct (promises (runtime s)).
  - destruct H as [_ H]. destruct (needUpdate loc).
    + destruct H as (new & -> & _). split.
      * apply quiet_recomputed. by repeat split.
      * by apply effect_recomputed.
    + destruct H as [-> E]. rewrite E. split; [by repeat split|].
      apply effect_same; try done.
      unfold composed, rules_items. cbn. by rewrite Hrm0.
Qed.

Lemma settle_unfold j k s job rule index arr p :
  promises (runtime s) !! j = Some job ->
  job_items job !! k = Some (Waiting rule index arr p) ->
  settle j k s = settle_continuation j k job rule index arr (settled p) s.
Proof.
  intros Ej Ek. unfold settle, settle_continuation, bind at 1, gets.
  rewrite Ej, Ek. by destruct p.
Qed.

Lemma settle_waiting j k s job rule index arr p :
  promises (runtime s) !! j = Some job ->
  job_items job !! k = Some (Waiting rule index arr p) ->
  returns (settle j k) s (fun _ s' =>
    promises (runtime s') =
      <[j := {| job_items := <[k := Done (settled p)]> (job_items job);
                job_update := job_update job; job_value := job_value job |}]>
        (promises (runtime s)) /\
    (index = IdxRequired \/ attached arr s ->
     slot_of index s' = slot_message rule (settled p))).
Proof.
  intros Ej Ek. unfold returns. rewrite (settle_unfold _ _ _ _ _ _ _ _ Ej Ek).
  fold (returns (settle_continuation j k job rule index arr (settled p)) s
          (fun _ s' =>
             promises (runtime s') =
               <[j := {| job_items := <[k := Done (settled p)]> (job_items job);
                         job_update := job_update job;
                         job_value := job_value job |}]> (promises (runtime s)) /\
             (index = IdxRequired \/ attached arr s ->
              slot_of index s' = slot_message rule (settled p)))).
  unfold settle_continuation. mcall processPassed_spec.
  intros [u b] s1 (Hb & (rq & rm & ->) & _ & _ & Hslot). cbn in Hb. subst b.
  unfold put_job. mstep. split; [done|]. exact Hslot.
Qed.

Lemma settle_eventual j k s :
  returns (settle j k) s (fun _ s' =>
    map (fun job => (map eventual (job_items job), job_update job, job_value job))
        (promises (runtime s')) =
    map (fun job => (map eventual (job_items job), job_update job, job_value job))
        (promises (runtime s))).
Proof.
  destruct (promises (runtime s) !! j) as [job|] eqn:Ej.
  2: { unfold settle. mstep. mstep. cbv beta. rewrite Ej. by mstep. }
  destruct (job_items job !! k) as [[b|rule index arr p]|] eqn:Ek.
  1, 3: unfold settle; mstep; mstep; cbv beta; rewrite Ej, Ek; by mstep.
  eapply returns_mono; [by eapply settle_waiting|]. intros _ s' [-> _].
  rewrite list_fmap_insert. apply list_insert_id. rewrite list_lookup_fmap, Ej.
  cbn. do 3 f_equal. rewrite list_fmap_insert. symmetry. apply list_insert_id.
  by rewrite list_lookup_fmap, Ek.
Qed.

Lemma finish_resolves j s job :
  promises (runtime s) !! j = Some job ->
  all_done (job_items job) = true -> job_value job = None ->
  returns (finish j) s (fun _ s' =>
    promises (runtime s') =
      <[j := {| job_items := job_items job; job_update := job_update job;
                job_value := Some (everyTruthy (map eventual (job_items job))) |}]>
        (promises (runtime s))).
Proof.
  intros Ej Hd Hv. unfold finish. mstep. mstep. cbv beta. rewrite Ej, Hd, Hv.
  cbn [andb]. rewrite bool_decide_true by done.
  rewrite bools_eventual by done. unfold put_job.
  destruct (job_update job); cbn [when].
  - mcall _updateMessages_spec. intros _ ? (new & -> & _). by mstep.
  - by msteps.
Qed.

Lemma finish_eventual j s :
  returns (finish j) s (fun _ s' =>
    map (fun job => (map eventual (job_items job), job_update job))
        (promises (runtime s')) =
    map (fun job => (map eventual (job_items job), job_update job))
        (promises (runtime s)) /\
    Forall2 (fun job job' =>
               job_value job' = job_value job \/
               (job_value job = None /\ all_done (job_items job) = true /\
                job_value job' = Some (everyTruthy (map eventual (job_items job)))))
      (promises (runtime s)) (promises (runtime s'))).
Proof.
  assert (Hrefl : Forall2 (fun job job' =>
               job_value job' = job_value job \/
               (job_value job = None /\ all_done (job_items job) = true /\
                job_value job' = Some (everyTruthy (map eventual (job_items job)))))
      (promises (runtime s)) (promises (runtime s))).
  { apply Forall2_same_length_lookup. split; [done|]. intros i x y E1 E2.
    left. congruence. }
  destruct (promises (runtime s) !! j) as [job|] eqn:Ej.
  2: { unfold finish. mstep. mstep. cbv beta. rewrite Ej. by mstep. }
  destruct (all_done (job_items job)) eqn:Hd.
  2: { unfold finish. mstep. mstep. cbv beta. rewrite Ej, Hd. cbn [andb]. by mstep. }
  destruct (job_value job) as [b|] eqn:Hv.
  { unfold finish. mstep. mstep. cbv beta. rewrite Ej, Hd, Hv. cbn [andb].
    rewrite bool_decide_false by done. by mstep. }
  eapply returns_mono; [by eapply finish_resolves|]. intros _ s' ->. split.
  - rewrite list_fmap_insert. apply list_insert_id. by rewrite list_lookup_fmap, Ej.
  - apply Forall2_same_length_lookup. split; [by rewrite length_insert|].
    intros i x y E1 E2. destruct (decide (i = j)) as [->|Hne].
    + rewrite list_lookup_insert_eq in E2 by by eapply lookup_lt_Some.
      right. injection E2 as <-. rewrite Ej in E1. injection E1 as <-. done.
    + rewrite list_lookup_insert_ne in E2 by done. left. congruence.
Qed.

Lemma returns_conj {A} (m : M A) s (Q1 Q2 : A -> FieldCtrl -> Prop) :
  returns m s Q1 -> returns m s Q2 -> returns m s (fun a s' => Q1 a s' /\ Q2 a s').
Proof. unfold returns. by destruct (m s). Qed.

(** A result that is there stays. *)
Lemma settle_keeps j k s :
  returns (settle j k) s (fun _ s' =>
    forall j0 job, promises (runtime s) !! j0 = Some job ->
      exists job', promises (runtime s') !! j0 = Some job' /\
        forall i b, job_items job !! i = Some (Done b) ->
                    job_items job' !! i = Some (Done b)).
Proof.
  destruct (promises (runtime s) !! j) as [job|] eqn:Ej.
  2: { unfold settle. mstep. mstep. cbv beta. rewrite Ej. mstep. eauto. }
  destruct (job_items job !! k) as [[b|rule index arr p]|] eqn:Ek.
  1, 3: unfold settle; mstep; mstep; cbv beta; rewrite Ej, Ek; mstep; eauto.
  eapply returns_mono; [by eapply settle_waiting|]. intros _ s' [-> _] j0 job0 E0.
  destruct (decide (j0 = j)) as [->|Hne].
  - rewrite Ej in E0. injection E0 as <-.
    rewrite list_lookup_insert_eq by by eapply lookup_lt_Some.
    eexists. split; [done|]. cbn. intros i b Hi.
    destruct (decide (i = k)) as [->|Hik]; [congruence|].
    by rewrite list_lookup_insert_ne.
  - rewrite list_lookup_insert_ne by done. eauto.
Qed.

Lemma finish_keeps j s :
  returns (finish j) s (fun _ s' =>
    forall j0 job, promises (runtime s) !! j0 = Some job ->
      exists job', promises (runtime s') !! j0 = Some job' /\
        forall i b, job_items job !! i = Some (Done b) ->
                    job_items job' !! i = Some (Done b)).
Proof.
  destruct (promises (runtime s) !! j) as [job|] eqn:Ej.
  2: { unfold finish. mstep. mstep. cbv beta. rewrite Ej. mstep. eauto. }
  destruct (all_done (job_items job)) eqn:Hd.
  2: { unfold finish. mstep. mstep. cbv beta. rewrite Ej, Hd. cbn [andb]. mstep. eauto. }
  destruct (job_value job) as [b|] eqn:Hv.
  { unfold finish. mstep. mstep. cbv beta. rewrite Ej, Hd, Hv. cbn [andb].
    rewrite bool_decide_false by done. mstep. eauto. }
  eapply returns_mono; [by eapply finish_resolves|]. intros _ s' -> j0 job0 E0.
  destruct (decide (j0 = j)) as [->|Hne].
  - rewrite Ej in E0. injection E0 as <-.
    rewrite list_lookup_insert_eq by by eapply lookup_lt_Some.
    eexists. split; [done|]. by cbn.
  - rewrite list_lookup_insert_ne by done. eauto.
Qed.

Lemma settle_track j k s :
  returns (settle j k) s (fun _ s' => track (promises (runtime s)) (promises (runtime s'))).
Proof.
  eapply returns_mono;
    [exact (returns_conj _ _ _ _ (settle_eventual j k s) (settle_keeps j k s))|].
  intros ? s' [H Hk] j0 job E. cbv beta in H, Hk.
  destruct (Hk j0 job E) as (job' & E' & Hd).
  apply (f_equal (fun l => l !! j0)) in H. rewrite !list_lookup_fmap, E, E' in H.
  cbn in H. injection H as H1 H2 H3. exists job'. auto.
Qed.

Lemma finish_track j s :
  returns (finish j) s (fun _ s' => track (promises (runtime s)) (promises (runtime s'))).
Proof.
  eapply returns_mono;
    [exact (returns_conj _ _ _ _ (finish_eventual j s) (finish_keeps j s))|].
  intros ? s' [[H HF] Hk] j0 job E. cbv beta in Hk.
  destruct (Hk j0 job E) as (job' & E' & Hd).
  destruct (Forall2_lookup_l _ _ _ _ _ HF E) as (job2 & E2 & Hv).
  rewrite E' in E2. injection E2 as <-.
  apply (f_equal (fun l => l !! j0)) in H. rewrite !list_lookup_fmap, E, E' in H.
  cbn in H. injection H as H1 H2. exists job'. split; [done|]. split; [done|].
  split; [done|]. destruct Hv as [Hv|(Hn & _ & Hv)]; auto.
Qed.

Lemma put_job_not_never_async j job x s :
  promises (runtime s) !! j = Some x ->
  ~ never_async (with_runtime (fun r => put_promises (<[j := job]> (promises r)) r) s).
Proof.
  unfold never_async. cbn. intros H E.
  apply (f_equal length) in E. rewrite length_insert in E.
  apply lookup_lt_Some in H. cbn in E. lia.
Qed.

Lemma settle_quiet j k s :
  returns (settle j k) s (fun _ s' => quiet s s' /\ effect s s').
Proof.
  assert (Hsame : quiet s s /\ effect s s) by (split; [apply quiet_refl|apply effect_refl]).
  cut (returns (settle j k) s (fun _ s' =>
         quiet s s' /\ (overrides_ok s -> overrides_ok s') /\
         (never_async s' -> never_async s /\ (composer_ok s -> composer_ok s')))).
  { intros H. eapply returns_mono; [exact (returns_conj _ _ _ _ (settle_track j k s) H)|].
    intros a s' [Ht (Hq & Ho & Hc)]. exact (conj Hq (conj Ho (conj Hc Ht))). }
  unfold settle. mstep. mstep. cbv beta.
  destruct (promises (runtime s) !! j) as [job|] eqn:Ej.
  2: { mstep. destruct Hsame as (? & ? & ? & ?). done. }
  destruct (job_items job !! k) as [[b|rule index arr p]|].
  1, 3: mstep; destruct Hsame as (? & ? & ? & ?); done.
  mcall processPassed_spec. intros r s1 (_ & (rq & rm & ->) & _).
  unfold put_job. mstep. split; [by repeat split|]. split.
  - by apply overrides_ok_same.
  - intros H. exfalso. revert H. by eapply put_job_not_never_async.
Qed.

Lemma finish_quiet j s :
  returns (finish j) s (fun _ s' => quiet s s' /\ effect s s').
Proof.
  assert (Hsame : quiet s s /\ effect s s) by (split; [apply quiet_refl|apply effect_refl]).
  cut (returns (finish j) s (fun _ s' =>
         quiet s s' /\ (overrides_ok s -> overrides_ok s') /\
         (never_async s' -> never_async s /\ (composer_ok s -> composer_ok s')))).
  { intros H. eapply returns_mono; [exact (returns_conj _ _ _ _ (finish_track j s) H)|].
    intros a s' [Ht (Hq & Ho & Hc)]. exact (conj Hq (conj Ho (conj Hc Ht))). }
  unfold finish. mstep. mstep. cbv beta.
  destruct (promises (runtime s) !! j) as [job|] eqn:Ej.
  2: { mstep. destruct Hsame as (? & ? & ? & ?). done. }
  destruct (all_done (job_items job) && bool_decide (job_value job = None)).
  2: { mstep. destruct Hsame as (? & ? & ? & ?). done. }
  unfold put_job. destruct (job_update job); cbn [when].
  - mcall _updateMessages_spec. intros _ s1 (new & -> & _). mstep.
    split; [by repeat split|]. split.
    + intros _. apply (overrides_ok_same (log_more new (recomputed None s))); try done.
      apply overrides_ok_recomputed.
    + intros H. exfalso. revert H. by eapply put_job_not_never_async.
  - msteps. split; [by repeat split|]. split.
    + by apply overrides_ok_same.
    + intros H. exfalso. revert H. by eapply put_job_not_never_async.
Qed.

(** ** The public members keep the invariants *)

Ltac mquiet H :=
  mcall H; let q := fresh "Hq" in let e := fresh "He" in intros ? ? [q e].

(** Chain the effects collected along a method body. *)
Ltac effect_chain :=
  repeat match goal with
         | H : effect ?a ?b |- effect ?a _ =>
             apply (effect_trans a b); [exact H|]; clear H
         end;
  try apply effect_refl.

Lemma set_value_effect v s : returns (set_value v) s (fun _ s' => effect s s').
Proof.
  unfold set_value. msteps.
  match goal with |- returns _ ?st _ => set (s1 := st) end.
  assert (E1 : effect s s1) by by apply effect_same.
  mquiet _validate_quiet.
  do 6 (msteps; mquiet _triggerListeners_quiet). msteps.
  effect_chain.
Qed.

Lemma touch_effect v s : returns (touch_ v) s (fun _ s' => effect s s').
Proof.
  unfold touch_. msteps.
  match goal with |- returns _ ?st _ => set (s1 := st) end.
  assert (E1 : effect s s1) by by apply effect_same.
  mquiet _validate_quiet.
  do 7 (msteps; mquiet _triggerListeners_quiet). msteps.
  effect_chain.
Qed.

Lemma set_touched_effect t s : returns (set_touched t) s (fun _ s' => effect s s').
Proof.
  unfold set_touched. msteps.
  match goal with |- returns _ ?st _ => set (s1 := st) end.
  assert (E1 : effect s s1) by by apply effect_same.
  mquiet _triggerListeners_quiet. msteps.
  effect_chain.
Qed.

Lemma set_changed_effect c s : returns (set_changed c) s (fun _ s' => effect s s').
Proof.
  unfold set_changed. msteps.
  match goal with |- returns _ ?st _ => set (s1 := st) end.
  assert (E1 : effect s s1) by by apply effect_same.
  mquiet _triggerListeners_quiet. msteps.
  effect_chain.
Qed.

Lemma composer_ok_only_error new s :
  composer_ok s ->
  composer_ok (log_more new (recomputed (Some onlyError)
                               (with_sources (put_errorOverride None) s))).
Proof.
  unfold composer_ok, messages_ok, flags_ok, messages_list, composed, rules_items.
  cbn. intros [[Hml Hn] [He Hw]]. split; [by split|]. split; [|exact Hw].
  by rewrite Hml.
Qed.

Lemma composer_ok_only_warning new s :
  composer_ok s ->
  composer_ok (log_more new (recomputed (Some onlyWarning)
                               (with_sources (put_warningOverride None) s))).
Proof.
  unfold composer_ok, messages_ok, flags_ok, messages_list, composed, rules_items.
  cbn. intros [[Hml Hn] [He Hw]]. split; [by split|]. split; [exact He|].
  by rewrite Hml.
Qed.

Lemma set_errorOverride_effect o s :
  returns (set_errorOverride o) s (fun _ s' => effect s s').
Proof.
  unfold set_errorOverride. msteps.
  destruct (decide (_errorOverride (sources s) = o)); [mstep; apply effect_refl|].
  msteps. destruct o as [b|].
  - msteps. mcall _triggerListeners_spec. intros _ ? (new & -> & _). mstep.
    split; [|split; [split; [done|]|apply track_refl]].
    + intros [_ Hw]. split; [|exact Hw]. by intros ? [= ->].
    + intros [Hm [_ Hw]]. by split.
  - mcall _updateMessages_spec. intros _ ? (new & -> & _).
    split; [|split; [split; [done|apply composer_ok_only_error]|apply track_refl]].
    intros [_ Hwo]. split; [done|]. exact Hwo.
Qed.

Lemma set_warningOverride_effect o s :
  returns (set_warningOverride o) s (fun _ s' => effect s s').
Proof.
  unfold set_warningOverride. msteps.
  destruct (decide (_warningOverride (sources s) = o)); [mstep; apply effect_refl|].
  msteps. destruct o as [b|].
  - msteps. mcall _triggerListeners_spec. intros _ ? (new & -> & _). mstep.
    split; [|split; [split; [done|]|apply track_refl]].
    + intros [He _]. split; [exact He|]. by intros ? [= ->].
    + intros [Hm [He _]]. by split.
  - mcall _updateMessages_spec. intros _ ? (new & -> & _).
    split; [|split; [split; [done|apply composer_ok_only_warning]|apply track_refl]].
    intros [Heo _]. split; [|done]. exact Heo.
Qed.

Lemma set_customMessages_effect ms s :
  returns (set_customMessages ms) s (fun _ s' => effect s s').
Proof.
  unfold set_customMessages. msteps.
  mcall _updateMessages_spec. intros _ ? (new & -> & _). by apply effect_recomputed.
Qed.

Lemma clearValidated_effect s : returns clearValidated s (fun _ s' => effect s s').
Proof.
  unfold clearValidated. msteps.
  destruct (_ && _); [mstep; apply effect_refl|]. msteps.
  mcall _updateMessages_spec. intros _ ? (new & -> & _). by apply effect_recomputed.
Qed.

Lemma clear_effect s : returns clear s (fun _ s' => effect s s').
Proof.
  unfold clear. msteps.
  mcall _updateMessages_spec. intros _ ? (new & -> & _). by apply effect_recomputed.
Qed.

Lemma reset_effect s : returns reset s (fun _ s' => effect s s').
Proof.
  unfold reset. msteps.
  match goal with |- returns _ ?st _ => set (s1 := st) end.
  assert (E1 : effect s s1) by by apply effect_same.
  mcall clear_effect. intros ? s2 E2. cbv beta in E2.
  do 3 (msteps; mquiet _triggerListeners_quiet). msteps.
  effect_chain.
Qed.

Lemma set_required_effect r s : returns (set_required r) s (fun _ s' => effect s s').
Proof.
  unfold set_required. msteps.
  destruct (match r, _validation (settings s) with
            | ReqBool false, None => true
            | _, _ => false
            end); [mstep; apply effect_refl|].
  msteps. destruct (strict_equal_required _ r).
  { mstep. by apply effect_same. }
  msteps. cbn [sources with_settings].
  destruct (_requiredMessage (sources s)).
  - msteps. mcall _updateMessages_spec. intros _ ? (new & -> & _).
    by apply effect_recomputed.
  - mstep. by apply effect_same.
Qed.

Lemma set_validation_effect v s : returns (set_validation v) s (fun _ s' => effect s s').
Proof.
  unfold set_validation. msteps.
  match goal with |- returns _ ?st _ => set (s1 := st) end.
  assert (E1 : effect s s1) by by apply effect_same.
  mcall clearValidated_effect. intros ? s2 E2. cbv beta in E2. effect_chain.
Qed.

Lemma addListener_effect p l s : returns (addListener p l) s (fun _ s' => effect s s').
Proof.
  unfold addListener, set_listeners. msteps.
  destruct (_listeners s p); mstep; by apply effect_same.
Qed.

Lemma removeListener_effect p l s :
  returns (removeListener p l) s (fun _ s' => effect s s').
Proof.
  unfold removeListener, set_listeners. msteps.
  destruct (_listeners s p) as [|l0|ls].
  - mstep. apply effect_refl.
  - destruct (decide (l0 = l)); msteps; by apply effect_same.
  - destruct (_ && _); msteps; by apply effect_same.
Qed.

(** Every step of a run returns normally and keeps the invariants. *)
Lemma run_effect op s : returns (run op) s (fun _ s' => effect s s').
Proof.
  destruct op; cbn [run].
  - apply set_value_effect.
  - apply touch_effect.
  - apply set_touched_effect.
  - apply set_changed_effect.
  - apply set_errorOverride_effect.
  - apply set_warningOverride_effect.
  - apply set_customMessages_effect.
  - apply clearValidated_effect.
  - apply clear_effect.
  - apply reset_effect.
  - apply set_required_effect.
  - apply set_validation_effect.
  - unfold validate. mquiet _validate_quiet. by mstep.
  - apply addListener_effect.
  - mcall removeListener_effect. intros ? s' E. by mstep.
  - mstep. by apply effect_same.
  - mstep. by apply effect_same.
  - mstep. by apply effect_same.
  - mstep. by apply effect_same.
  - eapply returns_mono; [apply settle_quiet|]. by intros _ ? [_ ?].
  - eapply returns_mono; [apply finish_quiet|]. by intros _ ? [_ ?].
Qed.

Lemma reachable_run_all ops s : reachable s -> reachable (run_all ops s).
Proof.
  revert s. induction ops as [|op ops IH]; intros s H; [done|].
  cbn [run_all]. apply IH. by constructor.
Qed.

Lemma new_FieldCtrl_composer_ok p d : composer_ok (new_FieldCtrl p d).
Proof. by repeat split. Qed.

Lemma new_FieldCtrl_overrides_ok p d : overrides_ok (new_FieldCtrl p d).
Proof. by split. Qed.

(** In every reachable state a set override pins its flag; as long as no
    check has been asynchronous, the composer invariants hold. *)
Lemma reachable_invariants s :
  reachable s -> overrides_ok s /\ (never_async s -> composer_ok s).
Proof.
  induction 1 as [p d|s op Hr [Ho Hc]].
  - split; [apply new_FieldCtrl_overrides_ok|]. intros _. apply new_FieldCtrl_composer_ok.
  - destruct (returns_state_after _ _ _ (run_effect op s)) as [_ (Ho' & Hc' & _)].
    split; [auto|]. intros Hn. destruct (Hc' Hn) as [Hn0 Hi]. auto.
Qed.

(** Every step of a run returns normally: nothing is thrown at the caller. *)
Lemma run_returns op s : exists s', run op s = Normal tt s'.
Proof.
  destruct (returns_inv _ _ _ (run_effect op s)) as ([] & s' & E & _). eauto.
Qed.

(** ** Value and counters *)

Lemma quiet_counters s s' : quiet s s' -> counters_of s' = counters_of s.
Proof. unfold counters_of. intros (_ & _ & -> & -> & -> & _). done. Qed.

Lemma _triggerListeners_steady p prev s :
  returns (_triggerListeners p prev) s (fun _ s' => counters_of s' = counters_of s).
Proof.
  eapply returns_mono; [apply _triggerListeners_quiet|].
  intros ? ? [H _]. by apply quiet_counters.
Qed.

Lemma _validate_steady eventType skip s :
  returns (_validate eventType skip) s (fun _ s' => counters_of s' = counters_of s).
Proof.
  eapply returns_mono; [apply _validate_quiet|].
  intros ? ? [H _]. by apply quiet_counters.
Qed.

Lemma _updateMessages_steady only skip s :
  returns (_updateMessages only skip) s (fun _ s' => counters_of s' = counters_of s).
Proof.
  eapply returns_mono; [apply _updateMessages_spec|]. by intros ? ? (new & -> & _).
Qed.

Ltac steady_call :=
  first [ mcall _validate_steady
        | mcall _triggerListeners_steady
        | mcall _updateMessages_steady ];
  let H := fresh "Hst" in intros ? ? H; cbv beta in H.

Ltac steady_done :=
  repeat match goal with
         | H : counters_of _ = _ |- _ => rewrite H; clear H
         end;
  try reflexivity.

Ltac steady := repeat (msteps; steady_call); msteps; steady_done.

Lemma clearValidated_steady s :
  returns clearValidated s (fun _ s' => counters_of s' = counters_of s).
Proof. unfold clearValidated. msteps. destruct (_ && _); steady. Qed.

Lemma clear_steady s : returns clear s (fun _ s' => counters_of s' = counters_of s).
Proof. unfold clear. steady. Qed.

Lemma run_counters op s :
  returns (run op) s (fun _ s' => counters_of s' = expected_counters op s).
Proof.
  destruct op; cbn [run expected_counters].
  - unfold set_value. steady.
  - unfold touch_. steady.
  - unfold set_touched. steady.
  - unfold set_changed. steady.
  - unfold set_errorOverride. msteps. destruct (decide _); [by mstep|].
    msteps. destruct o; steady.
  - unfold set_warningOverride. msteps. destruct (decide _); [by mstep|].
    msteps. destruct o; steady.
  - unfold set_customMessages. steady.
  - apply clearValidated_steady.
  - apply clear_steady.
  - unfold reset. msteps. mcall clear_steady. intros ? ? Hst. cbv beta in Hst. steady.
  - unfold set_required. msteps.
    destruct (match r, _validation (settings s) with
              | ReqBool false, None => true
              | _, _ => false
              end); [by mstep|].
    msteps. destruct (strict_equal_required _ r); [by mstep|].
    msteps. cbn [sources with_settings].
    destruct (_requiredMessage (sources s)); steady.
  - unfold set_validation. msteps. mcall clearValidated_steady.
    intros ? ? Hst. cbv beta in Hst. steady.
  - unfold validate. steady.
  - unfold addListener, set_listeners. msteps. destruct (_listeners s p); by mstep.
  - unfold removeListener, set_listeners. msteps.
    destruct (_listeners s p) as [|l0|ls]; [by msteps| |].
    + destruct (decide (l0 = l)); by msteps.
    + destruct (_ && _); by msteps.
  - by mstep.
  - by mstep.
  - by mstep.
  - by mstep.
  - eapply returns_mono; [apply settle_quiet|].
    intros ? ? [H _]. by apply quiet_counters.
  - eapply returns_mono; [apply finish_quiet|].
    intros ? ? [H _]. by apply quiet_counters.
Qed.

(** After an operation that recomputes the messages the composer
    invariants hold, whatever the state was. *)
Lemma run_recomputes op s :
  recomputes op = true -> returns (run op) s (fun _ s' => composer_ok s').
Proof.
  destruct op; try discriminate; intros _; cbn [run].
  - unfold set_customMessages. msteps.
    mcall _updateMessages_spec. intros _ ? (new & -> & _). apply composer_ok_recomputed.
  - unfold clear. msteps.
    mcall _updateMessages_spec. intros _ ? (new & -> & _). apply composer_ok_recomputed.
  - unfold reset, clear. msteps.
    mcall _updateMessages_spec. intros ? ? (new & -> & _).
    do 3 (msteps; mcall _triggerListeners_spec; intros ? ? (? & -> & _)). msteps.
    rewrite !log_more_app. apply composer_ok_recomputed.
Qed.

(** * The claims *)

(** ** C1: the flags follow the overrides or the messages *)

(** C1, as stated, fails: while a [validate()] with an asynchronous check is
    pending, the message of the synchronous rule is in the sources but not
    in [messages]; unsetting [errorOverride] then derives [error = true]
    from the sources although no message in [messages] has kind error. *)
Lemma C1_counterexample :
  reachable pending_validation_rederived /\
  _errorOverride (sources pending_validation_rederived) = None /\
  _error (params pending_validation_rederived) = true /\
  has_type error (messages_list pending_validation_rederived) = false.
Proof.
  split; [|by vm_compute].
  unfold pending_validation_rederived, pending_validation.
  do 2 apply reachable_run_all. constructor.
Qed.

(** C1 (amended): in every reachable state a flag whose override is a
    boolean equals the override; in every state reached without any check
    having returned a promise, a flag whose override is unset is true
    exactly when some message of [messages] has its kind; and whatever has
    happened before, both hold again after [customMessages = ms], [clear()]
    and [reset()]. *)
Theorem C1_flags_follow_override_or_messages s :
  reachable s ->
  (forall b, _errorOverride (sources s) = Some b -> _error (params s) = b) /\
  (forall b, _warningOverride (sources s) = Some b -> _warning (params s) = b) /\
  (never_async s ->
   (_errorOverride (sources s) = None ->
    _error (params s) = has_type error (messages_list s)) /\
   (_warningOverride (sources s) = None ->
    _warning (params s) = has_type warning (messages_list s))) /\
  (forall op, recomputes op = true ->
   returns (run op) s (fun _ s' =>
     _error (params s') =
       default (has_type error (messages_list s')) (_errorOverride (sources s')) /\
     _warning (params s') =
       default (has_type warning (messages_list s')) (_warningOverride (sources s')))).
Proof.
  intros Hr. destruct (reachable_invariants s Hr) as [[Hoe How] Hc].
  split; [exact Hoe|]. split; [exact How|]. split.
  - intros Hn. destruct (Hc Hn) as [_ [He Hw]].
    split; intros E; [rewrite He|rewrite Hw]; by rewrite E.
  - intros op Hop. eapply returns_mono; [by apply run_recomputes|].
    intros _ s' [_ Hf]. exact Hf.
Qed.

Lemma C1_witness :
  reachable overridden_required /\
  _error (params overridden_required) = false /\
  _warning (params overridden_required) =
    has_type warning (messages_list overridden_required) /\
  returns (run Clear) overridden_required (fun _ s' =>
    _error (params s') =
      default (has_type error (messages_list s')) (_errorOverride (sources s')) /\
    _warning (params s') =
      default (has_type warning (messages_list s')) (_warningOverride (sources s'))).
Proof.
  assert (H : reachable overridden_required).
  { unfold overridden_required. apply reachable_run_all. constructor. }
  destruct (C1_flags_follow_override_or_messages _ H) as (He & _ & Hn & Hop).
  split; [exact H|]. split; [apply He; reflexivity|].
  split; [apply Hn; reflexivity|]. apply Hop. reflexivity.
Defined.

(** ** C2: [messages] is the composition of the three sources *)

(** C2, as stated, fails: right after [validate()] has returned a promise,
    the failing synchronous rule has its message in the rule sources while
    [messages] is still [null]. *)
Lemma C2_counterexample :
  reachable pending_validation /\
  _requiredMessage (sources pending_validation) = None /\
  rules_items pending_validation = [Some {| message := Some "S"; type := Some error |}] /\
  _customMessages (sources pending_validation) = None /\
  _messages (params pending_validation) = None.
Proof.
  split; [|by vm_compute].
  unfold pending_validation. apply reachable_run_all. constructor.
Qed.

(** C2 (amended): in every state reached without any check having returned
    a promise, [messages] lists the required message if there is one, then
    the rule messages in index order without the empty slots, then the
    custom messages in their order; and it is [null] when that list is
    empty, in particular when all three sources are absent or empty.
    Whatever has happened before, this holds again after
    [customMessages = ms], [clear()] and [reset()]. *)
Theorem C2_messages_composed s :
  reachable s ->
  (never_async s ->
   messages_list s =
     option_list (_requiredMessage (sources s)) ++
     omap id (rules_items s) ++
     default [] (_customMessages (sources s)) /\
   (option_list (_requiredMessage (sources s)) ++
    omap id (rules_items s) ++
    default [] (_customMessages (sources s)) = [] ->
    _messages (params s) = None) /\
   (_requiredMessage (sources s) = None ->
    rules_items s = [] ->
    default [] (_customMessages (sources s)) = [] ->
    _messages (params s) = None)) /\
  (forall op, recomputes op = true ->
   returns (run op) s (fun _ s' =>
     messages_list s' =
       option_list (_requiredMessage (sources s')) ++
       omap id (rules_items s') ++
       default [] (_customMessages (sources s')) /\
     (option_list (_requiredMessage (sources s')) ++
      omap id (rules_items s') ++
      default [] (_customMessages (sources s')) = [] ->
      _messages (params s') = None))).
Proof.
  intros Hr. split.
  - intros Hn. destruct (reachable_invariants s Hr) as [_ Hc].
    destruct (Hc Hn) as [[Hm Hnone] _]. split; [exact Hm|]. split; [exact Hnone|].
    intros E1 E2 E3. apply Hnone. unfold composed. by rewrite E1, E2, E3.
  - intros op Hop. eapply returns_mono; [by apply run_recomputes|].
    intros _ s' [Hm _]. exact Hm.
Qed.

Lemma C2_witness :
  reachable overridden_required /\
  messages_list overridden_required =
    option_list (_requiredMessage (sources overridden_required)) ++
    omap id (rules_items overridden_required) ++
    default [] (_customMessages (sources overridden_required)) /\
  returns (run (SetCustomMessages None)) overridden_required (fun _ s' =>
    messages_list s' =
      option_list (_requiredMessage (sources s')) ++
      omap id (rules_items s') ++
      default [] (_customMessages (sources s')) /\
    (option_list (_requiredMessage (sources s')) ++
     omap id (rules_items s') ++
     default [] (_customMessages (sources s')) = [] ->
     _messages (params s') = None)).
Proof.
  assert (H : reachable overridden_required).
  { unfold overridden_required. apply reachable_run_all. constructor. }
  destruct (C2_messages_composed _ H) as [Hn Hop].
  split; [exact H|]. split; [apply Hn; reflexivity|]. apply Hop. reflexivity.
Defined.

(** ** C3: [changed >= touched] *)

(** C3, as stated, fails: the [touched] setter stores any number. *)
Lemma C3_counterexample :
  reachable (run_all [SetTouched 1] (new_FieldCtrl None VUndefined)) /\
  ~ (_changed (params (run_all [SetTouched 1] (new_FieldCtrl None VUndefined))) >=
     _touched (params (run_all [SetTouched 1] (new_FieldCtrl None VUndefined)))).
Proof.
  split; [apply reachable_run_all; constructor|]. vm_compute. intros H. by apply H.
Qed.

(** Below [2^53] an increment is exact; [2^53 + 1] is not a number and is
    stored as [2^53]. *)
Lemma to_number_exact z : Z.abs z <= 2 ^ 53 -> to_number z = z.
Proof.
  intros Hz. destruct (Z.eq_dec (Z.abs z) (2 ^ 53)) as [E|Hne].
  - assert (Hc : z = 2 ^ 53 \/ z = - 2 ^ 53) by lia.
    destruct Hc as [-> | ->]; reflexivity.
  - unfold to_number.
    assert (Hl : Z.log2 (Z.abs z) < 53).
    { destruct (Z.eq_dec (Z.abs z) 0) as [->|H0]; [reflexivity|].
      apply Z.log2_lt_pow2; lia. }
    cbv zeta. by rewrite (proj2 (Z.leb_le _ _)) by lia.
Qed.

Lemma number_incr_exact c : - 2 ^ 53 <= c < 2 ^ 53 -> number_incr c = c + 1.
Proof. intros Hc. unfold number_incr. apply to_number_exact. lia. Qed.

Lemma number_incr_limit : number_incr (2 ^ 53) = 2 ^ 53.
Proof. reflexivity. Qed.

Lemma number_incr_counts c : 0 <= c <= 2 ^ 53 -> number_incr c = Z.min (c + 1) (2 ^ 53).
Proof.
  intros Hc. destruct (Z.eq_dec c (2 ^ 53)) as [->|Hne]; [reflexivity|].
  rewrite number_incr_exact by lia. lia.
Qed.

(** Beyond [2^53] the integers that are numbers are [2] apart, beyond
    [2^54] they are [4] apart, and so on; an integer half way between two
    of them goes to the one whose last bit is [0].  A sum beyond the
    largest number is an infinity. *)
Example to_number_rounds :
  to_number (2 ^ 53 + 1) = 2 ^ 53 /\ to_number (2 ^ 53 + 2) = 2 ^ 53 + 2 /\
  to_number (2 ^ 53 + 3) = 2 ^ 53 + 4 /\ to_number (2 ^ 54 + 1) = 2 ^ 54 /\
  to_number (2 ^ 54 + 2) = 2 ^ 54 /\ to_number (2 ^ 54 + 3) = 2 ^ 54 + 4 /\
  to_number (2 ^ 54 + 6) = 2 ^ 54 + 8 /\ to_number (- (2 ^ 53 + 1)) = - 2 ^ 53 /\
  number_incr (2 ^ 53 + 2) = 2 ^ 53 + 4 /\ number_incr (- 2 ^ 53 - 2) = - 2 ^ 53 /\
  number_add (Num max_number) 1 = Num max_number /\
  number_add (Num max_number) (2 ^ 970) = Infinity false /\
  number_add (Num max_number) max_number = Infinity false /\
  number_add (Num (- max_number)) (- max_number) = Infinity true /\
  number_add (Infinity false) (- max_number) = Infinity false.
Proof. by vm_compute. Qed.

(** Counters that are only incremented and reset count from [0] up to
    [2^53], where they stay. *)
Lemma run_keeps_order op s :
  counter_setter op = false ->
  0 <= _touched (params s) <= _changed (params s) /\ _changed (params s) <= 2 ^ 53 ->
  0 <= _touched (params (state_after (run op s))) <=
    _changed (params (state_after (run op s))) /\
  _changed (params (state_after (run op s))) <= 2 ^ 53.
Proof.
  intros Hop Hs.
  destruct (returns_state_after _ _ _ (run_counters op s)) as [_ H].
  revert H. generalize (state_after (run op s)) as s'. intros s' H.
  unfold counters_of in H.
  destruct op; try discriminate Hop; cbn [expected_counters] in H;
    unfold counters_of in H; injection H as _ -> ->;
    rewrite ?number_incr_counts by lia; lia.
Qed.

(** C3 (amended): along every sequence of operations from construction that
    does not assign to [touched] or [changed] directly, [changed >= touched]
    holds after each operation. *)
Theorem C3_changed_at_least_touched p d ops :
  forallb (fun op => negb (counter_setter op)) ops = true ->
  forall n,
    _changed (params (run_all (take n ops) (new_FieldCtrl p d))) >=
    _touched (params (run_all (take n ops) (new_FieldCtrl p d))).
Proof.
  intros Hops n.
  assert (Hn : forallb (fun op => negb (counter_setter op)) (take n ops) = true).
  { rewrite forallb_forall in *. intros op Hop. apply Hops.
    rewrite <- list_elem_of_In in *. by apply (subseteq_take n ops). }
  clear Hops. revert Hn.
  assert (H0 : 0 <= _touched (params (new_FieldCtrl p d)) <=
                 _changed (params (new_FieldCtrl p d)) /\
               _changed (params (new_FieldCtrl p d)) <= 2 ^ 53) by (cbn; lia).
  revert H0. generalize (new_FieldCtrl p d) as s.
  induction (take n ops) as [|op l IH]; intros s Hs Hl; [cbn [run_all]; lia|].
  cbn in Hl. apply andb_true_iff in Hl as [Hop Hl].
  cbn [run_all]. apply IH; [|done].
  apply run_keeps_order; [|done]. by destruct (counter_setter op).
Qed.

Lemma C3_witness :
  forallb (fun op => negb (counter_setter op))
    [SetValue (VNum 5); Touch (VNum 7); Reset; Touch VNull] = true /\
  forall n,
    _changed (params (run_all (take n [SetValue (VNum 5); Touch (VNum 7); Reset; Touch VNull])
                        (new_FieldCtrl None (VNum 2)))) >=
    _touched (params (run_all (take n [SetValue (VNum 5); Touch (VNum 7); Reset; Touch VNull])
                        (new_FieldCtrl None (VNum 2)))).
Proof.
  split; [reflexivity|].
  apply (C3_changed_at_least_touched None (VNum 2)). reflexivity.
Defined.

(** ** C7: every value assignment counts as one change *)

Lemma set_value_counters v s :
  exists s', set_value v s = Normal tt s' /\
             _value (params s') = v /\
             _touched (params s') = _touched (params s) /\
             _changed (params s') = number_incr (_changed (params s)).
Proof.
  destruct (returns_inv _ _ _ (run_counters (SetValue v) s)) as ([] & s' & E & H).
  exists s'. split; [exact E|]. cbn in H. unfold counters_of in H.
  by injection H as -> -> ->.
Qed.

Lemma set_values_counters vs : forall s,
  _touched (params (run_all (map SetValue vs) s)) = _touched (params s) /\
  _value (params (run_all (map SetValue vs) s)) = default (_value (params s)) (last vs) /\
  (- 2 ^ 53 <= _changed (params s) ->
   _changed (params s) + Z.of_nat (length vs) <= 2 ^ 53 ->
   _changed (params (run_all (map SetValue vs) s)) =
     _changed (params s) + Z.of_nat (length vs)).
Proof.
  induction vs as [|v vs IH]; intros s.
  - cbn. split; [done|]. split; [done|]. lia.
  - cbn [map run_all run length].
    destruct (set_value_counters v s) as (s' & E & Hv & Ht & Hc).
    rewrite E. cbn [state_after].
    destruct (IH s') as (Ht' & Hv' & Hc'). rewrite Ht', Hv', Ht, Hv.
    split; [done|]. split; [rewrite last_cons; by destruct (last vs)|].
    intros Hlo Hhi. rewrite number_incr_exact in Hc by lia.
    rewrite Hc', Hc; lia.
Qed.

(** C7, as stated, fails: a counter that has been assigned [2^53] is not
    incremented by an assignment to [value], since [2^53 + 1] is not a
    number. *)
Lemma C7_counterexample :
  reachable at_the_limit /\
  _changed (params at_the_limit) = 2 ^ 53 /\
  _changed (params (run_all [SetValue (VNum 1)] at_the_limit)) =
    _changed (params at_the_limit) /\
  _changed (params (run_all [SetValue (VNum 1)] at_the_limit)) <>
    _changed (params at_the_limit) + 1.
Proof.
  split; [apply reachable_run_all; constructor|].
  split; [reflexivity|]. split; [reflexivity|]. by vm_compute.
Qed.

(** C7 (amended): each assignment [value = v], whether or not [v] is the
    current value, returns normally, makes [value] the assigned value,
    leaves [touched] alone and applies [++] to [changed]: that adds exactly
    one as long as [changed] is an integer from [-2^53] to [2^53 - 1].  So
    a sequence of [n] assignments ends with the last value, leaves
    [touched] alone and adds [n] to a [changed] that stays within these
    bounds. *)
Theorem C7_value_assignment_counts :
  (forall v s, exists s',
      set_value v s = Normal tt s' /\
      _value (params s') = v /\
      _touched (params s') = _touched (params s) /\
      _changed (params s') = number_incr (_changed (params s)) /\
      (- 2 ^ 53 <= _changed (params s) < 2 ^ 53 ->
       _changed (params s') = _changed (params s) + 1)) /\
  (forall vs s,
      _touched (params (run_all (map SetValue vs) s)) = _touched (params s) /\
      _value (params (run_all (map SetValue vs) s)) =
        default (_value (params s)) (last vs) /\
      (- 2 ^ 53 <= _changed (params s) ->
       _changed (params s) + Z.of_nat (length vs) <= 2 ^ 53 ->
       _changed (params (run_all (map SetValue vs) s)) =
         _changed (params s) + Z.of_nat (length vs))).
Proof.
  split; [|apply set_values_counters].
  intros v s. destruct (set_value_counters v s) as (s' & E & Hv & Ht & Hc).
  exists s'. split; [exact E|]. split; [exact Hv|]. split; [exact Ht|].
  split; [exact Hc|]. intros Hb. rewrite Hc. by apply number_incr_exact.
Qed.

Lemma C7_witness :
  - 2 ^ 53 <= _changed (params (new_FieldCtrl None (VNum 2))) /\
  _changed (params (new_FieldCtrl None (VNum 2))) +
    Z.of_nat (length [VNum 5; VNum 5; VNull]) <= 2 ^ 53 /\
  _changed (params (run_all (map SetValue [VNum 5; VNum 5; VNull])
                      (new_FieldCtrl None (VNum 2)))) =
    _changed (params (new_FieldCtrl None (VNum 2))) +
      Z.of_nat (length [VNum 5; VNum 5; VNull]).
Proof.
  assert (H1 : - 2 ^ 53 <= _changed (params (new_FieldCtrl None (VNum 2))))
    by (vm_compute; discriminate).
  assert (H2 : _changed (params (new_FieldCtrl None (VNum 2))) +
               Z.of_nat (length [VNum 5; VNum 5; VNull]) <= 2 ^ 53)
    by (vm_compute; discriminate).
  split; [exact H1|]. split; [exact H2|].
  exact (proj2 (proj2 (proj2 C7_value_assignment_counts
                         [VNum 5; VNum 5; VNull] (new_FieldCtrl None (VNum 2)))) H1 H2).
Defined.

(** ** C9: [clearValidated] with nothing validated *)

(** C9: when both the required message and the rule messages are [null],
    [clearValidated()] returns at once: the field, the log of listener calls
    included, is what it was. *)
Theorem C9_clearValidated_noop s :
  _requiredMessage (sources s) = None ->
  _rulesMessages (sources s) = None ->
  clearValidated s = Normal tt s.
Proof.
  intros E1 E2. unfold clearValidated, bind, this_sources, gets. by rewrite E1, E2.
Qed.

Lemma C9_witness :
  _requiredMessage (sources (new_FieldCtrl None (VNum 2))) = None /\
  _rulesMessages (sources (new_FieldCtrl None (VNum 2))) = None /\
  clearValidated (new_FieldCtrl None (VNum 2)) = Normal tt (new_FieldCtrl None (VNum 2)).
Proof.
  split; [reflexivity|]. split; [reflexivity|].
  apply (C9_clearValidated_noop (new_FieldCtrl None (VNum 2))); reflexivity.
Defined.

(** ** C10: assigning an override the value it holds *)

Lemma set_errorOverride_same s :
  set_errorOverride (_errorOverride (sources s)) s = Normal tt s.
Proof.
  unfold set_errorOverride, bind, this_sources, gets, ret.
  by rewrite decide_True.
Qed.

Lemma set_warningOverride_same s :
  set_warningOverride (_warningOverride (sources s)) s = Normal tt s.
Proof.
  unfold set_warningOverride, bind, this_sources, gets, ret.
  by rewrite decide_True.
Qed.

Lemma set_errorOverride_stores o s :
  returns (set_errorOverride o) s (fun _ s' => _errorOverride (sources s') = o).
Proof.
  unfold set_errorOverride. msteps.
  destruct (decide (_errorOverride (sources s) = o)); [by mstep|].
  msteps. destruct o as [b|].
  - msteps. mcall _triggerListeners_spec. intros _ ? (new & -> & _). by mstep.
  - mcall _updateMessages_spec. by intros _ ? (new & -> & _).
Qed.

Lemma set_warningOverride_stores o s :
  returns (set_warningOverride o) s (fun _ s' => _warningOverride (sources s') = o).
Proof.
  unfold set_warningOverride. msteps.
  destruct (decide (_warningOverride (sources s) = o)); [by mstep|].
  msteps. destruct o as [b|].
  - msteps. mcall _triggerListeners_spec. intros _ ? (new & -> & _). by mstep.
  - mcall _updateMessages_spec. by intros _ ? (new & -> & _).
Qed.

(** C10: assigning [errorOverride] (resp. [warningOverride]) the value it
    already holds, a boolean or [null], returns with the field exactly as it
    was: no flag, no message, no listener call; and assigning the same value
    twice in a row is the same as assigning it once. *)
Theorem C10_same_override_is_noop :
  (forall s, set_errorOverride (_errorOverride (sources s)) s = Normal tt s) /\
  (forall s, set_warningOverride (_warningOverride (sources s)) s = Normal tt s) /\
  (forall o s, (set_errorOverride o ;;; set_errorOverride o) s = set_errorOverride o s) /\
  (forall o s,
     (set_warningOverride o ;;; set_warningOverride o) s = set_warningOverride o s).
Proof.
  split; [apply set_errorOverride_same|]. split; [apply set_warningOverride_same|].
  split; intros o s.
  - destruct (returns_inv _ _ _ (set_errorOverride_stores o s)) as ([] & s' & E & H).
    unfold bind at 1. rewrite E. rewrite <- H. apply set_errorOverride_same.
  - destruct (returns_inv _ _ _ (set_warningOverride_stores o s)) as ([] & s' & E & H).
    unfold bind at 1. rewrite E. rewrite <- H. apply set_warningOverride_same.
Qed.

(** ** C6: what the override setters touch *)

Lemma set_errorOverride_pins b s :
  overrides_ok s ->
  returns (set_errorOverride (Some b)) s (fun _ s' =>
    _error (params s') = b /\
    _warning (params s') = _warning (params s) /\
    _messages (params s') = _messages (params s) /\
    message_sources s' = message_sources s /\
    only_notifies error_ s s').
Proof.
  intros [Ho _]. unfold set_errorOverride. msteps.
  destruct (decide (_errorOverride (sources s) = Some b)) as [E|E].
  { mstep. split; [by apply Ho|]. do 3 (split; [done|]).
    exists []. by rewrite app_nil_r. }
  msteps. mcall _triggerListeners_spec. intros _ ? (new & -> & Hnew). mstep.
  do 4 (split; [done|]). by exists new.
Qed.

Lemma set_warningOverride_pins b s :
  overrides_ok s ->
  returns (set_warningOverride (Some b)) s (fun _ s' =>
    _warning (params s') = b /\
    _error (params s') = _error (params s) /\
    _messages (params s') = _messages (params s) /\
    message_sources s' = message_sources s /\
    only_notifies warning_ s s').
Proof.
  intros [_ Ho]. unfold set_warningOverride. msteps.
  destruct (decide (_warningOverride (sources s) = Some b)) as [E|E].
  { mstep. split; [by apply Ho|]. do 3 (split; [done|]).
    exists []. by rewrite app_nil_r. }
  msteps. mcall _triggerListeners_spec. intros _ ? (new & -> & Hnew). mstep.
  do 4 (split; [done|]). by exists new.
Qed.

Lemma set_errorOverride_unsets s :
  returns (set_errorOverride None) s (fun _ s' =>
    _warning (params s') = _warning (params s) /\
    _messages (params s') = _messages (params s) /\
    message_sources s' = message_sources s /\
    (_errorOverride (sources s) <> None ->
     _error (params s') = has_type error (composed s))).
Proof.
  unfold set_errorOverride. msteps.
  destruct (decide (_errorOverride (sources s) = None)) as [E|E]; [by mstep|].
  msteps. mcall _updateMessages_spec. intros _ ? (new & -> & _).
  match goal with |- context [recomputed _ ?st] => set (s1 := st) end.
  destruct (recomputed_only_error s1) as (He & Hw & Hm).
  split; [exact Hw|]. split; [exact Hm|]. split; [done|]. intros _. exact He.
Qed.

Lemma set_warningOverride_unsets s :
  returns (set_warningOverride None) s (fun _ s' =>
    _error (params s') = _error (params s) /\
    _messages (params s') = _messages (params s) /\
    message_sources s' = message_sources s /\
    (_warningOverride (sources s) <> None ->
     _warning (params s') = has_type warning (composed s))).
Proof.
  unfold set_warningOverride. msteps.
  destruct (decide (_warningOverride (sources s) = None)) as [E|E]; [by mstep|].
  msteps. mcall _updateMessages_spec. intros _ ? (new & -> & _).
  match goal with |- context [recomputed _ ?st] => set (s1 := st) end.
  destruct (recomputed_only_warning s1) as (Hw & He & Hm).
  split; [exact He|]. split; [exact Hm|]. split; [done|]. intros _. exact Hw.
Qed.

(** C6, as stated, fails for an override that is unset already: the setter
    returns at once and derives nothing.  While a [validate()] with an
    asynchronous check is pending, the sources hold an error message that
    [error] does not reflect yet, and [errorOverride = null] leaves it so. *)
Lemma C6_counterexample :
  reachable pending_validation /\
  _errorOverride (sources pending_validation) = None /\
  set_errorOverride None pending_validation = Normal tt pending_validation /\
  _error (params pending_validation) = false /\
  has_type error (composed pending_validation) = true.
Proof.
  split; [|by vm_compute].
  unfold pending_validation. apply reachable_run_all. constructor.
Qed.

(** C6 (amended): in every reachable state, assigning a boolean to
    [errorOverride] (resp. [warningOverride]) makes that flag the boolean
    and calls only the listeners of that flag, and it leaves [messages], the
    message sources and the other flag alone; assigning [null] leaves the
    other flag, [messages] and the message sources alone, and, when the
    override was a boolean, the flag becomes what the current message
    sources give.  (When the override was unset already nothing happens;
    the flag then is what the sources give as long as no check has returned
    a promise.) *)
Theorem C6_override_setters_frame s :
  reachable s ->
  (forall b, returns (set_errorOverride (Some b)) s (fun _ s' =>
     _error (params s') = b /\
     _warning (params s') = _warning (params s) /\
     _messages (params s') = _messages (params s) /\
     message_sources s' = message_sources s /\
     only_notifies error_ s s')) /\
  (forall b, returns (set_warningOverride (Some b)) s (fun _ s' =>
     _warning (params s') = b /\
     _error (params s') = _error (params s) /\
     _messages (params s') = _messages (params s) /\
     message_sources s' = message_sources s /\
     only_notifies warning_ s s')) /\
  returns (set_errorOverride None) s (fun _ s' =>
     _warning (params s') = _warning (params s) /\
     _messages (params s') = _messages (params s) /\
     message_sources s' = message_sources s /\
     (_errorOverride (sources s) <> None \/ never_async s ->
      _error (params s') = has_type error (composed s))) /\
  returns (set_warningOverride None) s (fun _ s' =>
     _error (params s') = _error (params s) /\
     _messages (params s') = _messages (params s) /\
     message_sources s' = message_sources s /\
     (_warningOverride (sources s) <> None \/ never_async s ->
      _warning (params s') = has_type warning (composed s))).
Proof.
  intros Hr. destruct (reachable_invariants s Hr) as [Ho Hc].
  split; [intros b; by apply set_errorOverride_pins|].
  split; [intros b; by apply set_warningOverride_pins|].
  split.
  - destruct (decide (_errorOverride (sources s) = None)) as [E|E].
    + pose proof (set_errorOverride_same s) as Hs. rewrite E in Hs.
      unfold returns. rewrite Hs.
      do 3 (split; [done|]). intros [H|H]; [done|].
      destruct (Hc H) as [[Hm _] [He _]]. by rewrite He, E, Hm.
    + eapply returns_mono; [apply set_errorOverride_unsets|].
      intros _ s' (Hw & Hm & Hs & He). do 3 (split; [done|]). intros _. by apply He.
  - destruct (decide (_warningOverride (sources s) = None)) as [E|E].
    + pose proof (set_warningOverride_same s) as Hs. rewrite E in Hs.
      unfold returns. rewrite Hs.
      do 3 (split; [done|]). intros [H|H]; [done|].
      destruct (Hc H) as [[Hm _] [_ Hw]]. by rewrite Hw, E, Hm.
    + eapply returns_mono; [apply set_warningOverride_unsets|].
      intros _ s' (He & Hm & Hs & Hw). do 3 (split; [done|]). intros _. by apply Hw.
Qed.

Lemma C6_witness :
  reachable overridden_required /\
  (forall b, returns (set_errorOverride (Some b)) overridden_required (fun _ s' =>
     _error (params s') = b /\
     _warning (params s') = _warning (params overridden_required) /\
     _messages (params s') = _messages (params overridden_required) /\
     message_sources s' = message_sources overridden_required /\
     only_notifies error_ overridden_required s')) /\
  (forall b, returns (set_warningOverride (Some b)) overridden_required (fun _ s' =>
     _warning (params s') = b /\
     _error (params s') = _error (params overridden_required) /\
     _messages (params s') = _messages (params overridden_required) /\
     message_sources s' = message_sources overridden_required /\
     only_notifies warning_ overridden_required s')) /\
  returns (set_errorOverride None) overridden_required (fun _ s' =>
     _warning (params s') = _warning (params overridden_required) /\
     _messages (params s') = _messages (params overridden_required) /\
     message_sources s' = message_sources overridden_required /\
     (_errorOverride (sources overridden_required) <> None \/
      never_async overridden_required ->
      _error (params s') = has_type error (composed overridden_required))) /\
  returns (set_warningOverride None) overridden_required (fun _ s' =>
     _error (params s') = _error (params overridden_required) /\
     _messages (params s') = _messages (params overridden_required) /\
     message_sources s' = message_sources overridden_required /\
     (_warningOverride (sources overridden_required) <> None \/
      never_async overridden_required ->
      _warning (params s') = has_type warning (composed overridden_required))).
Proof.
  assert (H : reachable overridden_required).
  { unfold overridden_required. apply reachable_run_all. constructor. }
  split; [exact H|]. exact (C6_override_setters_frame _ H).
Defined.

(** ** C5: which checks a call of [validate] runs *)

(** C5, as stated, fails twice.  On a field whose parent entity sets
    [validateOn: 'change'], a rule without a trigger is resolved to
    ['change'], not ['demand']: [validate('demand')] skips it and returns
    [true] although its check fails.  And with [holdValidation = true],
    [validate()] runs no rule at all. *)
Lemma C5_counterexample :
  (shouldValidate (Some demand) (holdValidation (settings child_field))
     (claimed_validateOn (with_rules [failing_rule "E"]) (failing_rule "E")) = true /\
   validateRule (with_rules [failing_rule "E"]) (Some demand)
     (holdValidation (settings child_field)) 0 (failing_rule "E") (IdxRule 0)
     loc0 child_field = Normal loc0 child_field /\
   match validate (Some demand) child_field with
   | Normal (Now b) _ => b = true
   | _ => False
   end) /\
  (shouldValidate None (holdValidation (settings held_field))
     (claimed_validateOn (with_rules [failing_rule "E"]) (failing_rule "E")) = true /\
   validate None held_field = Normal (Now true) held_field).
Proof. by vm_compute. Qed.

Lemma shouldValidate_true eventType hold on :
  shouldValidate eventType hold on = true <->
  match eventType with
  | Some e => on = e \/ (e = touch /\ on = change)
  | None => match hold with
            | HoldList l => on ∉ l
            | HoldBool _ => True
            end
  end.
Proof.
  unfold shouldValidate, includes. destruct eventType as [e|].
  - rewrite orb_true_iff, andb_true_iff, !bool_decide_eq_true. done.
  - destruct hold as [b|l]; [done|].
    rewrite negb_true_iff, bool_decide_eq_false. done.
Qed.

(** C5 (amended): a call of [validate] that has a configuration and is not
    held as a whole ([holdValidation] is neither [true] nor a list with the
    given event) passes every rule, the required check included, to
    [validateRule]; and [validateRule] runs the rule, adding exactly one
    result, if and only if the resolved trigger (the rule's own
    [validateOn], else the one of the configuration, else the one of the
    parent entity's options, else ['demand']) equals the given event, or the
    event is ['touch'] and the trigger ['change'], or, without an event, the
    trigger is not listed in a list-valued [holdValidation]; otherwise it
    does nothing.  A call without configuration, or held as a whole, runs
    nothing and returns [true]. *)
Theorem C5_rule_runs_on_its_trigger :
  (forall validation eventType hold arr rule index loc s,
     let on :=
       match validateOn rule with
       | Some e => e
       | None =>
           match fv_validateOn validation with
           | Some e => e
           | None =>
               match o ← (e ← parent (settings s); validationOptions e);
                     opt_validateOn o with
               | Some e => e
               | None => demand
               end
           end
       end in
     let runs :=
       match eventType with
       | Some e => on = e \/ (e = touch /\ on = change)
       | None => match hold with
                 | HoldList l => on ∉ l
                 | HoldBool _ => True
                 end
       end in
     returns (validateRule validation eventType hold arr rule index loc) s
       (fun loc' s' =>
          (runs /\ length (results loc') = S (length (results loc))) \/
          (~ runs /\ loc' = loc /\ s' = s))) /\
  (forall eventType skip s,
     _validation (settings s) = None \/ held eventType s = true ->
     _validate eventType skip s = Normal (Now true) s) /\
  (forall eventType skip s validation,
     _validation (settings s) = Some validation -> held eventType s = false ->
     returns (_validate eventType skip) s (fun r s' =>
       exists loc,
         map eventual (results loc) = outcomes validation eventType s /\
         match r with
         | Now b => b = everyTruthy (map eventual (results loc))
         | Later j => exists job, promises (runtime s') !! j = Some job /\
                                  job_items job = results loc
         end)).
Proof.
  split; [|split].
  - intros validation eventType hold arr rule index loc s on runs.
    assert (Hon : on = resolved_validateOn validation rule s).
    { unfold on, resolved_validateOn.
      by destruct (validateOn rule), (fv_validateOn validation). }
    eapply returns_mono; [apply validateRule_cases|]. intros loc' s' H.
    cbv beta in H. rewrite <- Hon in H.
    destruct (shouldValidate eventType hold on) eqn:Es.
    + left. split; [by apply shouldValidate_true|].
      destruct (check_result rule (view s)) as [passed|p].
      * destruct H as (update & _ & ->). cbn. rewrite length_app. cbn. lia.
      * destruct H as [_ ->]. cbn. rewrite length_app. cbn. lia.
    + right. destruct H as [-> ->]. split; [|done].
      intros Hr%shouldValidate_true. congruence.
  - intros eventType skip s H.
    pose proof (_validate_spec eventType skip s) as Hv.
    apply returns_inv in Hv as (r & s' & E & Hv). rewrite E.
    destruct (_validation (settings s)) as [validation|].
    + destruct H as [H|H]; [done|]. rewrite H in Hv. by destruct Hv as [-> ->].
    + by destruct Hv as [-> ->].
  - intros eventType skip s validation Ev Eh.
    eapply returns_mono; [apply _validate_spec|]. intros r s' H. cbv beta in H.
    rewrite Ev, Eh in H.
    destruct H as (n & rm0 & loc & s1 & _ & Hstep & H). cbv zeta in Hstep.
    destruct Hstep as ((rq & rm & ->) & _ & _ & He & _). cbn in He.
    exists loc. split; [done|].
    destruct (promisified loc).
    + destruct H as [-> ->]. exists (job_of loc). split; [|done].
      cbn. by rewrite lookup_app_r, Nat.sub_diag.
    + destruct H as [-> _]. by rewrite He.
Qed.

Lemma C5_witness :
  (_validation (settings held_field) = None \/ held None held_field = true) /\
  _validate None false held_field = Normal (Now true) held_field /\
  _validation (settings child_field) = Some (with_rules [failing_rule "E"]) /\
  held (Some change) child_field = false /\
  returns (_validate (Some change) false) child_field (fun r s' =>
    exists loc,
      map eventual (results loc) =
        outcomes (with_rules [failing_rule "E"]) (Some change) child_field /\
      match r with
      | Now b => b = everyTruthy (map eventual (results loc))
      | Later j => exists job, promises (runtime s') !! j = Some job /\
                               job_items job = results loc
      end).
Proof.
  assert (H1 : _validation (settings held_field) = None \/ held None held_field = true)
    by (right; reflexivity).
  assert (H2 : _validation (settings child_field) = Some (with_rules [failing_rule "E"]))
    by reflexivity.
  assert (H3 : held (Some change) child_field = false) by reflexivity.
  split; [exact H1|]. split.
  { exact (proj1 (proj2 C5_rule_runs_on_its_trigger) None false held_field H1). }
  split; [exact H2|]. split; [exact H3|].
  exact (proj2 (proj2 C5_rule_runs_on_its_trigger) (Some change) false child_field _ H2 H3).
Defined.

(** ** Checks that fail to evaluate *)


Lemma everyTruthy_false l : false ∈ l -> everyTruthy l = false.
Proof.
  intros H. unfold everyTruthy. apply not_true_is_false. intros Ht.
  rewrite forallb_forall in Ht. apply list_elem_of_In in H. by apply Ht in H.
Qed.




Lemma run_all_track ops s :
  track (promises (runtime s)) (promises (runtime (run_all ops s))).
Proof.
  revert s. induction ops as [|op ops IH]; intros s; [apply track_refl|].
  cbn [run_all]. eapply track_trans; [|apply IH].
  destruct (returns_state_after _ _ _ (run_effect op s)) as [_ (_ & _ & Ht)]. exact Ht.
Qed.

Lemma validate_overall eventType s validation :
  _validation (settings s) = Some validation -> held eventType s = false ->
  returns (validate eventType) s (fun r s' =>
    match r with
    | Now b => b = everyTruthy (outcomes validation eventType s)
    | Later j =>
        forall ops b,
          promises (runtime (run_all ops s')) !! j ≫= job_value = Some b ->
          b = everyTruthy (outcomes validation eventType s)
    end).
Proof.
  intros Ev Eh. unfold validate.
  eapply returns_mono; [apply _validate_spec|]. intros r s' H. cbv beta in H.
  rewrite Ev, Eh in H.
  destruct H as (n & rm0 & loc & s1 & _ & Hstep & H). cbv zeta in Hstep.
  destruct Hstep as ((rq & rm & ->) & _ & _ & He & _). cbn in He.
  destruct (promisified loc).
  - destruct H as [-> ->]. intros ops b Hb.
    assert (Hj : promises (runtime (add_job (job_of loc)
                   (with_validated rq rm
                      (with_next_array n
                         (with_validated (_requiredMessage (sources s)) (Some rm0) s)))))
                 !! length (promises (runtime s)) = Some (job_of loc)).
    { cbn. by rewrite lookup_app_r, Nat.sub_diag. }
    destruct (run_all_track ops _ _ _ Hj) as (job' & Ej & Hev & _ & Hv).
    rewrite Ej in Hb. cbn in Hb, Hev, Hv. rewrite He in Hv.
    unfold everyTruthy in *. destruct Hv as [Hv|[_ Hv]]; congruence.
  - by destruct H as [-> _].
Qed.

(** ** C8: the copy [get validation()] returns *)

(** C8 fails on the code: [_cloneValidation] copies the configuration
    object and every rule of [rules], but not the rule object of
    [required].  The object returned for a configuration
    [{ required: <rule> }] is new (object 2), its [required] is the field's
    own rule object (object 0); after [v.required.message = 'x'] the field
    reads a configuration whose required message is ['x'], and the next
    [validate()] stores that message instead of ['m']. *)
Theorem C8_required_object_is_shared :
  Aliasing.returned.1 = Some 2%nat /\
  (c ← Aliasing.objs Aliasing.returned.2 !! 2%nat;
   match c with
   | Aliasing.ObjConfig c => Aliasing.h_required c
   | _ => None
   end) = Some (Aliasing.HRule 0) /\
  (c ← Aliasing.objs Aliasing.store0 !! 1%nat;
   match c with
   | Aliasing.ObjConfig c => Aliasing.h_required c
   | _ => None
   end) = Some (Aliasing.HRule 0) /\
  Aliasing.required_message_after_validate Aliasing.store0 =
    Some {| message := Some "m"; type := Some error |} /\
  Aliasing.required_message_after_validate Aliasing.returned.2 =
    Some {| message := Some "m"; type := Some error |} /\
  Aliasing.required_message_after_validate Aliasing.store_mutated =
    Some {| message := Some "x"; type := Some error |}.
Proof. by vm_compute. Qed.

Module AliasingFacts.
Import Aliasing.

Lemma copy_rules_old n copyRules items h l :
  (l < n)%nat -> (n <= next h)%nat -> (n <= copyRules)%nat ->
  objs (copy_rules copyRules items h) !! l = objs h !! l.
Proof.
  intros Hl. revert h. induction items as [|rule items IH]; intros h Hn Hc; [done|].
  cbn [copy_rules]. destruct (objs h !! rule) as [o|]; [|by apply IH].
  cbn [alloc]. set (h1 := {| objs := _; next := S (next h) |}).
  assert (H1 : objs h1 !! l = objs h !! l).
  { cbn. apply lookup_insert_ne. lia. }
  destruct (objs h1 !! copyRules) as [[]|].
  2: { rewrite IH; [|cbn; lia|done]. cbn. rewrite lookup_insert_ne by lia. exact H1. }
  all: rewrite IH; [exact H1|cbn; lia|done].
Qed.

(** Cloning leaves every object that existed alone. *)
Lemma clone_old v h l :
  (l < next h)%nat -> objs (_cloneValidation v h).2 !! l = objs h !! l.
Proof.
  intros Hl. unfold _cloneValidation. destruct v as [v|]; [|done].
  destruct (objs h !! v) as [[| |c]|]; try done.
  cbn [alloc]. set (h1 := {| objs := _; next := S (next h) |}).
  assert (H1 : objs h1 !! l = objs h !! l).
  { cbn. apply lookup_insert_ne. lia. }
  destruct (h_rules c) as [a|]; [|exact H1].
  destruct (objs h1 !! a) as [[|items|]|]; try exact H1.
  cbn. rewrite lookup_insert_ne by lia.
  rewrite (copy_rules_old (next h)); [|done|cbn; lia|cbn; lia].
  cbn. rewrite lookup_insert_ne by lia. exact H1.
Qed.

Lemma read_rule_agree h h' l r :
  (forall l, is_Some (objs h !! l) -> objs h' !! l = objs h !! l) ->
  read_rule h l = Some r -> read_rule h' l = Some r.
Proof.
  intros Hag. unfold read_rule. destruct (objs h !! l) as [o|] eqn:E; [|done].
  by rewrite Hag, E.
Qed.

(** What the field reads depends on the objects it refers to only. *)
Lemma read_validation_agree h h' v c :
  (forall l, is_Some (objs h !! l) -> objs h' !! l = objs h !! l) ->
  read_validation h v = Some c -> read_validation h' v = Some c.
Proof.
  intros Hag. unfold read_validation.
  destruct (objs h !! v) as [[| |cfg]|] eqn:Ev; try done.
  rewrite Hag, Ev by done.
  assert (Hrules : forall x,
    match h_rules cfg with
    | Some a => Some <$> read_rules h a
    | None => Some None
    end = Some x ->
    match h_rules cfg with
    | Some a => Some <$> read_rules h' a
    | None => Some None
    end = Some x).
  { destruct (h_rules cfg) as [a|]; [|done]. unfold read_rules.
    destruct (objs h !! a) as [[|items|]|] eqn:Ea; try done.
    rewrite Hag, Ea by done. intros x Hx.
    destruct (mapM (read_rule h) items) as [rs|] eqn:Em; [|done].
    apply mapM_Some in Em.
    assert (mapM (read_rule h') items = Some rs) as ->; [|done].
    apply mapM_Some. eapply Forall2_impl; [exact Em|].
    intros ? ?. by apply read_rule_agree. }
  assert (Hreq : forall x,
    match h_required cfg with
    | Some r => Some <$> read_required h r
    | None => Some None
    end = Some x ->
    match h_required cfg with
    | Some r => Some <$> read_required h' r
    | None => Some None
    end = Some x).
  { destruct (h_required cfg) as [[b|t|l]|]; try done. cbn.
    destruct (read_rule h l) as [r|] eqn:Er; [|done].
    by rewrite (read_rule_agree _ _ _ _ Hag Er). }
  destruct (match h_rules cfg with
            | Some a => Some <$> read_rules h a
            | None => Some None
            end) as [x|]; [|done].
  rewrite (Hrules x eq_refl). cbn.
  destruct (match h_required cfg with
            | Some r => Some <$> read_required h r
            | None => Some None
            end) as [y|]; [|done].
  by rewrite (Hreq y eq_refl).
Qed.

(** The part of C8 that holds: what the field reads is the same after
    [get validation()], and it stays the same under any assignment to an
    object the getter has created (the copy of the configuration, its new
    [rules] array, the copies of the rules). *)
Lemma objects_created_by_the_getter_are_private h v c l o :
  bounded h ->
  read_validation h v = Some c ->
  read_validation (get_validation (Some v) h).2 v = Some c /\
  ((next h <= l)%nat ->
   read_validation (write l o (get_validation (Some v) h).2) v = Some c).
Proof.
  intros Hb Hr. split.
  - eapply read_validation_agree; [|exact Hr].
    intros l0 Hl0. apply clone_old. by apply Hb.
  - intros Hl. eapply read_validation_agree; [|exact Hr].
    intros l0 Hl0. apply Hb in Hl0 as Hlt. unfold write. cbn [objs].
    rewrite lookup_insert_ne by lia. by apply clone_old.
Qed.

End AliasingFacts.

(** A check that throws, run: [validate()] returns [false] and the message
    of the rule, with the rule's own type, is the field's only message. *)
Example throwing_check_fails :
  match validate None throwing_field with
  | Normal r s' =>
      r = Now false /\
      messages_list s' = [{| message := Some "T"; type := Some warning |}] /\
      _warning (params s') = true /\ _error (params s') = false
  | Thrown _ => False
  end.
Proof. by vm_compute. Qed.

(** ** A remark on asynchronous checks *)

(** [_validate] picks [processBools] from the value [needUpdate] has when
    the synchronous part ends.  When only asynchronous checks change a
    slot, the flag is still [false] then: the promise resolves to [false],
    the message is in the rule sources, but [messages] and [error] are never
    recomputed. *)
Example async_only_failure_is_not_composed :
  map job_value (promises (runtime async_failure)) = [Some false] /\
  rules_items async_failure = [Some {| message := Some "A"; type := Some error |}] /\
  _messages (params async_failure) = None /\
  _error (params async_failure) = false.
Proof. by vm_compute. Qed.

(** * Further properties of the field controller *)

(** ** Listener registration: [addListener], [removeListener] *)

Lemma addListener_spec p l s :
  returns (addListener p l) s (fun _ s' =>
    registered (_listeners s' p) = set_add l (registered (_listeners s p)) /\
    l ∈ registered (_listeners s' p) /\
    (forall q, q <> p -> _listeners s' q = _listeners s q) /\
    settings s' = settings s /\ params s' = params s /\
    sources s' = sources s /\ runtime s' = runtime s).
Proof.
  assert (Hin : forall set, l ∈ set_add l set).
  { intros set. unfold set_add, includes. case_bool_decide; [done|].
    apply elem_of_app. right. apply list_elem_of_here. }
  unfold addListener, set_listeners. msteps.
  destruct (_listeners s p) as [|l0|ls] eqn:El; mstep; cbn;
    rewrite decide_True by done; cbn [registered].
  - split; [done|]. split; [apply list_elem_of_here|].
    split; [|done]. intros q Hq. by rewrite decide_False.
  - split; [done|]. split; [apply Hin|].
    split; [|done]. intros q Hq. by rewrite decide_False.
  - split; [done|]. split; [apply Hin|].
    split; [|done]. intros q Hq. by rewrite decide_False.
Qed.

Lemma removeListener_spec p l s :
  returns (removeListener p l) s (fun r s' =>
    r = includes l (registered (_listeners s p)) /\
    registered (_listeners s' p) = set_delete l (registered (_listeners s p)) /\
    (l ∉ registered (_listeners s' p)) /\
    (forall q, q <> p -> _listeners s' q = _listeners s q) /\
    settings s' = settings s /\ params s' = params s /\
    sources s' = sources s /\ runtime s' = runtime s).
Proof.
  assert (Hout : forall set, l ∉ set_delete l set).
  { intros set. unfold set_delete. rewrite list_elem_of_filter. by intros [? _]. }
  unfold removeListener, set_listeners. msteps.
  destruct (_listeners s p) as [|l0|ls] eqn:El.
  - mstep. rewrite El. cbn. split; [done|]. split; [done|].
    split; [apply not_elem_of_nil|]. done.
  - destruct (decide (l0 = l)) as [->|Hne].
    + msteps. cbn. rewrite decide_True by done. cbn.
      split; [unfold includes; by rewrite bool_decide_true by apply list_elem_of_here|].
      unfold set_delete. cbn. rewrite decide_False by (by intros H; apply H).
      split; [done|]. split; [apply not_elem_of_nil|].
      split; [|done]. intros q Hq. by rewrite decide_False.
    + mstep. rewrite El. cbn.
      split.
      { unfold includes. rewrite bool_decide_false; [done|].
        intros H. apply list_elem_of_singleton in H. congruence. }
      unfold set_delete. cbn. rewrite decide_True by done.
      split; [done|]. split; [|done].
      intros H. apply list_elem_of_singleton in H. congruence.
  - cbn [registered].
    destruct (includes l ls && bool_decide (length (set_delete l ls) < 2)%nat) eqn:E.
    + msteps. cbn. rewrite decide_True by done.
      apply andb_true_iff in E as [_ E]. apply bool_decide_eq_true in E.
      split; [done|].
      assert (Hreg : registered match set_delete l ls with
                                | [] => NoListeners
                                | l' :: _ => OneListener l'
                                end = set_delete l ls).
      { destruct (set_delete l ls) as [|a [|b t]]; cbn in *; [done|done|lia]. }
      rewrite Hreg. split; [done|]. split; [apply Hout|].
      split; [|done]. intros q Hq. by rewrite decide_False.
    + msteps. cbn. rewrite decide_True by done. cbn.
      split; [done|]. split; [done|]. split; [apply Hout|].
      split; [|done]. intros q Hq. by rewrite decide_False.
Qed.

(** ** Listener dispatch: [_triggerListeners] *)

Lemma dispatch_log_more p prev new s :
  dispatch p prev (log_more new s) = dispatch p prev s.
Proof. unfold dispatch, param_changed, listeners_held. by destruct p as [[]|]. Qed.

Lemma param_changed_log_more p prev new s :
  param_changed p prev (log_more new s) = param_changed p prev s.
Proof. unfold param_changed. by destruct p as [[]|]. Qed.

Lemma _triggerListeners_run p prev s :
  _triggerListeners p prev s =
  Normal (param_changed p prev s) (log_more (dispatch p prev s) s).
Proof.
  unfold _triggerListeners, dispatch, param_changed, listeners_held.
  unfold bind at 1.
  assert (Hsame : (match p with
                   | param q => cur <- gets (current q);; ret (Object_is cur prev)
                   | any => ret false
                   end) s =
                  Normal (match p with
                          | param q => Object_is (current q s) prev
                          | any => false
                          end) s) by by destruct p.
  rewrite Hsame. clear Hsame.
  destruct (match p with
            | param q => Object_is (current q s) prev
            | any => false
            end) eqn:Es.
  { destruct p as [q|]; [|done]. rewrite Es. cbn. by rewrite log_more_nil. }
  assert (Hc : match p with
               | param q => negb (Object_is (current q s) prev)
               | any => true
               end = true) by (destruct p; [by rewrite Es|done]).
  rewrite Hc. cbn [andb].
  unfold this_settings. unfold bind, gets, ret. cbv beta zeta.
  destruct (_listeners s p) as [|l|ls] eqn:El; cbn [registered map].
  - destruct (negb _); by rewrite log_more_nil.
  - destruct (match holdListeners (settings s) with
              | HoldBool b => b
              | HoldList l0 => match p with param q => includes q l0 | any => false end
              end); cbn [negb]; [by rewrite log_more_nil|done].
  - destruct (match holdListeners (settings s) with
              | HoldBool b => b
              | HoldList l0 => match p with param q => includes q l0 | any => false end
              end); cbn [negb]; [by rewrite log_more_nil|].
    by rewrite for_each_call_listener.
Qed.

(** ** The calls of the message composer *)

Lemma _updateMessages_silent only s :
  _updateMessages only true s = Normal tt (recomputed only s).
Proof.
  destruct (returns_inv _ _ _ (_updateMessages_spec only true s))
    as ([] & s' & E & new & -> & Hnew & _).
  rewrite E, Hnew by done. by rewrite log_more_nil.
Qed.

(** The last part of [_updateMessages]. *)
Lemma _updateMessages_then_calls only skip s :
  _updateMessages only skip s =
  match _updateMessages only true s with
  | Normal _ s1 =>
      when (negb skip)
        (errorChanged <- _triggerListeners (param error_) (PBool (_error (params s))) ;;
         warningChanged <- _triggerListeners (param warning_) (PBool (_warning (params s))) ;;
         messagesChanged <- _triggerListeners (param messages)
                              (PMessages (_messages (params s))) ;;
         when (errorChanged || warningChanged || messagesChanged)
           (_triggerListeners any PUndefined ;;; ret tt)) s1
  | Thrown s1 => Thrown s1
  end.
Proof.
  unfold _updateMessages, this_params, this_sources.
  unfold bind at 1 2 3 4 5 6 7 8 9 10 11 12 13 14.
  unfold bind at 5 6 7 8 9 10 11 12 13 14 15 16 17 18.
  unfold gets. cbv beta.
  destruct (when (not_only only) (assign_messages None) s) as [[] s1|s1]; [|done].
  destruct (when (only_not onlyWarning only) _ s1) as [[] s2|s2]; [|done].
  destruct (when (only_not onlyError only) _ s2) as [[] s3|s3]; [|done].
  destruct (match _requiredMessage (sources s) with
            | Some m => _
            | None => ret tt
            end s3) as [[] s4|s4]; [|done].
  destruct (match _rulesMessages (sources s) with
            | Some a => _
            | None => ret tt
            end s4) as [[] s5|s5]; [|done].
  destruct (match _customMessages (sources s) with
            | Some l => _
            | None => ret tt
            end s5) as [[] s6|s6]; [|done].
  done.
Qed.

(** [_updateMessages] recomputes the flags and the messages, then notifies
    the listeners of [error], [warning] and [messages] whose parameter has
    changed, and ['any'] if one of them has. *)
Lemma _updateMessages_calls only skip s :
  _updateMessages only skip s =
  Normal tt
    (log_more (composer_calls skip (_error (params s)) (_warning (params s))
                 (_messages (params s)) (recomputed only s))
       (recomputed only s)).
Proof.
  rewrite _updateMessages_then_calls, _updateMessages_silent.
  unfold composer_calls. destruct skip; cbn [negb when].
  { by rewrite log_more_nil. }
  unfold bind. rewrite !_triggerListeners_run.
  rewrite !dispatch_log_more, !param_changed_log_more, !log_more_app.
  destruct (param_changed (param error_) _ _ || param_changed (param warning_) _ _ ||
            param_changed (param messages) _ _); cbn [when].
  - unfold bind. rewrite _triggerListeners_run.
    rewrite !dispatch_log_more, !log_more_app. unfold ret.
    by rewrite <- ?app_assoc.
  - unfold ret. by rewrite app_nil_r, <- ?app_assoc.
Qed.

(** ** Who is called *)

Lemma calls_refl s : calls s s.
Proof. split; [done|]. exists []. by rewrite app_nil_r. Qed.

Lemma calls_trans s1 s2 s3 : calls s1 s2 -> calls s2 s3 -> calls s1 s3.
Proof.
  intros [[Hl1 Hh1] (n1 & E1 & F1)] [[Hl2 Hh2] (n2 & E2 & F2)]. split.
  - split; congruence.
  - exists (n1 ++ n2). split; [by rewrite E2, E1, app_assoc|].
    apply Forall_app. split; [done|].
    eapply Forall_impl; [exact F2|]. intros n [Hin Hheld].
    unfold allowed_call, listeners_held in *. by rewrite <- Hl1, <- Hh1.
Qed.

(** A step that leaves registration, the hold and the log alone. *)
Lemma calls_same s s' :
  _listeners s' = _listeners s ->
  holdListeners (settings s') = holdListeners (settings s) ->
  notifications (runtime s') = notifications (runtime s) ->
  calls s s'.
Proof. intros Hl Hh Hn. split; [done|]. exists []. by rewrite app_nil_r. Qed.

Lemma dispatch_allowed p prev s s0 :
  _listeners s = _listeners s0 ->
  holdListeners (settings s) = holdListeners (settings s0) ->
  Forall (allowed_call s0) (dispatch p prev s).
Proof.
  intros Hl Hh. unfold dispatch.
  destruct (param_changed p prev s); cbn [andb]; [|done].
  destruct (listeners_held p s) eqn:E; cbn [negb]; [done|].
  apply Forall_forall. intros n Hn. apply list_elem_of_fmap in Hn as (l & -> & Hin).
  unfold allowed_call, listeners_held in *. cbn. by rewrite <- Hl, <- Hh.
Qed.

Lemma _triggerListeners_calls p prev s :
  returns (_triggerListeners p prev) s (fun _ s' => calls s s').
Proof.
  unfold returns. rewrite _triggerListeners_run. split; [done|].
  eexists. split; [done|]. by apply dispatch_allowed.
Qed.

Lemma composer_calls_allowed skip e w m s s0 :
  _listeners s = _listeners s0 ->
  holdListeners (settings s) = holdListeners (settings s0) ->
  Forall (allowed_call s0) (composer_calls skip e w m s).
Proof.
  intros Hl Hh. unfold composer_calls. destruct skip; [done|].
  rewrite !Forall_app. repeat split; try by apply dispatch_allowed.
  destruct (_ || _); [by apply dispatch_allowed|done].
Qed.

Lemma _updateMessages_calls_allowed only skip s :
  returns (_updateMessages only skip) s (fun _ s' => calls s s').
Proof.
  unfold returns. rewrite _updateMessages_calls. split; [done|].
  eexists. split; [done|]. by apply composer_calls_allowed.
Qed.

Lemma bind_run {A B} (m : M A) (k : A -> M B) s :
  bind m k s = match m s with Normal a s' => k a s' | Thrown s' => Thrown s' end.
Proof. done. Qed.

Lemma gets_run {A} (f : FieldCtrl -> A) s : gets f s = Normal (f s) s.
Proof. done. Qed.

Lemma ret_run {A} (a : A) s : ret a s = Normal a s.
Proof. done. Qed.

(** Run the method at the head of both sides of an equation. *)
Ltac brun :=
  cbv beta iota; rewrite ?bind_run, ?gets_run, ?ret_run; cbv beta iota.

(** The checks of [_validate] touch the validated sources only. *)
Lemma required_check_form validation eventType hold arr s :
  returns (if required_truthy (required validation) then
             match required validation with
             | Some r =>
                 rule <- requiredRule validation r ;;
                 validateRule validation eventType hold arr rule IdxRequired
                   {| promisified := false; needUpdate := false; results := [] |}
             | None => ret {| promisified := false; needUpdate := false; results := [] |}
             end
           else ret {| promisified := false; needUpdate := false; results := [] |}) s
    (fun _ s' => exists rq rm, s' = with_validated rq rm s).
Proof.
  assert (Hid : exists rq rm, s = with_validated rq rm s).
  { exists (_requiredMessage (sources s)), (_rulesMessages (sources s)).
    by rewrite with_validated_id. }
  destruct (required_truthy (required validation)); [|by mstep].
  destruct (required validation) as [r|]; [|by mstep].
  mcall requiredRule_spec. intros rule ? [-> ->].
  eapply returns_mono; [apply validateRule_spec|]. by intros loc1 s1 [H _].
Qed.

Lemma rules_check_form validation eventType hold arr loc s :
  returns (match rules validation with
           | Some rs => validateRules validation eventType hold arr rs 0 loc
           | None => ret loc
           end) s
    (fun _ s' => exists rq rm, s' = with_validated rq rm s).
Proof.
  destruct (rules validation) as [rs|].
  - eapply returns_mono; [apply validateRules_spec|]. by intros loc1 s1 [H _].
  - mstep. exists (_requiredMessage (sources s)), (_rulesMessages (sources s)).
    by rewrite with_validated_id.
Qed.

(** [_validate(eventType, skipSyncListeners)] is [_validate(eventType, true)]
    followed by the calls of the composer, if it has run. *)
Lemma _validate_then_calls eventType skip s :
  exists new,
    _validate eventType skip s =
    match _validate eventType true s with
    | Normal r s' => Normal r (log_more new s')
    | Thrown s' => Thrown s'
    end /\
    (skip = true -> new = []) /\
    match _validate eventType true s with
    | Normal r s' =>
        new = [] \/
        new = composer_calls skip (_error (params s)) (_warning (params s))
                (_messages (params s)) s'
    | Thrown s' => True
    end.
Proof.
  assert (Hnil : forall c : Completion Outcome,
    c = match c with
        | Normal r s' => Normal r (log_more [] s')
        | Thrown s' => Thrown s'
        end).
  { intros [r s'|s']; [|done]. by rewrite log_more_nil. }
  assert (Hsame : forall c : Completion Outcome,
    exists new,
      c = match c with
          | Normal r s' => Normal r (log_more new s')
          | Thrown s' => Thrown s'
          end /\
      (skip = true -> new = []) /\
      match c with
      | Normal r s' =>
          new = [] \/
          new = composer_calls skip (_error (params s)) (_warning (params s))
                  (_messages (params s)) s'
      | Thrown s' => True
      end).
  { intros c. exists []. split; [apply Hnil|]. split; [done|].
    destruct c; [by left|done]. }
  unfold _validate, this_settings, this_sources.
  repeat repeat brun.
  destruct (_validation (settings s)) as [validation|]; [|apply Hsame].
  repeat repeat brun.
  destruct (match holdValidation (settings s) with
            | HoldBool b => b
            | HoldList l => match eventType with Some e => includes e l | None => false end
            end); [apply Hsame|].
  repeat repeat brun.
  destruct (match _rulesMessages (sources s) with
            | Some a => ret a
            | None => a <- new_array;; assign_rulesMessages (Some a);;; ret a
            end s) as [rm0 s0|s0] eqn:E0; [|by exists []].
  assert (H0 : params s0 = params s).
  { destruct (_rulesMessages (sources s)); injection E0 as _ <-; done. }
  repeat repeat brun.
  pose proof (required_check_form validation eventType (holdValidation (settings s))
                (arr_id rm0) s0) as H1.
  unfold returns in H1.
  match type of H1 with
  | match ?c with Normal _ _ => _ | Thrown _ => _ end =>
      destruct c as [loc1 s1|s1]; [|done]
  end.
  destruct H1 as (rq1 & rm1 & ->).
  repeat repeat brun.
  pose proof (rules_check_form validation eventType (holdValidation (settings s))
                (arr_id rm0) loc1 (with_validated rq1 rm1 s0)) as H2.
  unfold returns in H2.
  match type of H2 with
  | match ?c with Normal _ _ => _ | Thrown _ => _ end =>
      destruct c as [loc2 s2|s2]; [|done]
  end.
  destruct H2 as (rq2 & rm2 & ->).
  destruct (promisified loc2); [apply Hsame|].
  repeat repeat brun.
  destruct (needUpdate loc2); cbn [when]; [|apply Hsame].
  rewrite !_updateMessages_calls. repeat brun.
  cbn [composer_calls]. rewrite log_more_nil.
  eexists. split; [reflexivity|]. split.
  - by intros ->.
  - right. cbn [with_validated with_sources params]. by rewrite H0.
Qed.

(** With [skipSyncListeners], [_validate] calls no listener. *)
Lemma _validate_silent eventType s :
  returns (_validate eventType true) s (fun _ s' =>
    notifications (runtime s') = notifications (runtime s) /\ quiet s s').
Proof.
  eapply returns_mono;
    [exact (returns_conj _ _ _ _ (_validate_spec eventType true s)
              (_validate_quiet eventType true s))|].
  intros r s' [H [Hq _]]. split; [|exact Hq]. cbv beta in H.
  destruct (_validation (settings s)) as [validation|]; [|by destruct H as [_ ->]].
  destruct (held eventType s); [by destruct H as [_ ->]|].
  destruct H as (n & rm0 & loc & s1 & _ & Hstep & H). cbv zeta in Hstep.
  destruct Hstep as ((rq & rm & ->) & _).
  destruct (promisified loc); [by destruct H as [_ ->]|].
  destruct H as [_ H]. destruct (needUpdate loc).
  - destruct H as (new & -> & Hnew & _). rewrite Hnew by done. cbn.
    by rewrite app_nil_r.
  - by destruct H as [-> _].
Qed.

Lemma _validate_calls eventType skip s :
  returns (_validate eventType skip) s (fun _ s' => calls s s').
Proof.
  destruct (_validate_then_calls eventType skip s) as (new & E & _ & Hnew).
  pose proof (_validate_silent eventType s) as Hs.
  unfold returns in *. rewrite E.
  destruct (_validate eventType true s) as [r s1|s1]; [|done].
  destruct Hs as [Hlog (Hset & Hl & _)].
  split; [split; [done|by rewrite <- Hset]|].
  exists new. split; [cbn; by rewrite Hlog|].
  destruct Hnew as [->| ->]; [done|].
  apply composer_calls_allowed; [done|by rewrite Hset].
Qed.

Lemma settle_calls j k s : returns (settle j k) s (fun _ s' => calls s s').
Proof.
  unfold settle. mstep. mstep. cbv beta.
  destruct (promises (runtime s) !! j) as [job|]; [|mstep; apply calls_refl].
  destruct (job_items job !! k) as [[b|rule index arr p]|];
    [mstep; apply calls_refl| |mstep; apply calls_refl].
  mcall processPassed_spec. intros r s1 (_ & (rq & rm & ->) & _).
  unfold put_job. mstep. by apply calls_same.
Qed.

Lemma finish_calls j s : returns (finish j) s (fun _ s' => calls s s').
Proof.
  unfold finish. mstep. mstep. cbv beta.
  destruct (promises (runtime s) !! j) as [job|]; [|mstep; apply calls_refl].
  destruct (_ && _); [|mstep; apply calls_refl].
  unfold put_job. destruct (job_update job); cbn [when].
  - mcall _updateMessages_calls_allowed. intros ? s1 H1. cbv beta in H1. mstep.
    eapply calls_trans; [exact H1|]. by apply calls_same.
  - msteps. by apply calls_same.
Qed.

Ltac mcalls H :=
  mcall H; let c := fresh "Hc" in intros ? ? c; cbv beta in c.

(** Chain the calls collected along a method body. *)
Ltac calls_chain :=
  repeat match goal with
         | H : calls ?a ?b |- calls ?a _ =>
             apply (calls_trans a b); [exact H|]; clear H
         end;
  try apply calls_refl.

Lemma clearValidated_calls s : returns clearValidated s (fun _ s' => calls s s').
Proof.
  unfold clearValidated. msteps. destruct (_ && _); [mstep; apply calls_refl|].
  msteps.
  match goal with |- returns _ ?st _ => assert (E1 : calls s st) by by apply calls_same end.
  mcalls _updateMessages_calls_allowed. calls_chain.
Qed.

Lemma clear_calls s : returns clear s (fun _ s' => calls s s').
Proof.
  unfold clear. msteps.
  match goal with |- returns _ ?st _ => assert (E1 : calls s st) by by apply calls_same end.
  mcalls _updateMessages_calls_allowed. calls_chain.
Qed.

Lemma run_calls op s :
  wiring_op op = false -> returns (run op) s (fun _ s' => calls s s').
Proof.
  destruct op; try discriminate; intros _; cbn [run].
  - unfold set_value. msteps.
    match goal with |- returns _ ?st _ => assert (E1 : calls s st) by by apply calls_same end.
    mcalls _validate_calls.
    do 6 (msteps; mcalls _triggerListeners_calls). msteps. calls_chain.
  - unfold touch_. msteps.
    match goal with |- returns _ ?st _ => assert (E1 : calls s st) by by apply calls_same end.
    mcalls _validate_calls.
    do 7 (msteps; mcalls _triggerListeners_calls). msteps. calls_chain.
  - unfold set_touched. msteps.
    match goal with |- returns _ ?st _ => assert (E1 : calls s st) by by apply calls_same end.
    mcalls _triggerListeners_calls. msteps. calls_chain.
  - unfold set_changed. msteps.
    match goal with |- returns _ ?st _ => assert (E1 : calls s st) by by apply calls_same end.
    mcalls _triggerListeners_calls. msteps. calls_chain.
  - unfold set_errorOverride. msteps.
    destruct (decide _); [mstep; apply calls_refl|]. msteps.
    match goal with |- returns _ ?st _ => assert (E1 : calls s st) by by apply calls_same end.
    destruct o as [b|].
    + msteps.
      match goal with |- returns _ ?st _ => assert (E2 : calls s st) by by apply calls_same end.
      clear E1. mcalls _triggerListeners_calls. msteps. calls_chain.
    + mcalls _updateMessages_calls_allowed. calls_chain.
  - unfold set_warningOverride. msteps.
    destruct (decide _); [mstep; apply calls_refl|]. msteps.
    match goal with |- returns _ ?st _ => assert (E1 : calls s st) by by apply calls_same end.
    destruct o as [b|].
    + msteps.
      match goal with |- returns _ ?st _ => assert (E2 : calls s st) by by apply calls_same end.
      clear E1. mcalls _triggerListeners_calls. msteps. calls_chain.
    + mcalls _updateMessages_calls_allowed. calls_chain.
  - unfold set_customMessages. msteps.
    match goal with |- returns _ ?st _ => assert (E1 : calls s st) by by apply calls_same end.
    mcalls _updateMessages_calls_allowed. calls_chain.
  - apply clearValidated_calls.
  - apply clear_calls.
  - unfold reset. msteps.
    match goal with |- returns _ ?st _ => assert (E1 : calls s st) by by apply calls_same end.
    mcalls clear_calls.
    do 3 (msteps; mcalls _triggerListeners_calls). msteps. calls_chain.
  - unfold set_required. msteps.
    destruct (match r, _validation (settings s) with
              | ReqBool false, None => true
              | _, _ => false
              end); [mstep; apply calls_refl|].
    msteps. destruct (strict_equal_required _ r); [mstep; by apply calls_same|].
    msteps. cbn [sources with_settings].
    destruct (_requiredMessage (sources s)); [|mstep; by apply calls_same].
    msteps.
    match goal with |- returns _ ?st _ => assert (E1 : calls s st) by by apply calls_same end.
    mcalls _updateMessages_calls_allowed. calls_chain.
  - unfold set_validation. msteps.
    match goal with |- returns _ ?st _ => assert (E1 : calls s st) by by apply calls_same end.
    mcalls clearValidated_calls. calls_chain.
  - unfold validate. mcalls _validate_calls. by mstep.
  - mstep. by apply calls_same.
  - mstep. by apply calls_same.
  - mstep. apply calls_same; [done| |done]. cbn. by destruct (parent (settings s)).
  - apply settle_calls.
  - apply finish_calls.
Qed.

(** ** Results on listeners *)

(** X1.  The three storage forms of a slot ([null], one function, a [Set])
    implement one insertion-ordered set.  [addListener(p, l)] appends [l] to
    the listeners of [p] unless it is registered already, in which case the
    listeners of [p] stay as they are; the listeners of the other parameters
    and the rest of the controller are not touched. *)
Theorem addListener_registers p l s :
  returns (addListener p l) s (fun _ s' =>
    registered (_listeners s' p) =
      (if includes l (registered (_listeners s p))
       then registered (_listeners s p)
       else registered (_listeners s p) ++ [l]) /\
    (forall q, q <> p -> _listeners s' q = _listeners s q) /\
    settings s' = settings s /\ params s' = params s /\
    sources s' = sources s /\ runtime s' = runtime s).
Proof.
  eapply returns_mono; [apply addListener_spec|].
  intros _ s' (Hreg & _ & Hq & H). by rewrite Hreg.
Qed.

(** X2.  [removeListener(p, l)] returns whether [l] was registered for [p];
    afterwards [l] is not registered for [p], and the other listeners of [p]
    keep their order.  Nothing else changes. *)
Theorem removeListener_unregisters p l s :
  returns (removeListener p l) s (fun r s' =>
    r = bool_decide (l ∈ registered (_listeners s p)) /\
    registered (_listeners s' p) =
      filter (fun x => x <> l) (registered (_listeners s p)) /\
    (forall q, q <> p -> _listeners s' q = _listeners s q) /\
    settings s' = settings s /\ params s' = params s /\
    sources s' = sources s /\ runtime s' = runtime s).
Proof.
  eapply returns_mono; [apply removeListener_spec|].
  intros r s' (Hr & Hreg & _ & Hq & H). by rewrite Hr, Hreg.
Qed.

(** X3.  [_triggerListeners(p, prev)] returns whether the parameter differs
    from [prev] by [Object.is] (always [true] for ['any']).  If it does and
    the parameter is not held, every listener registered for [p] is called
    exactly once, in the order of registration, with [p] and [prev];
    otherwise nobody is called.  Nothing but the log of calls changes. *)
Theorem _triggerListeners_dispatch p prev s :
  returns (_triggerListeners p prev) s (fun r s' =>
    r = match p with
        | param q => negb (Object_is (current q s) prev)
        | any => true
        end /\
    s' = log_more
           (if r && negb (listeners_held p s)
            then map (fun l => {| n_listener := l; n_param := p; n_prev := prev |})
                   (registered (_listeners s p))
            else []) s).
Proof. unfold returns. by rewrite _triggerListeners_run. Qed.

Lemma run_log op s :
  returns (run op) s (fun _ s' =>
    exists new,
      notifications (runtime s') = notifications (runtime s) ++ new /\
      Forall (allowed_call s) new /\
      (wiring_op op = false -> same_wiring s s')).
Proof.
  destruct (wiring_op op) eqn:E.
  - assert (Hnil : forall s' : FieldCtrl, runtime s' = runtime s ->
      exists new,
        notifications (runtime s') = notifications (runtime s) ++ new /\
        Forall (allowed_call s) new /\ (true = false -> same_wiring s s')).
    { intros s' ->. exists []. by rewrite app_nil_r. }
    destruct op; try discriminate; cbn [run].
    + eapply returns_mono; [apply addListener_spec|].
      intros _ s' (_ & _ & _ & _ & _ & _ & H). by apply Hnil.
    + mcall removeListener_spec. intros r s' (_ & _ & _ & _ & _ & _ & _ & H).
      mstep. by apply Hnil.
    + mstep. by apply Hnil.
  - eapply returns_mono; [by apply run_calls|].
    intros _ s' [Hw (new & Hlog & Hall)]. by exists new.
Qed.

(** X4.  Whatever happens to a controller -- a call of a public member, an
    assignment, a promise continuation -- the listeners it calls are
    registered for the parameter they are notified of, and that parameter
    is not held ([holdListeners]) when the operation starts.  The log of
    calls only grows, and registration and the hold are changed by
    [addListener], [removeListener] and [holdListeners = h] only. *)
Theorem only_registered_listeners_are_called op s :
  returns (run op) s (fun _ s' =>
    exists new,
      notifications (runtime s') = notifications (runtime s) ++ new /\
      Forall (fun n =>
                n_listener n ∈ registered (_listeners s (n_param n)) /\
                listeners_held (n_param n) s = false) new /\
      (wiring_op op = false ->
       _listeners s' = _listeners s /\
       holdListeners (settings s') = holdListeners (settings s))).
Proof. apply run_log. Qed.

Lemma set_add_NoDup l set : NoDup set -> NoDup (set_add l set).
Proof.
  intros H. unfold set_add, includes. case_bool_decide as Hin; [done|].
  apply NoDup_app. split; [done|]. split; [|apply NoDup_singleton].
  intros x Hx Hx'. apply list_elem_of_singleton in Hx'. by subst.
Qed.

Lemma run_listeners_ok op s :
  listeners_ok s -> listeners_ok (state_after (run op s)).
Proof.
  intros Hok.
  assert (Hsame : forall s', _listeners s' = _listeners s -> listeners_ok s').
  { intros s' E p. rewrite E. apply Hok. }
  destruct (wiring_op op) eqn:E.
  - destruct op; try discriminate; cbn [run].
    + destruct (returns_state_after _ _ _ (addListener_spec p l s))
        as [_ (Hreg & _ & Hq & _)].
      intros q. destruct (decide (q = p)) as [->|Hne].
      * rewrite Hreg. apply set_add_NoDup, Hok.
      * rewrite Hq by done. apply Hok.
    + pose proof (removeListener_spec p l s) as Hs.
      unfold returns in Hs. rewrite bind_run.
      destruct (removeListener p l s) as [r s'|s']; [|done].
      destruct Hs as (_ & Hreg & _ & Hq & _). cbn.
      intros q. destruct (decide (q = p)) as [->|Hne].
      * rewrite Hreg. apply NoDup_filter, Hok.
      * rewrite Hq by done. apply Hok.
    + by apply Hsame.
  - destruct (returns_state_after _ _ _ (run_calls op s E)) as [_ [[Hl _] _]].
    by apply Hsame.
Qed.

(** X5.  In every state a controller can reach, no listener is registered
    twice for one parameter: a notification calls a listener at most once,
    however often it has been added. *)
Theorem listeners_registered_once s p :
  reachable s -> NoDup (registered (_listeners s p)).
Proof.
  intros H. revert p. fold (listeners_ok s).
  induction H as [e d|s op Hr IH]; [intros p; apply NoDup_nil_2|].
  by apply run_listeners_ok.
Qed.

Lemma listeners_registered_once_witness :
  reachable (run_all [AddListener any 7%nat; AddListener any 7%nat]
               (new_FieldCtrl None VUndefined)) /\
  NoDup (registered
           (_listeners (run_all [AddListener any 7%nat; AddListener any 7%nat]
                          (new_FieldCtrl None VUndefined)) any)).
Proof.
  assert (H : reachable (run_all [AddListener any 7%nat; AddListener any 7%nat]
                           (new_FieldCtrl None VUndefined))).
  { apply reachable_run_all, reachable_new. }
  split; [exact H|]. exact (listeners_registered_once _ any H).
Defined.

(** ** Results on [clear], [reset] and [clearValidated] *)

(** X6.  [clear()] empties the three message sources and both overrides;
    [error] and [warning] become [false] and [messages] [null].  The value,
    the counters, the configuration, the default value, the holds and the
    listeners stay. *)
Theorem clear_empties_messages s :
  returns clear s (fun _ s' =>
    sources s' = {| _requiredMessage := None; _rulesMessages := None;
                    _customMessages := None; _errorOverride := None;
                    _warningOverride := None |} /\
    _error (params s') = false /\ _warning (params s') = false /\
    _messages (params s') = None /\
    counters_of s' = counters_of s /\
    settings s' = settings s /\ _listeners s' = _listeners s /\
    promises (runtime s') = promises (runtime s)).
Proof.
  unfold clear. msteps.
  mcall _updateMessages_spec. intros _ ? (new & -> & _). done.
Qed.

(** X7.  [reset()] puts the default value back, zeroes both counters and
    clears as [clear()] does; the configuration, the default value, the
    holds and the listeners stay. *)
Theorem reset_restores_defaults s :
  returns reset s (fun _ s' =>
    params s' = {| _value := defaultValue (settings s); _touched := 0; _changed := 0;
                   _error := false; _warning := false; _messages := None |} /\
    sources s' = {| _requiredMessage := None; _rulesMessages := None;
                    _customMessages := None; _errorOverride := None;
                    _warningOverride := None |} /\
    settings s' = settings s /\ _listeners s' = _listeners s /\
    promises (runtime s') = promises (runtime s)).
Proof.
  unfold reset, clear. msteps.
  mcall _updateMessages_spec. intros ? ? (new & -> & _).
  do 3 (msteps; mcall _triggerListeners_spec; intros ? ? (? & -> & _)). msteps.
  done.
Qed.

Lemma clearValidated_spec s :
  returns clearValidated s (fun _ s' =>
    (_requiredMessage (sources s) = None /\ _rulesMessages (sources s) = None /\ s' = s) \/
    exists new,
      s' = log_more new (recomputed None (with_validated None None s))).
Proof.
  unfold clearValidated. msteps.
  destruct (bool_decide (_requiredMessage (sources s) = None)) eqn:E1;
    [destruct (bool_decide (_rulesMessages (sources s) = None)) eqn:E2|]; cbn [andb].
  - mstep. left. apply bool_decide_eq_true in E1, E2. done.
  - msteps. mcall _updateMessages_spec. intros _ ? (new & -> & _). right. by exists new.
  - msteps. mcall _updateMessages_spec. intros _ ? (new & -> & _). right. by exists new.
Qed.

(** X8.  After [clearValidated()] the results of validation are gone and
    the custom messages are what is left: the required message and the
    rule messages are [null], [messages] lists the custom messages, and the
    flags follow the overrides or else the kinds of the custom messages.
    The custom messages, the overrides, the value and the counters stay.
    (In a state reached without asynchronous checks.) *)
Theorem clearValidated_leaves_custom s :
  reachable s -> never_async s ->
  returns clearValidated s (fun _ s' =>
    _requiredMessage (sources s') = None /\
    _rulesMessages (sources s') = None /\
    _customMessages (sources s') = _customMessages (sources s) /\
    _errorOverride (sources s') = _errorOverride (sources s) /\
    _warningOverride (sources s') = _warningOverride (sources s) /\
    counters_of s' = counters_of s /\
    messages_list s' = default [] (_customMessages (sources s)) /\
    _error (params s') =
      default (has_type error (default [] (_customMessages (sources s))))
        (_errorOverride (sources s)) /\
    _warning (params s') =
      default (has_type warning (default [] (_customMessages (sources s))))
        (_warningOverride (sources s))).
Proof.
  intros Hr Hn. destruct (reachable_invariants s Hr) as [_ Hc].
  specialize (Hc Hn). destruct Hc as [[Hm _] [He Hw]].
  eapply returns_mono; [apply clearValidated_spec|].
  intros _ s' [(E1 & E2 & ->)|(new & ->)].
  - assert (Hcomp : composed s = default [] (_customMessages (sources s))).
    { unfold composed, rules_items. by rewrite E1, E2. }
    rewrite <- Hcomp, <- Hm. done.
  - assert (Hcomp : composed (with_validated None None s) =
                    default [] (_customMessages (sources s))) by done.
    refine (conj _ (conj _ (conj _ (conj _ (conj _ (conj _ (conj _ (conj _ _))))))));
      try done.
    + destruct (recomputed_messages (with_validated None None s)) as [E _].
      by rewrite <- Hcomp, <- E.
    + rewrite <- Hcomp. apply (recomputed_error (with_validated None None s)).
    + rewrite <- Hcomp. apply (recomputed_warning (with_validated None None s)).
Qed.

Lemma clearValidated_leaves_custom_witness :
  let s := run_all [SetRequired (ReqBool true);
                    SetCustomMessages (Some [{| message := Some "c";
                                                type := Some warning |}]);
                    Validate None]
             (new_FieldCtrl None (VNum 0)) in
  reachable s /\ never_async s /\
  returns clearValidated s (fun _ s' =>
    _requiredMessage (sources s') = None /\
    _rulesMessages (sources s') = None /\
    _customMessages (sources s') = _customMessages (sources s) /\
    _errorOverride (sources s') = _errorOverride (sources s) /\
    _warningOverride (sources s') = _warningOverride (sources s) /\
    counters_of s' = counters_of s /\
    messages_list s' = default [] (_customMessages (sources s)) /\
    _error (params s') =
      default (has_type error (default [] (_customMessages (sources s))))
        (_errorOverride (sources s)) /\
    _warning (params s') =
      default (has_type warning (default [] (_customMessages (sources s))))
        (_warningOverride (sources s))).
Proof.
  intros s.
  assert (Hr : reachable s) by apply reachable_run_all, reachable_new.
  assert (Hn : never_async s) by reflexivity.
  split; [exact Hr|]. split; [exact Hn|].
  exact (clearValidated_leaves_custom s Hr Hn).
Defined.

(** ** Results on the configuration: [required] and [validation] *)

Lemma strict_equal_required_refl r : strict_equal_required (Some r) r = true.
Proof. destruct r; cbn; by rewrite bool_decide_true. Qed.

(** X9.  [fc.required = r; fc.required] reads [r] back (a rule object by
    its identity).  The assignment leaves the other entries of the
    configuration, the rule messages, the custom messages, the overrides,
    the value and the counters alone.  [required = false] on a field without
    configuration changes nothing at all; an assignment of the value
    [required] has already keeps the required message; every other
    assignment drops it. *)
Theorem required_assignment_reads_back r s :
  returns (set_required r ;;; get_required) s (fun r' s' =>
    strict_equal_required (Some r') r = true /\
    (_validation (settings s') ≫= rules) = (_validation (settings s) ≫= rules) /\
    (_validation (settings s') ≫= fv_validateOn) =
      (_validation (settings s) ≫= fv_validateOn) /\
    (_validation (settings s') ≫= fv_requiredValidate) =
      (_validation (settings s) ≫= fv_requiredValidate) /\
    (_validation (settings s') ≫= fv_requiredMessage) =
      (_validation (settings s) ≫= fv_requiredMessage) /\
    _rulesMessages (sources s') = _rulesMessages (sources s) /\
    _customMessages (sources s') = _customMessages (sources s) /\
    _errorOverride (sources s') = _errorOverride (sources s) /\
    _warningOverride (sources s') = _warningOverride (sources s) /\
    counters_of s' = counters_of s /\
    (_validation (settings s) = None -> r = ReqBool false -> s' = s) /\
    _requiredMessage (sources s') =
      (if match r, _validation (settings s) with
          | ReqBool false, None => true
          | _, _ => strict_equal_required (_validation (settings s) ≫= required) r
          end
       then _requiredMessage (sources s) else None)).
Proof.
  unfold set_required, get_required. msteps.
  destruct (_validation (settings s)) as [v|] eqn:Ev.
  - assert ((match r with ReqBool false => false | _ => false end) = false) as ->
      by by destruct r as [[]| |].
    replace (match r with
             | ReqBool false => strict_equal_required (Some v ≫= required) r
             | _ => strict_equal_required (Some v ≫= required) r
             end) with (strict_equal_required (required v) r)
      by by destruct r as [[]| |].
    msteps. change (default empty_validation (Some v)) with v.
    destruct (strict_equal_required (required v) r) eqn:Eq.
    + msteps. cbn.
      destruct (required v) as [r0|]; [|done]. cbn.
      refine (conj _ (conj _ _)); try done.
    + msteps. cbn [sources with_settings].
      destruct (_requiredMessage (sources s)) eqn:Er.
      * msteps. mcall _updateMessages_spec. intros _ ? (new & -> & _). msteps.
        split; [apply strict_equal_required_refl|done].
      * msteps. split; [apply strict_equal_required_refl|]. cbn. by rewrite Er.
  - destruct r as [[]|t|ref rule].
    2: { msteps. rewrite Ev. done. }
    all: msteps; cbn [default settings with_settings put_validation _validation
                      empty_validation required strict_equal_required];
      msteps; cbn [sources with_settings];
      (destruct (_requiredMessage (sources s)) eqn:Er;
       [msteps; mcall _updateMessages_spec; intros _ ? (new & -> & _); msteps;
        (split; [apply strict_equal_required_refl|]); cbn; rewrite ?Ev; done
       |msteps; (split; [apply strict_equal_required_refl|]); cbn;
        by rewrite ?Ev, ?Er]).
Qed.

Lemma _cloneValidation_id v : _cloneValidation v = v.
Proof.
  destruct v as [[on rv rm rs rq]|]; [|done]. cbn. do 2 f_equal.
  destruct rs as [rs|]; [|done]. cbn. f_equal.
  induction rs as [|[] rs IH]; [done|]. cbn. by rewrite IH.
Qed.

(** X10.  [fc.validation = v; fc.validation] reads a configuration with the
    contents of [v] back.  The assignment drops the results of validation
    (the required message and the rule messages) and keeps the custom
    messages, the overrides, the value and the counters. *)
Theorem validation_assignment_reads_back v s :
  returns (set_validation v ;;; get_validation) s (fun v' s' =>
    v' = v /\
    _requiredMessage (sources s') = None /\
    _rulesMessages (sources s') = None /\
    _customMessages (sources s') = _customMessages (sources s) /\
    _errorOverride (sources s') = _errorOverride (sources s) /\
    _warningOverride (sources s') = _warningOverride (sources s) /\
    counters_of s' = counters_of s).
Proof.
  unfold set_validation, get_validation. msteps.
  mcall clearValidated_spec. intros _ s' [(E1 & E2 & ->)|(new & ->)]; msteps.
  - cbn. by rewrite !_cloneValidation_id.
  - cbn. by rewrite !_cloneValidation_id.
Qed.

(** ** Message slots after validation *)

Lemma array_get_set_ne {A} (l : list (option A)) i k x :
  k <> i -> array_get (array_set l i x) k = array_get l k.
Proof.
  intros Hne. unfold array_get, array_set. destruct (decide (i < length l)%nat).
  - by rewrite list_lookup_insert_ne.
  - destruct (decide (k < length l)%nat).
    + by rewrite lookup_app_l.
    + rewrite lookup_app_r by lia. rewrite (lookup_ge_None_2 l k) by lia.
      destruct (decide (k < i)%nat).
      * rewrite lookup_app_l by (rewrite length_replicate; lia).
        rewrite lookup_replicate_2 by lia. done.
      * rewrite lookup_app_r by (rewrite length_replicate; lia).
        rewrite length_replicate. rewrite lookup_ge_None_2; [done|]. cbn. lia.
Qed.

Lemma array_get_delete_ne {A} (l : list (option A)) i k :
  k <> i -> array_get (array_delete l i) k = array_get l k.
Proof.
  intros Hne. unfold array_get, array_delete. by rewrite list_lookup_insert_ne.
Qed.

(** The required check writes the required slot and nothing else. *)
Lemma processPassed_required rule arr passed s :
  returns (processPassed rule IdxRequired arr passed) s (fun _ s' =>
    s' = with_validated (slot_message rule passed) (_rulesMessages (sources s)) s).
Proof.
  unfold processPassed, slot_message. mstep.
  destruct (if passed then typeIfPassed rule else Some (default error (rule_type rule)))
    as [t|].
  - msteps. cbv beta.
    destruct (shallowEqual (_requiredMessage (sources s)) _) eqn:Eq.
    + apply shallowEqual_true in Eq. msteps. rewrite <- Eq. by rewrite with_validated_id.
    + msteps. by destruct s as [? ? [] ? ?].
  - msteps. cbv beta. destruct (_requiredMessage (sources s)) eqn:Eq.
    + msteps. by destruct s as [? ? [] ? ?].
    + msteps. rewrite <- Eq. by rewrite with_validated_id.
Qed.

(** The check of rule [i] writes slot [i] of the rule messages and nothing
    else. *)
Lemma processPassed_rule rule i arr passed s :
  attached arr s ->
  returns (processPassed rule (IdxRule i) arr passed) s (fun _ s' =>
    attached arr s' /\
    (exists rm, s' = with_validated (_requiredMessage (sources s)) rm s) /\
    forall k, array_get (rules_items s') k =
              if decide (k = i) then slot_message rule passed
              else array_get (rules_items s) k).
Proof.
  intros Ha. unfold processPassed, slot_message. mstep.
  destruct (if passed then typeIfPassed rule else Some (default error (rule_type rule)))
    as [t|].
  - mcall update_rulesMessages_spec. intros r s' (Hs' & Hr & Hatt).
    destruct (Hatt Ha) as (Ha' & Hitems & Hnone). mstep.
    split; [done|]. split; [done|]. intros k. rewrite Hitems.
    destruct (shallowEqual (array_get (rules_items s) i) _) eqn:Eq; cbn [default].
    + apply shallowEqual_true in Eq. destruct (decide (k = i)) as [->|]; done.
    + destruct (decide (k = i)) as [->|Hne]; [apply array_get_set|].
      by apply array_get_set_ne.
  - mcall update_rulesMessages_spec. intros r s' (Hs' & Hr & Hatt).
    destruct (Hatt Ha) as (Ha' & Hitems & Hnone). mstep.
    split; [done|]. split; [done|]. intros k. rewrite Hitems.
    destruct (array_get (rules_items s) i) eqn:Eq; cbn [default].
    + destruct (decide (k = i)) as [->|Hne]; [apply array_get_delete|].
      by apply array_get_delete_ne.
    + destruct (decide (k = i)) as [->|]; done.
Qed.

Lemma with_validated_same rq rm s :
  exists rq' rm', with_validated rq rm s = with_validated rq' rm' s.
Proof. by exists rq, rm. Qed.

Lemma existsb_same {A} (f g : A -> bool) l :
  (forall x, f x = g x) -> existsb f l = existsb g l.
Proof. intros H. induction l as [|x l IH]; [done|]. cbn. by rewrite H, IH. Qed.

Lemma validateRule_rule_slot validation eventType arr rule i loc s :
  attached arr s ->
  returns (validateRule validation eventType (holdValidation (settings s)) arr
             rule (IdxRule i) loc) s (fun loc' s' =>
    attached arr s' /\
    (exists rm, s' = with_validated (_requiredMessage (sources s)) rm s) /\
    promisified loc' =
      promisified loc || returns_promise validation eventType s rule /\
    forall k, array_get (rules_items s') k =
              if decide (k = i)
              then slot_after validation eventType s rule (array_get (rules_items s) k)
              else array_get (rules_items s) k).
Proof.
  intros Ha.
  assert (Hid : exists rm, s = with_validated (_requiredMessage (sources s)) rm s).
  { exists (_rulesMessages (sources s)). by rewrite with_validated_id. }
  eapply returns_mono; [apply validateRule_cases|]. intros loc' s' H. cbv beta in H.
  unfold slot_after, returns_promise.
  destruct (shouldValidate eventType _ _); cbn [andb].
  2: { destruct H as [-> ->]. split; [done|]. split; [done|].
       split; [by rewrite orb_false_r|]. intros k. by destruct (decide (k = i)). }
  destruct (check_result rule (view s)) as [passed|p].
  - destruct H as (update & E & ->).
    pose proof (processPassed_rule rule i arr passed s Ha) as Hp.
    eapply returns_eq in Hp; [|exact E]. destruct Hp as (Ha' & Hf & Hk).
    split; [done|]. split; [done|]. split; [by rewrite orb_false_r|]. exact Hk.
  - destruct H as [-> ->]. split; [done|]. split; [done|].
    split; [by rewrite orb_true_r|]. intros k. by destruct (decide (k = i)).
Qed.

Lemma validateRules_slots validation eventType arr rs i loc s :
  attached arr s ->
  returns (validateRules validation eventType (holdValidation (settings s)) arr
             rs i loc) s (fun loc' s' =>
    attached arr s' /\
    (exists rm, s' = with_validated (_requiredMessage (sources s)) rm s) /\
    promisified loc' =
      promisified loc || existsb (returns_promise validation eventType s) rs /\
    forall k, array_get (rules_items s') k =
              match (if decide (i <= k)%nat then rs !! (k - i)%nat else None) with
              | Some rule =>
                  slot_after validation eventType s rule (array_get (rules_items s) k)
              | None => array_get (rules_items s) k
              end).
Proof.
  revert i loc s. induction rs as [|rule rs IH]; intros i loc s Ha; cbn [validateRules].
  - mstep. split; [done|]. split.
    { exists (_rulesMessages (sources s)). by rewrite with_validated_id. }
    split; [by rewrite orb_false_r|].
    intros k. by destruct (decide (i <= k)%nat).
  - apply returns_bind. eapply returns_mono; [by apply validateRule_rule_slot|].
    intros loc1 s1 (Ha1 & (rm1 & E1) & Hp1 & H1).
    assert (Hhold : holdValidation (settings s) = holdValidation (settings s1))
      by by rewrite E1.
    rewrite Hhold.
    eapply returns_mono; [by apply IH|]. intros loc2 s2 (Ha2 & (rm2 & E2) & Hp2 & H2).
    split; [done|]. split.
    { exists rm2. rewrite E2, E1. done. }
    assert (Hrp : forall r, returns_promise validation eventType s1 r =
                            returns_promise validation eventType s r)
      by (intros; by rewrite E1).
    split.
    { rewrite Hp2, Hp1. cbn [existsb]. rewrite <- orb_assoc.
      by rewrite (existsb_same _ _ rs Hrp). }
    intros k. rewrite H2, H1.
    assert (Hsl : forall r old, slot_after validation eventType s1 r old =
                               slot_after validation eventType s r old)
      by (intros; by rewrite E1).
    destruct (decide (k = i)) as [->|Hne].
    + rewrite decide_False by lia. rewrite decide_True by lia.
      by rewrite Nat.sub_diag.
    + destruct (decide (S i <= k)%nat) as [Hle|Hgt].
      * rewrite decide_True by lia.
        replace (k - i)%nat with (S (k - S i)) by lia. cbn [lookup list_lookup].
        destruct (rs !! (k - S i)%nat); [apply Hsl|done].
      * destruct (decide (i <= k)%nat); [lia|done].
Qed.

(** The checks of [_validate] on the state [s0] it starts from once
    [_rulesMessages] is an array. *)
Lemma required_check_slot validation eventType arr s :
  returns (if required_truthy (required validation) then
             match required validation with
             | Some r =>
                 rule <- requiredRule validation r ;;
                 validateRule validation eventType (holdValidation (settings s)) arr
                   rule IdxRequired
                   {| promisified := false; needUpdate := false; results := [] |}
             | None => ret {| promisified := false; needUpdate := false; results := [] |}
             end
           else ret {| promisified := false; needUpdate := false; results := [] |}) s
    (fun loc' s' =>
       s' = with_validated (required_slot_after validation eventType s)
              (_rulesMessages (sources s)) s /\
       promisified loc' =
         match required validation with
         | Some r => required_truthy (Some r) &&
                     returns_promise validation eventType s (required_rule validation r s)
         | None => false
         end).
Proof.
  unfold required_slot_after.
  destruct (required validation) as [r|].
  2: { cbn [required_truthy]. mstep. by rewrite with_validated_id. }
  destruct (required_truthy (Some r)); cbn [andb];
    [|mstep; by rewrite with_validated_id].
  mcall requiredRule_spec. intros rule ? [-> ->].
  eapply returns_mono; [apply validateRule_cases|]. intros loc' s' H. cbv beta in H.
  unfold slot_after, returns_promise.
  destruct (shouldValidate eventType _ _); cbn [andb].
  2: { destruct H as [-> ->]. by rewrite with_validated_id. }
  destruct (check_result _ (view s)) as [passed|p].
  - destruct H as (update & E & ->).
    pose proof (processPassed_required (required_rule validation r s) arr passed s) as Hp.
    eapply returns_eq in Hp; [|exact E]. done.
  - destruct H as [-> ->]. by rewrite with_validated_id.
Qed.

Lemma _validate_slots eventType skip s validation :
  _validation (settings s) = Some validation -> held eventType s = false ->
  returns (_validate eventType skip) s (fun res s' =>
    _requiredMessage (sources s') = required_slot_after validation eventType s /\
    (forall i, array_get (rules_items s') i = rule_slot_after validation eventType s i) /\
    if asynchronous validation eventType s
    then res = Later (length (promises (runtime s)))
    else exists b, res = Now b).
Proof.
  intros Ev Eh. unfold _validate, held in *. mstep. mstep. cbv beta. rewrite Ev.
  mstep. mstep. cbv beta. rewrite Eh.
  mstep. mstep. cbv beta. apply returns_bind.
  apply returns_mono with (Q := fun a s0 =>
    exists n, s0 = with_next_array n
                     (with_validated (_requiredMessage (sources s)) (Some a) s) /\
              arr_items a = rules_items s).
  { unfold rules_items, new_array.
    destruct (_rulesMessages (sources s)) as [a|] eqn:E.
    - mstep. exists (next_array (runtime s)). split; [|done].
      rewrite <- E, with_validated_id. by rewrite with_next_array_id.
    - msteps. exists (S (next_array (runtime s))). split; [|done].
      cbn. by destruct s as [? ? [] ? ?]. }
  intros rm0 s0 (n & -> & Hrm0).
  set (s0 := with_next_array n _).
  assert (Hreq : required_slot_after validation eventType s0 =
                 required_slot_after validation eventType s) by done.
  apply returns_bind.
  eapply returns_mono;
    [exact (required_check_slot validation eventType (arr_id rm0) s0)|].
  intros loc1 s1 [-> Hp1]. rewrite Hreq.
  assert (Hp1' : promisified loc1 =
                 match required validation with
                 | Some r =>
                     required_truthy (Some r) &&
                     returns_promise validation eventType s
                       (required_rule validation r s)
                 | None => false
                 end) by exact Hp1.
  clear Hp1.
  set (s1 := with_validated _ _ s0).
  assert (Ha1 : attached (arr_id rm0) s1) by done.
  assert (Hitems : rules_items s1 = rules_items s) by exact Hrm0.
  assert (Hrule : forall r old, slot_after validation eventType s1 r old =
                                slot_after validation eventType s r old) by done.
  assert (Hrp : forall r, returns_promise validation eventType s1 r =
                          returns_promise validation eventType s r) by done.
  apply returns_bind.
  apply returns_mono with (Q := fun loc2 s2 =>
    (exists rm, s2 = with_validated (required_slot_after validation eventType s) rm s1) /\
    (forall i, array_get (rules_items s2) i = rule_slot_after validation eventType s i) /\
    promisified loc2 = asynchronous validation eventType s).
  { unfold rule_slot_after, asynchronous. rewrite <- Hp1'.
    destruct (rules validation) as [rs|].
    - change (default [] (Some rs)) with rs.
      eapply returns_mono;
        [exact (validateRules_slots validation eventType (arr_id rm0) rs 0 loc1 s1 Ha1)|].
      intros loc2 s2 (_ & Hform & Hp2 & Hk). split; [exact Hform|]. split.
      + intros i. rewrite Hk, Hitems. rewrite decide_True by lia. rewrite Nat.sub_0_r.
        destruct (rs !! i); [|done]. apply Hrule.
      + rewrite Hp2. by rewrite (existsb_same _ _ rs Hrp).
    - mstep. split; [|split; [by rewrite Hitems|]].
      + by exists (_rulesMessages (sources s0)).
      + cbn. by rewrite orb_false_r. }
  intros loc2 s2 ((rm2 & ->) & Hk & Hp2). cbv beta. rewrite <- Hp2.
  destruct (promisified loc2).
  - msteps. split; [done|]. split; [exact Hk|done].
  - destruct (needUpdate loc2); cbn [when].
    + mcall _updateMessages_spec. intros _ ? (new & -> & _). mstep.
      split; [done|]. split; [exact Hk|]. by eexists.
    + msteps. split; [done|]. split; [exact Hk|]. by eexists.
Qed.

(** X11.  What a call of [validate] leaves in the message slots.  For each
    check the call runs and that completes synchronously, the slot holds the
    message for the outcome: [{ message, type: type || 'error' }] if the
    check has failed, [{ message, type: typeIfPassed }] if it has passed and
    the rule has a [typeIfPassed], and nothing otherwise.  The slots of the
    checks the call does not run, and of those that return a promise, are
    as they were. *)
Theorem validate_fills_the_slots eventType s validation :
  _validation (settings s) = Some validation -> held eventType s = false ->
  returns (validate eventType) s (fun _ s' =>
    _requiredMessage (sources s') = required_slot_after validation eventType s /\
    forall i, array_get (rules_items s') i = rule_slot_after validation eventType s i).
Proof.
  intros Ev Eh. eapply returns_mono; [by apply _validate_slots|].
  intros res s' (H1 & H2 & _). done.
Qed.

Lemma validate_fills_the_slots_witness :
  let s := run_all [SetValidation (Some (with_rules [failing_rule "S"; throwing_rule]))]
             (new_FieldCtrl None VUndefined) in
  let validation := with_rules [failing_rule "S"; throwing_rule] in
  _validation (settings s) = Some validation /\ held None s = false /\
  returns (validate None) s (fun _ s' =>
    _requiredMessage (sources s') = required_slot_after validation None s /\
    forall i, array_get (rules_items s') i = rule_slot_after validation None s i).
Proof.
  intros s validation.
  assert (H1 : _validation (settings s) = Some validation) by reflexivity.
  assert (H2 : held None s = false) by reflexivity.
  split; [exact H1|]. split; [exact H2|].
  exact (validate_fills_the_slots None s validation H1 H2).
Defined.

(** ** The required check *)

Lemma default_requiredValidate_empty fc :
  default_requiredValidate fc = Returns (bool_decide (v_value fc ∉ empty_values)).
Proof.
  unfold default_requiredValidate, empty_values. f_equal.
  apply eq_true_iff_eq.
  rewrite !andb_true_iff, !bool_decide_eq_true, !not_elem_of_cons.
  pose proof (not_elem_of_nil (v_value fc)). tauto.
Qed.

Lemma validate_sync_result eventType s validation :
  _validation (settings s) = Some validation -> held eventType s = false ->
  returns (validate eventType) s (fun res _ =>
    (false ∈ outcomes validation eventType s -> res <> Now true) /\
    (forall b, res = Now b -> b = everyTruthy (outcomes validation eventType s))).
Proof.
  intros Ev Eh. eapply returns_mono; [by apply validate_overall|].
  intros res s' H. cbv beta in H. split.
  - intros Hf ->. rewrite (everyTruthy_false _ Hf) in H. done.
  - intros b ->. exact H.
Qed.

(** X12.  The default required check.  On a field whose entity (if any)
    has no validation options and whose configuration has [required: true]
    or [required: '<text>'] and no [requiredValidate], [validate()] rejects
    exactly the values [undefined], [null], [''] and [0]: it then leaves
    [{ message, type: 'error' }] in the required slot, with the text of
    [required] or ['Required field'], and does not return [true]; for every
    other value the required slot is emptied.  Without rules the result is
    [true] or [false] accordingly. *)
Theorem required_rejects_empty_values s validation r :
  _validation (settings s) = Some validation ->
  required validation = Some r ->
  r = ReqBool true \/ (exists m, r = ReqString m /\ m <> "") ->
  fv_requiredValidate validation = None ->
  (e ← parent (settings s); validationOptions e) = None ->
  holdValidation (settings s) = HoldBool false ->
  returns (validate None) s (fun res s' =>
    let ok := bool_decide (_value (params s) ∉ empty_values) in
    _requiredMessage (sources s') =
      (if ok then None
       else Some {| message := Some (match r with
                                     | ReqString m => m
                                     | _ => "Required field"
                                     end);
                    type := Some error |}) /\
    (ok = false -> res <> Now true) /\
    (rules validation = None -> res = Now ok)).
Proof.
  intros Ev Er Hr Hv Hp Hh.
  assert (Eh : held None s = false) by (unfold held; by rewrite Hh).
  assert (Ht : required_truthy (Some r) = true).
  { destruct Hr as [->|(m & -> & Hm)]; [done|]. cbn. by apply bool_decide_eq_true. }
  assert (Hs : forall rule, shouldValidate None (holdValidation (settings s))
                              (resolved_validateOn validation rule s) = true)
    by (intros; by rewrite Hh).
  assert (Hc : check_result (required_rule validation r s) (view s) =
               PassedBool (bool_decide (_value (params s) ∉ empty_values))).
  { unfold check_result, required_rule. rewrite Hp, Hv.
    destruct Hr as [->|(m & -> & Hm)]; cbn [rule_validate];
      change (default (default default_requiredValidate (None ≫= opt_requiredValidate))
                None) with default_requiredValidate;
      by rewrite default_requiredValidate_empty. }
  assert (Hout : outcomes validation None s =
                 bool_decide (_value (params s) ∉ empty_values) ::
                 executed validation None (holdValidation (settings s)) s
                   (default [] (rules validation))).
  { unfold outcomes. rewrite Er, Ht, Hs. unfold passes. by rewrite Hc. }
  assert (Hsync : rules validation = None -> asynchronous validation None s = false).
  { intros Hrules. unfold asynchronous, returns_promise.
    by rewrite Er, Hrules, Hc, Hs, Ht. }
  eapply returns_mono;
    [exact (returns_conj _ _ _ _ (_validate_slots None false s validation Ev Eh)
              (validate_sync_result None s validation Ev Eh))|].
  intros res s' [(Hslot & _ & Hkind) [Hfail Hres]]. cbv zeta.
  split; [|split].
  - rewrite Hslot. unfold required_slot_after, slot_after. rewrite Er, Ht, Hs, Hc.
    unfold slot_message, required_rule. rewrite Hp.
    destruct (bool_decide _); [by destruct Hr as [->|(m & -> & Hm)]|].
    by destruct Hr as [->|(m & -> & Hm)].
  - intros Hok. apply Hfail. rewrite Hout, Hok. apply list_elem_of_here.
  - intros Hrules. rewrite (Hsync Hrules) in Hkind. destruct Hkind as [b ->].
    rewrite (Hres b eq_refl), Hout, Hrules. cbn. by rewrite andb_true_r.
Qed.

Lemma required_rejects_empty_values_witness :
  let s := run_all [SetRequired (ReqString "Name is required")]
             (new_FieldCtrl None (VStr "")) in
  let validation := put_required (Some (ReqString "Name is required")) empty_validation in
  _validation (settings s) = Some validation /\
  required validation = Some (ReqString "Name is required") /\
  fv_requiredValidate validation = None /\
  (e ← parent (settings s); validationOptions e) = None /\
  holdValidation (settings s) = HoldBool false /\
  returns (validate None) s (fun res s' =>
    let ok := bool_decide (_value (params s) ∉ empty_values) in
    _requiredMessage (sources s') =
      (if ok then None
       else Some {| message := Some "Name is required"; type := Some error |}) /\
    (ok = false -> res <> Now true) /\
    (rules validation = None -> res = Now ok)).
Proof.
  intros s validation.
  assert (H1 : _validation (settings s) = Some validation) by (vm_compute; reflexivity).
  assert (H2 : required validation = Some (ReqString "Name is required"))
    by (vm_compute; reflexivity).
  assert (H3 : fv_requiredValidate validation = None) by (vm_compute; reflexivity).
  assert (H4 : (e ← parent (settings s); validationOptions e) = None)
    by (vm_compute; reflexivity).
  assert (H5 : holdValidation (settings s) = HoldBool false) by (vm_compute; reflexivity).
  assert (H6 : ReqString "Name is required" = ReqBool true \/
               exists m, ReqString "Name is required" = ReqString m /\ m <> "").
  { right. exists "Name is required". split; [reflexivity|discriminate]. }
  split; [exact H1|]. split; [exact H2|]. split; [exact H3|]. split; [exact H4|].
  split; [exact H5|].
  exact (required_rejects_empty_values s validation (ReqString "Name is required")
           H1 H2 H6 H3 H4 H5).
Defined.

(** X13.  A rule object given as [required] is run as it is: its own
    [validate] is the check, and the default required check is not put in
    its place.  Without a [validate], the check fails whatever the value is:
    the required slot gets the rule's message with its type (['error'] if it
    has none), and [validate] does not return [true]. *)
Theorem required_rule_without_check_fails eventType s validation ref rule :
  _validation (settings s) = Some validation -> held eventType s = false ->
  required validation = Some (ReqRule ref rule) ->
  rule_validate rule = None ->
  shouldValidate eventType (holdValidation (settings s))
    (resolved_validateOn validation rule s) = true ->
  returns (validate eventType) s (fun res s' =>
    _requiredMessage (sources s') = Some (failure_message rule) /\
    res <> Now true).
Proof.
  intros Ev Eh Er Hnone Hs.
  assert (Hc : check_result rule (view s) = PassedBool false).
  { unfold check_result. by rewrite Hnone. }
  eapply returns_mono;
    [exact (returns_conj _ _ _ _ (_validate_slots eventType false s validation Ev Eh)
              (validate_sync_result eventType s validation Ev Eh))|].
  intros res s' [(Hslot & _) [Hfail _]]. split.
  - rewrite Hslot. unfold required_slot_after, slot_after. rewrite Er.
    cbn [required_truthy required_rule]. by rewrite Hs, Hc.
  - apply Hfail. unfold outcomes. rewrite Er.
    cbn [required_truthy required_rule]. rewrite Hs. unfold passes. rewrite Hc.
    apply list_elem_of_here.
Qed.

Lemma required_rule_without_check_fails_witness :
  let rule := {| rule_message := Some "m"; rule_type := None; rule_validate := None;
                 typeIfPassed := None; validateOn := None |} in
  let validation := put_required (Some (ReqRule 0 rule)) empty_validation in
  let s := run_all [SetRequired (ReqRule 0 rule)] (new_FieldCtrl None (VStr "filled")) in
  _validation (settings s) = Some validation /\ held None s = false /\
  required validation = Some (ReqRule 0 rule) /\
  rule_validate rule = None /\
  shouldValidate None (holdValidation (settings s))
    (resolved_validateOn validation rule s) = true /\
  returns (validate None) s (fun res s' =>
    _requiredMessage (sources s') = Some (failure_message rule) /\
    res <> Now true).
Proof.
  intros rule validation s.
  assert (H1 : _validation (settings s) = Some validation) by (vm_compute; reflexivity).
  assert (H2 : held None s = false) by (vm_compute; reflexivity).
  assert (H3 : required validation = Some (ReqRule 0 rule)) by (vm_compute; reflexivity).
  assert (H4 : rule_validate rule = None) by (vm_compute; reflexivity).
  assert (H5 : shouldValidate None (holdValidation (settings s))
                 (resolved_validateOn validation rule s) = true)
    by (vm_compute; reflexivity).
  split; [exact H1|]. split; [exact H2|]. split; [exact H3|]. split; [exact H4|].
  split; [exact H5|].
  exact (required_rule_without_check_fails None s validation 0%nat rule H1 H2 H3 H4 H5).
Defined.

(** ** The promise [validate] returns *)

Lemma settle_step j k s job :
  promises (runtime s) !! j = Some job ->
  exists job',
    promises (runtime (state_after (settle j k s))) !! j = Some job' /\
    job_value job' = job_value job /\
    map eventual (job_items job') = map eventual (job_items job) /\
    length (job_items job') = length (job_items job) /\
    (forall i b, job_items job !! i = Some (Done b) ->
                 job_items job' !! i = Some (Done b)) /\
    ((k < length (job_items job))%nat -> exists b, job_items job' !! k = Some (Done b)).
Proof.
  intros Ej.
  assert (Hsame : settle j k s = Normal tt s ->
                  (forall b, job_items job !! k = Some (Done b) -> True) ->
                  ((k < length (job_items job))%nat ->
                   exists b, job_items job !! k = Some (Done b)) ->
                  exists job',
    promises (runtime (state_after (settle j k s))) !! j = Some job' /\
    job_value job' = job_value job /\
    map eventual (job_items job') = map eventual (job_items job) /\
    length (job_items job') = length (job_items job) /\
    (forall i b, job_items job !! i = Some (Done b) ->
                 job_items job' !! i = Some (Done b)) /\
    ((k < length (job_items job))%nat -> exists b, job_items job' !! k = Some (Done b))).
  { intros -> _ Hk. exists job. cbn. done. }
  destruct (job_items job !! k) as [[b|rule index arr p]|] eqn:Ek.
  - apply Hsame; [|done|by eauto].
    unfold settle. rewrite bind_run, gets_run. cbv beta iota. by rewrite Ej, Ek.
  - pose proof (settle_waiting j k s job rule index arr p Ej Ek) as H.
    unfold returns in H. destruct (settle j k s) as [[] s'|s']; [|done].
    destruct H as [Hp _]. cbn [state_after]. rewrite Hp.
    eexists. split; [apply list_lookup_insert_eq; by eapply lookup_lt_Some|].
    cbn. split; [done|]. split.
    { rewrite list_fmap_insert. apply list_insert_id. by rewrite list_lookup_fmap, Ek. }
    split; [by rewrite length_insert|]. split.
    + intros i b Hi. destruct (decide (i = k)) as [->|Hne]; [congruence|].
      by rewrite list_lookup_insert_ne.
    + intros Hlt. exists (settled p). by apply list_lookup_insert_eq.
  - apply Hsame; [|done|].
    + unfold settle. rewrite bind_run, gets_run. cbv beta iota. by rewrite Ej, Ek.
    + intros Hlt. apply lookup_ge_None in Ek. lia.
Qed.

Lemma settle_prefix j n : forall k s job,
  promises (runtime s) !! j = Some job ->
  (forall i, (i < k)%nat -> (i < length (job_items job))%nat ->
             exists b, job_items job !! i = Some (Done b)) ->
  exists job',
    promises (runtime (run_all (map (Settle j) (seq k n)) s)) !! j = Some job' /\
    job_value job' = job_value job /\
    map eventual (job_items job') = map eventual (job_items job) /\
    length (job_items job') = length (job_items job) /\
    (forall i, (i < k + n)%nat -> (i < length (job_items job'))%nat ->
               exists b, job_items job' !! i = Some (Done b)).
Proof.
  induction n as [|n IH]; intros k s job Ej Hk.
  - exists job. cbn. rewrite Nat.add_0_r. done.
  - cbn [seq map run_all run].
    destruct (settle_step j k s job Ej) as (job1 & E1 & Hv1 & He1 & Hl1 & Hkeep & Hnew).
    destruct (IH (S k) _ job1 E1) as (job' & E' & Hv' & He' & Hl' & Hdone').
    { intros i Hi Hlen. destruct (decide (i = k)) as [->|Hne].
      - apply Hnew. lia.
      - destruct (Hk i) as [b Hb]; [lia|lia|]. exists b. by apply Hkeep. }
    exists job'. split; [exact E'|]. split; [congruence|]. split; [congruence|].
    split; [congruence|]. intros i Hi. apply Hdone'. lia.
Qed.

Lemma all_done_lookup rs :
  (forall i, (i < length rs)%nat -> exists b, rs !! i = Some (Done b)) ->
  all_done rs = true.
Proof.
  intros H. unfold all_done. apply forallb_forall. intros r Hr.
  apply list_elem_of_In, list_elem_of_lookup in Hr as [i Hi].
  destruct (H i) as [b Hb]; [by eapply lookup_lt_Some|].
  rewrite Hi in Hb. by injection Hb as ->.
Qed.

Lemma resolution_resolves j s job :
  promises (runtime s) !! j = Some job -> job_value job = None ->
  resolved_to j (run_all (resolution j (length (job_items job))) s) =
  Some (everyTruthy (map eventual (job_items job))).
Proof.
  intros Ej Hv. unfold resolution, resolved_to.
  assert (Happ : forall a b s0, run_all (a ++ b) s0 = run_all b (run_all a s0)).
  { induction a as [|x a IH]; intros b s0; [done|]. cbn. apply IH. }
  rewrite Happ. cbn [run_all run].
  destruct (settle_prefix j (length (job_items job)) 0 s job Ej)
    as (job' & E' & Hv' & He' & Hl' & Hdone'); [intros; lia|].
  set (s1 := run_all _ s) in *.
  pose proof (finish_resolves j s1 job' E') as H.
  unfold returns in H. destruct (finish j s1) as [[] s2|s2].
  - cbn [state_after]. rewrite H.
    + rewrite list_lookup_insert_eq by by eapply lookup_lt_Some. cbn. by rewrite He'.
    + apply all_done_lookup. intros i Hi. apply Hdone'; lia.
    + congruence.
  - exfalso. apply H; [|congruence].
    apply all_done_lookup. intros i Hi. apply Hdone'; lia.
Qed.

(** *** The promise of [validate] along a run *)

Lemma run_all_app a : forall b s, run_all (a ++ b) s = run_all b (run_all a s).
Proof. induction a as [|x a IH]; intros b s; [done|]. cbn. apply IH. Qed.

(** Whatever else happens to the field, the results of a promise that
    settle are there, and stay. *)
Lemma run_settles j : forall ops s job,
  promises (runtime s) !! j = Some job ->
  exists job',
    promises (runtime (run_all ops s)) !! j = Some job' /\
    map eventual (job_items job') = map eventual (job_items job) /\
    (job_value job' = job_value job \/
     (job_value job = None /\
      job_value job' = Some (everyTruthy (map eventual (job_items job))))) /\
    forall i, (i < length (job_items job))%nat ->
      (exists b, job_items job !! i = Some (Done b)) \/ Settle j i ∈ ops ->
      exists b, job_items job' !! i = Some (Done b).
Proof.
  induction ops as [|op ops IH]; intros s job Ej.
  - exists job. cbn. split; [done|]. split; [done|]. split; [by left|].
    intros i Hi [H|H]; [done|by apply elem_of_nil in H].
  - cbn [run_all].
    destruct (returns_state_after _ _ _ (run_effect op s)) as [_ (_ & _ & Ht)].
    destruct (Ht j job Ej) as (job1 & E1 & He1 & Hd1 & Hv1).
    destruct (IH (state_after (run op s)) job1 E1) as (job' & E' & He' & Hv' & Hdone).
    assert (Hlen : length (job_items job1) = length (job_items job)).
    { apply (f_equal length) in He1. by rewrite !length_map in He1. }
    exists job'. split; [done|]. split; [congruence|]. split.
    { rewrite He1 in Hv'.
      destruct Hv1 as [Hv1|[Hn Hv1]], Hv' as [Hv'|[Hn' Hv']].
      - left. congruence.
      - right. split; congruence.
      - right. split; congruence.
      - congruence. }
    intros i Hi Hor. apply Hdone; [lia|].
    destruct Hor as [[b Hb]|Hin]; [left; exists b; by apply Hd1|].
    apply elem_of_cons in Hin as [<-|Hin]; [|by right].
    left. destruct (settle_step j i s job Ej) as (job2 & E2 & _ & _ & _ & _ & Hnew).
    change (run (Settle j i) s) with (settle j i s) in E1.
    rewrite E2 in E1. injection E1 as <-. by apply Hnew.
Qed.

Lemma finish_resolved j s job b :
  promises (runtime s) !! j = Some job -> job_value job = Some b ->
  finish j s = Normal tt s.
Proof.
  intros Ej Hv. unfold finish. rewrite bind_run, gets_run. cbv beta iota.
  rewrite Ej, Hv. rewrite bool_decide_false by done. by rewrite andb_false_r.
Qed.

(** Once its pending results have settled, in whatever order and whatever
    else happens in between, the promise resolves to the conjunction of the
    outcomes. *)
Lemma promise_resolves j ops s job :
  promises (runtime s) !! j = Some job -> job_value job = None ->
  (forall i rule index arr p,
     job_items job !! i = Some (Waiting rule index arr p) -> Settle j i ∈ ops) ->
  resolved_to j (run_all (ops ++ [Finish j]) s) =
  Some (everyTruthy (map eventual (job_items job))).
Proof.
  intros Ej Hv Hall. rewrite run_all_app. cbn [run_all run].
  destruct (run_settles j ops s job Ej) as (job' & E' & He' & Hv' & Hdone).
  set (s1 := run_all ops s) in *.
  assert (Hlen : length (job_items job') = length (job_items job)).
  { apply (f_equal length) in He'. by rewrite !length_map in He'. }
  assert (Hd : all_done (job_items job') = true).
  { apply all_done_lookup. intros i Hi. apply Hdone; [lia|].
    destruct (job_items job !! i) as [[b|rule index arr p]|] eqn:Ei.
    - left. eauto.
    - right. eauto.
    - apply lookup_ge_None in Ei. lia. }
  unfold resolved_to. destruct Hv' as [Hv'|[_ Hv']].
  - rewrite Hv in Hv'.
    pose proof (finish_resolves j s1 job' E' Hd Hv') as H.
    unfold returns in H. destruct (finish j s1) as [[] s2|s2]; [|done].
    cbn [state_after]. rewrite H.
    rewrite list_lookup_insert_eq by by eapply lookup_lt_Some. cbn. by rewrite He'.
  - rewrite (finish_resolved j s1 job' _ E' Hv'). cbn [state_after].
    rewrite E'. exact Hv'.
Qed.


(** X14.  When a check that [validate] runs returns a promise, [validate]
    returns a promise, and that promise does resolve: once the promise of
    every asynchronous check has settled and its continuation has run -- in
    the order of the checks or in any other, and whatever else happens to
    the field in between -- the promise holds the conjunction of the
    outcomes of all the checks the call has run, synchronous and
    asynchronous (a rejected promise counts as [false]). *)
Theorem validate_promise_resolves eventType s validation :
  _validation (settings s) = Some validation -> held eventType s = false ->
  asynchronous validation eventType s = true ->
  returns (validate eventType) s (fun res s1 =>
    exists j job,
      res = Later j /\ promises (runtime s1) !! j = Some job /\
      resolved_to j s1 = None /\
      resolved_to j (run_all (resolution j (length (job_items job))) s1) =
      Some (everyTruthy (outcomes validation eventType s)) /\
      forall ops,
        (forall i rule index arr p,
           job_items job !! i = Some (Waiting rule index arr p) -> Settle j i ∈ ops) ->
        resolved_to j (run_all (ops ++ [Finish j]) s1) =
        Some (everyTruthy (outcomes validation eventType s))).
Proof.
  intros Ev Eh Ha. unfold validate.
  eapply returns_mono;
    [exact (returns_conj _ _ _ _ (_validate_slots eventType false s validation Ev Eh)
              (_validate_spec eventType false s))|].
  intros res s1 [(_ & _ & Hkind) H]. cbv beta in H. rewrite Ha in Hkind.
  rewrite Ev, Eh in H. destruct H as (n & rm0 & loc & s0 & _ & Hstep & H).
  cbv zeta in Hstep. destruct Hstep as ((rq & rm & ->) & _ & _ & He & _).
  cbn in He.
  destruct (promisified loc); [|destruct H as [E _]; congruence].
  destruct H as [_ ->].
  assert (Ej : promises (runtime (add_job (job_of loc)
                 (with_validated rq rm
                    (with_next_array n
                       (with_validated (_requiredMessage (sources s)) (Some rm0) s)))))
               !! length (promises (runtime s)) = Some (job_of loc)).
  { cbn. by rewrite lookup_app_r, Nat.sub_diag. }
  exists (length (promises (runtime s))), (job_of loc).
  split; [done|]. split; [exact Ej|]. split.
  { unfold resolved_to. by rewrite Ej. }
  split.
  - rewrite (resolution_resolves _ _ _ Ej eq_refl). cbn [job_of job_items].
    by rewrite He.
  - intros ops Hall. rewrite (promise_resolves _ ops _ _ Ej eq_refl Hall).
    cbn [job_of job_items]. by rewrite He.
Qed.

Lemma validate_promise_resolves_witness :
  let validation := with_rules [failing_rule "S"; async_rule "A" (Resolves true)] in
  let s := run_all [SetValidation (Some validation)] (new_FieldCtrl None VUndefined) in
  _validation (settings s) = Some validation /\ held None s = false /\
  asynchronous validation None s = true /\
  returns (validate None) s (fun res s1 =>
    exists j job,
      res = Later j /\ promises (runtime s1) !! j = Some job /\
      resolved_to j s1 = None /\
      resolved_to j (run_all (resolution j (length (job_items job))) s1) =
      Some (everyTruthy (outcomes validation None s)) /\
      forall ops,
        (forall i rule index arr p,
           job_items job !! i = Some (Waiting rule index arr p) -> Settle j i ∈ ops) ->
        resolved_to j (run_all (ops ++ [Finish j]) s1) =
        Some (everyTruthy (outcomes validation None s))).
Proof.
  intros validation s.
  assert (H1 : _validation (settings s) = Some validation) by (vm_compute; reflexivity).
  assert (H2 : held None s = false) by (vm_compute; reflexivity).
  assert (H3 : asynchronous validation None s = true) by (vm_compute; reflexivity).
  split; [exact H1|]. split; [exact H2|]. split; [exact H3|].
  exact (validate_promise_resolves None s validation H1 H2 H3).
Defined.

(** ** C4: failures of a check stay inside [validate] *)

(** *** The failure message among the messages *)







(** A check whose promise rejects, run: [validate()] returns a promise;
    the promise of the check settles, then the promise of [validate]
    resolves to [false], and the messages of both rules are the field's
    messages. *)
Example rejected_promise_fails :
  match validate None rejecting_field with
  | Normal r s' =>
      r = Later 0%nat /\ resolved_to 0 s' = None /\
      resolved_to 0 (run_all [Settle 0 1; Finish 0] s') = Some false /\
      messages_list (run_all [Settle 0 1; Finish 0] s') =
        [{| message := Some "S"; type := Some error |};
         {| message := Some "R"; type := Some error |}] /\
      _error (params (run_all [Settle 0 1; Finish 0] s')) = true
  | Thrown _ => False
  end.
Proof. by vm_compute. Qed.

(** ** What an operation leaves of the settings *)

Lemma quiet_parent s s' : quiet s s' -> parent (settings s') = parent (settings s).
Proof. intros (-> & _). done. Qed.

Lemma _triggerListeners_parent p prev s :
  returns (_triggerListeners p prev) s (fun _ s' =>
    parent (settings s') = parent (settings s)).
Proof.
  eapply returns_mono; [apply _triggerListeners_quiet|].
  intros ? ? [H _]. by apply quiet_parent.
Qed.

Lemma _validate_parent eventType skip s :
  returns (_validate eventType skip) s (fun _ s' =>
    parent (settings s') = parent (settings s)).
Proof.
  eapply returns_mono; [apply _validate_quiet|].
  intros ? ? [H _]. by apply quiet_parent.
Qed.

Lemma _updateMessages_parent only skip s :
  returns (_updateMessages only skip) s (fun _ s' =>
    parent (settings s') = parent (settings s)).
Proof.
  eapply returns_mono; [apply _updateMessages_spec|]. by intros ? ? (new & -> & _).
Qed.

Ltac parent_call :=
  first [ mcall _validate_parent
        | mcall _triggerListeners_parent
        | mcall _updateMessages_parent ];
  let H := fresh "Hpa" in intros ? ? H; cbv beta in H.

Ltac parent_done :=
  repeat match goal with
         | H : parent (settings _) = _ |- _ => rewrite H; clear H
         end;
  try reflexivity.

Ltac parent_kept := repeat (msteps; parent_call); msteps; parent_done.

Lemma clearValidated_parent s :
  returns clearValidated s (fun _ s' => parent (settings s') = parent (settings s)).
Proof. unfold clearValidated. msteps. destruct (_ && _); parent_kept. Qed.

Lemma clear_parent s :
  returns clear s (fun _ s' => parent (settings s') = parent (settings s)).
Proof. unfold clear. parent_kept. Qed.

(** No operation on a field changes the entity it belongs to. *)
Lemma run_parent op s :
  returns (run op) s (fun _ s' =>
    parent (settings s') =
    match op with
    | SetParentOptions o =>
        match parent (settings s) with
        | Some _ => Some {| validationOptions := o |}
        | None => None
        end
    | _ => parent (settings s)
    end).
Proof.
  destruct op; cbn [run].
  - unfold set_value. parent_kept.
  - unfold touch_. parent_kept.
  - unfold set_touched. parent_kept.
  - unfold set_changed. parent_kept.
  - unfold set_errorOverride. msteps. destruct (decide _); [by mstep|].
    msteps. destruct o; parent_kept.
  - unfold set_warningOverride. msteps. destruct (decide _); [by mstep|].
    msteps. destruct o; parent_kept.
  - unfold set_customMessages. parent_kept.
  - apply clearValidated_parent.
  - apply clear_parent.
  - unfold reset. msteps. mcall clear_parent. intros ? ? Hpa. cbv beta in Hpa.
    parent_kept.
  - unfold set_required. msteps.
    destruct (match r, _validation (settings s) with
              | ReqBool false, None => true
              | _, _ => false
              end); [by mstep|].
    msteps. destruct (strict_equal_required _ r); [by mstep|].
    msteps. cbn [sources with_settings].
    destruct (_requiredMessage (sources s)); parent_kept.
  - unfold set_validation. msteps. mcall clearValidated_parent.
    intros ? ? Hpa. cbv beta in Hpa. parent_kept.
  - unfold validate. parent_kept.
  - unfold addListener, set_listeners. msteps. destruct (_listeners s p); by mstep.
  - unfold removeListener, set_listeners. msteps.
    destruct (_listeners s p) as [|l0|ls]; [by msteps| |].
    + destruct (decide (l0 = l)); by msteps.
    + destruct (_ && _); by msteps.
  - by mstep.
  - by mstep.
  - by mstep.
  - by mstep.
  - eapply returns_mono; [apply settle_quiet|].
    intros ? ? [H _]. by apply quiet_parent.
  - eapply returns_mono; [apply finish_quiet|].
    intros ? ? [H _]. by apply quiet_parent.
Qed.

Lemma validate_returns eventType s : exists r s', validate eventType s = Normal r s'.
Proof.
  destruct (returns_inv _ _ _ (_validate_spec eventType false s)) as (r & s' & E & _).
  by exists r, s'.
Qed.

Lemma validate_state eventType s :
  state_after (validate eventType s) = state_after (run (Validate eventType) s).
Proof.
  cbn [run]. rewrite bind_run. by destruct (validate eventType s).
Qed.

(** What [clear] and [reset] leave in a field. *)
Lemma clear_spec s :
  returns clear s (fun _ s' =>
    _error (params s') = false /\ _warning (params s') = false /\
    _messages (params s') = None /\ counters_of s' = counters_of s /\
    settings s' = settings s).
Proof.
  unfold clear. msteps.
  mcall _updateMessages_spec. intros _ ? (new & -> & _). done.
Qed.

Lemma reset_spec s :
  returns reset s (fun _ s' =>
    params s' = {| _value := defaultValue (settings s); _touched := 0; _changed := 0;
                   _error := false; _warning := false; _messages := None |} /\
    settings s' = settings s).
Proof.
  unfold reset, clear. msteps.
  mcall _updateMessages_spec. intros ? ? (new & -> & _).
  do 3 (msteps; mcall _triggerListeners_spec; intros ? ? (? & -> & _)). msteps.
  done.
Qed.

Lemma run_Clear : run Clear = clear.
Proof. reflexivity. Qed.

Lemma run_Reset : run Reset = reset.
Proof. reflexivity. Qed.

Lemma run_SetValue v : run (SetValue v) = set_value v.
Proof. reflexivity. Qed.

Lemma clear_returns s : exists s', clear s = Normal tt s'.
Proof. rewrite <- run_Clear. apply run_returns. Qed.

Lemma reset_returns s : exists s', reset s = Normal tt s'.
Proof. rewrite <- run_Reset. apply run_returns. Qed.

Lemma set_value_returns v s : exists s', set_value v s = Normal tt s'.
Proof. rewrite <- run_SetValue. apply run_returns. Qed.

Lemma clear_is_run s : state_after (clear s) = state_after (run Clear s).
Proof. by rewrite run_Clear. Qed.

Lemma reset_is_run s : state_after (reset s) = state_after (run Reset s).
Proof. by rewrite run_Reset. Qed.

Lemma set_value_is_run v s :
  state_after (set_value v s) = state_after (run (SetValue v) s).
Proof. by rewrite run_SetValue. Qed.

(** * Properties of the entity controller *)

Module EntityFacts.

Local Abbreviation clear_field := clear (only parsing).
Local Abbreviation reset_field := reset (only parsing).

Import Entity.

(** ** The map of fields *)

Section JsMapFacts.
Context {K V : Type} `{EqDecision K}.
Implicit Types (m : list (K * V)) (k : K) (v : V).

Lemma map_get_set_eq k v m : map_get k (map_set k v m) = Some v.
Proof.
  induction m as [|[k' v'] m IH]; cbn.
  - by rewrite decide_True.
  - destruct (decide (k' = k)) as [->|Hne]; cbn.
    + by rewrite decide_True.
    + by rewrite decide_False.
Qed.

Lemma map_get_set_ne k k' v m : k' <> k -> map_get k' (map_set k v m) = map_get k' m.
Proof.
  intros Hne. induction m as [|[k0 v0] m IH]; cbn.
  - by rewrite decide_False.
  - destruct (decide (k0 = k)) as [->|Hne0]; cbn.
    + by rewrite !decide_False.
    + destruct (decide (k0 = k')); [done|]. exact IH.
Qed.

Lemma map_get_Some k v m : map_get k m = Some v -> (k, v) ∈ m.
Proof.
  induction m as [|[k' v'] m IH]; cbn; [done|].
  destruct (decide (k' = k)) as [->|Hne].
  - intros [= ->]. apply list_elem_of_here.
  - intros H. apply list_elem_of_further. by apply IH.
Qed.

Lemma map_get_None k m : map_get k m = None <-> k ∉ map_keys m.
Proof.
  unfold map_keys. induction m as [|[k' v'] m IH]; cbn.
  - split; [intros _; apply not_elem_of_nil|done].
  - rewrite not_elem_of_cons. destruct (decide (k' = k)) as [->|Hne].
    + split; [done|]. by intros [? _].
    + rewrite IH. split; [by split|]. by intros [_ ?].
Qed.

Lemma map_has_keys k m : map_has k m = bool_decide (k ∈ map_keys m).
Proof.
  unfold map_has. apply bool_decide_ext.
  destruct (map_get k m) eqn:E.
  - split; [|by eauto]. intros _.
    destruct (decide (k ∈ map_keys m)) as [|Hn]; [done|].
    apply map_get_None in Hn. congruence.
  - split; [by intros [? ?]|]. intros Hin. by apply map_get_None in E.
Qed.

Lemma map_keys_set k v m :
  map_keys (map_set k v m) =
  if map_has k m then map_keys m else map_keys m ++ [k].
Proof.
  rewrite map_has_keys. unfold map_keys.
  induction m as [|[k' v'] m IH]; cbn.
  - by rewrite bool_decide_false by apply not_elem_of_nil.
  - destruct (decide (k' = k)) as [->|Hne]; cbn.
    + by rewrite bool_decide_true by apply list_elem_of_here.
    + rewrite IH. case_bool_decide as H1; case_bool_decide as H2; try done.
      * exfalso. apply H2. by apply list_elem_of_further.
      * exfalso. apply elem_of_cons in H2 as [->|]; done.
Qed.

Lemma map_set_NoDup k v m : NoDup (map_keys m) -> NoDup (map_keys (map_set k v m)).
Proof.
  intros Hnd. rewrite map_keys_set, map_has_keys. case_bool_decide as Hin; [done|].
  apply NoDup_app. split; [done|]. split; [|apply NoDup_singleton].
  intros x Hx Hx'. apply list_elem_of_singleton in Hx'. by subst.
Qed.

Lemma map_keys_delete k m : map_keys (map_delete k m) = filter (fun x => x <> k) (map_keys m).
Proof.
  unfold map_keys, map_delete. induction m as [|[k' v'] m IH]; [done|].
  rewrite filter_cons. cbn [fmap list_fmap fst]. rewrite filter_cons. cbn.
  destruct (decide (k' <> k)); cbn; by rewrite <- IH.
Qed.

Lemma map_get_delete_eq k m : map_get k (map_delete k m) = None.
Proof.
  apply map_get_None. rewrite map_keys_delete, list_elem_of_filter. by intros [? _].
Qed.

Lemma map_get_delete_ne k k' m : k' <> k -> map_get k' (map_delete k m) = map_get k' m.
Proof.
  intros Hne. unfold map_delete. induction m as [|[k0 v0] m IH]; [done|].
  rewrite filter_cons. cbn. destruct (decide (k0 <> k)) as [H0|H0]; cbn.
  - by rewrite IH.
  - destruct (decide (k0 = k')) as [->|]; [|done]. exfalso. apply H0. intros ->. done.
Qed.

Lemma map_delete_NoDup k m : NoDup (map_keys m) -> NoDup (map_keys (map_delete k m)).
Proof. intros H. rewrite map_keys_delete. by apply NoDup_filter. Qed.

End JsMapFacts.

(** ** Reasoning about methods of the entity *)

Lemma ereturns_ret {A} (a : A) e (Q : A -> EntityState -> Prop) :
  Q a e -> ereturns (eret a) e Q.
Proof. done. Qed.

Lemma ereturns_bind {A B} (m : EM A) (k : A -> EM B) e (Q : B -> EntityState -> Prop) :
  ereturns m e (fun a e' => ereturns (k a) e' Q) -> ereturns (ebind m k) e Q.
Proof. unfold ereturns, ebind. by destruct (m e). Qed.

Lemma ereturns_gets {A} (f : EntityState -> A) e (Q : A -> EntityState -> Prop) :
  Q (f e) e -> ereturns (egets f) e Q.
Proof. done. Qed.

Lemma ereturns_modify f e (Q : unit -> EntityState -> Prop) :
  Q tt (f e) -> ereturns (emodify f) e Q.
Proof. done. Qed.

Lemma ereturns_mono {A} (m : EM A) e (Q Q' : A -> EntityState -> Prop) :
  ereturns m e Q -> (forall a e', Q a e' -> Q' a e') -> ereturns m e Q'.
Proof. unfold ereturns. destruct (m e); [auto|done]. Qed.

Lemma ereturns_inv {A} (m : EM A) e (Q : A -> EntityState -> Prop) :
  ereturns m e Q -> exists a e', m e = ENormal a e' /\ Q a e'.
Proof. unfold ereturns. destruct (m e); [eauto|done]. Qed.

Lemma ereturns_after {A} (m : EM A) e (Q : A -> EntityState -> Prop) :
  ereturns m e Q -> exists a, Q a (entity_after (m e)).
Proof. unfold ereturns. destruct (m e); [eauto|done]. Qed.

Lemma ereturns_call {A} k fc (m : M A) e (Q : A -> EntityState -> Prop) :
  returns m fc (fun a fc' => Q a (with_fields (map_set k fc') e)) ->
  ereturns (call k fc m) e Q.
Proof. unfold returns, ereturns, call. by destruct (m fc). Qed.

(** One step through the body of a method of the entity. *)
Ltac estep :=
  lazymatch goal with
  | |- ereturns (ebind _ _) _ _ => apply ereturns_bind
  | |- ereturns (eret _) _ _ => apply ereturns_ret
  | |- ereturns (egets _) _ _ => apply ereturns_gets
  | |- ereturns (emodify _) _ _ => apply ereturns_modify
  end.
Ltac esteps := repeat estep.

Ltac ecall H :=
  lazymatch goal with
  | |- ereturns (ebind _ _) _ _ => apply ereturns_bind; eapply ereturns_mono; [apply H|]
  | |- ereturns _ _ _ => eapply ereturns_mono; [apply H|]
  end.

Lemma ebind_run {A B} (m : EM A) (k : A -> EM B) e :
  ebind m k e = match m e with ENormal a e' => k a e' | EThrown e' => EThrown e' end.
Proof. done. Qed.

(** ** Creating, finding and deleting fields *)

Lemma createField_spec k d e :
  ereturns (createField k d) e (fun fc e' =>
    fc = new_FieldCtrl (Some {| validationOptions := e_validationOptions e |}) d /\
    e' = with_fields (map_set k fc) e).
Proof. unfold createField. esteps. done. Qed.

Lemma field_spec k strict e :
  ereturns (field k strict) e (fun r e' =>
    match field_state k e with
    | Some fc => r = Some fc /\ e' = e
    | None =>
        if strict then r = None /\ e' = e
        else
          let fc := new_FieldCtrl (Some {| validationOptions := e_validationOptions e |})
                      VUndefined in
          r = Some fc /\ e' = with_fields (map_set k fc) e
    end).
Proof.
  unfold field, field_state. esteps.
  destruct (map_get k (_fields e)) as [fc|]; [by estep|].
  destruct strict; [by estep|].
  ecall createField_spec. intros fc e' [-> ->]. by estep.
Qed.

(** ** The invariant of an entity *)

Lemma entity_ok_new k : entity_ok (new_EntityState k).
Proof.
  split; [apply NoDup_nil_2|]. split; [done|]. done.
Qed.

Lemma entity_ok_set k fc e :
  entity_ok e -> reachable fc ->
  parent (settings fc) = Some {| validationOptions := e_validationOptions e |} ->
  entity_ok (with_fields (map_set k fc) e).
Proof.
  intros (Hnd & Hr & Hp) Hfc Hpa. split; [by apply map_set_NoDup|]. split.
  - intros k' fc' H. unfold field_state in H. cbn in H.
    destruct (decide (k' = k)) as [->|Hne].
    + rewrite map_get_set_eq in H. by injection H as <-.
    + rewrite map_get_set_ne in H by done. by eapply Hr.
  - intros k' fc' H. unfold field_state in H. cbn in *.
    destruct (decide (k' = k)) as [->|Hne].
    + rewrite map_get_set_eq in H. by injection H as <-.
    + rewrite map_get_set_ne in H by done. by eapply Hp.
Qed.

Lemma entity_ok_delete k e : entity_ok e -> entity_ok (with_fields (map_delete k) e).
Proof.
  intros (Hnd & Hr & Hp). split; [by apply map_delete_NoDup|].
  assert (Hsub : forall k' fc', field_state k' (with_fields (map_delete k) e) = Some fc' ->
                                field_state k' e = Some fc').
  { intros k' fc' H. unfold field_state in *. cbn in H.
    destruct (decide (k' = k)) as [->|Hne].
    - by rewrite map_get_delete_eq in H.
    - by rewrite map_get_delete_ne in H. }
  split.
  - intros k' fc' H. eapply Hr. by apply Hsub.
  - intros k' fc' H. cbn. eapply Hp. by apply Hsub.
Qed.

(** A call of a method that is an operation of the field. *)
Lemma call_run_ok {A} k fc (m : M A) op e :
  entity_ok e -> field_state k e = Some fc -> field_op op = true ->
  (forall s, state_after (m s) = state_after (run op s)) ->
  (forall s, exists a s', m s = Normal a s') ->
  ereturns (call k fc m) e (fun _ e' =>
    entity_ok e' /\ e' = with_fields (map_set k (state_after (run op fc))) e).
Proof.
  intros Hok Hk Hop Hst Hret. apply ereturns_call.
  destruct (Hret fc) as (a & fc' & E). unfold returns. rewrite E.
  assert (Efc : fc' = state_after (run op fc)) by (rewrite <- Hst; by rewrite E).
  subst fc'. split; [|done].
  pose proof Hok as (_ & Hr & Hp).
  apply entity_ok_set; [done|by constructor; eapply Hr|].
  destruct (returns_state_after _ _ _ (run_parent op fc)) as [_ Hpa].
  rewrite Hpa. destruct op; try done; by eapply Hp.
Qed.

Lemma createField_ok k d e :
  entity_ok e -> ereturns (createField k d) e (fun _ e' => entity_ok e').
Proof.
  intros Hok. ecall createField_spec. intros fc e' [-> ->].
  apply entity_ok_set; [done|constructor|done].
Qed.

Lemma field_ok k strict e :
  entity_ok e ->
  ereturns (field k strict) e (fun r e' =>
    entity_ok e' /\
    forall fc, r = Some fc -> field_state k e' = Some fc).
Proof.
  intros Hok. ecall field_spec. intros r e' H. cbv beta in H.
  destruct (field_state k e) as [fc|] eqn:E.
  - destruct H as [-> ->]. split; [done|]. by intros ? [= <-].
  - destruct strict.
    + destruct H as [-> ->]. done.
    + cbv zeta in H. destruct H as [-> ->]. split.
      * apply entity_ok_set; [done|constructor|done].
      * intros ? [= <-]. unfold field_state. cbn. apply map_get_set_eq.
Qed.

Lemma createFields_ok dv e :
  entity_ok e -> ereturns (createFields dv) e (fun _ e' => entity_ok e').
Proof.
  revert e. induction dv as [|[k d] dv IH]; intros e Hok; cbn [createFields].
  - by estep.
  - apply ereturns_bind. eapply ereturns_mono; [by apply createField_ok|].
    intros ? e' Hok'. by apply IH.
Qed.

Lemma deleteFields_ok fs e :
  entity_ok e -> ereturns (deleteFields fs) e (fun _ e' => entity_ok e').
Proof.
  intros Hok. destruct fs as [l|]; cbn [deleteFields]; estep.
  - revert e Hok. induction l as [|k l IH]; intros e Hok.
    + by destruct e.
    + cbn [foldl]. specialize (IH _ (entity_ok_delete k e Hok)). exact IH.
  - split; [apply NoDup_nil_2|]. split; [done|]. done.
Qed.

Lemma map_set_middle {V} (k : string) (v v' : V) l1 l2 :
  k ∉ map_keys l1 -> map_set k v' (l1 ++ (k, v) :: l2) = l1 ++ (k, v') :: l2.
Proof.
  unfold map_keys. induction l1 as [|[k0 v0] l1 IH]; cbn; intros Hk.
  - by rewrite decide_True.
  - apply not_elem_of_cons in Hk as [Hne Hk]. rewrite decide_False by done.
    by rewrite IH.
Qed.

(** [each_value m]: the method [m], an operation of the field, runs on
    every field, in the order of the map. *)
Lemma each_value_run (m : M unit) op :
  field_op op = true ->
  (forall s, state_after (m s) = state_after (run op s)) ->
  (forall s, exists s', m s = Normal tt s') ->
  forall todo done e,
    _fields e = done ++ todo -> NoDup (map_keys (done ++ todo)) ->
    each_value m todo e =
    ENormal tt (with_fields (fun _ =>
      done ++ map (fun kv => (kv.1, state_after (run op kv.2))) todo) e).
Proof.
  intros Hop Hst Hret. induction todo as [|[k fc] todo IH]; intros done e He Hnd.
  - cbn. unfold eret. f_equal. destruct e. cbn in *. by subst.
  - cbn [each_value]. unfold ebind, call. destruct (Hret fc) as (fc' & E). rewrite E.
    assert (Efc : fc' = state_after (run op fc)) by (rewrite <- Hst; by rewrite E).
    assert (Hk : k ∉ map_keys done).
    { unfold map_keys in *. rewrite fmap_app in Hnd. apply NoDup_app in Hnd as (_ & Hd & _).
      intros Hin. apply (Hd k Hin). cbn. apply list_elem_of_here. }
    rewrite (IH (done ++ [(k, fc')])).
    + f_equal. unfold with_fields. cbn. f_equal. rewrite <- app_assoc. cbn. by rewrite Efc.
    + cbn. rewrite He. rewrite map_set_middle by done. by rewrite <- app_assoc.
    + rewrite <- app_assoc. cbn. unfold map_keys in *. rewrite fmap_app in *. exact Hnd.
Qed.

Lemma each_value_all (m : M unit) op e :
  field_op op = true ->
  (forall s, state_after (m s) = state_after (run op s)) ->
  (forall s, exists s', m s = Normal tt s') ->
  NoDup (map_keys (_fields e)) ->
  each_value m (_fields e) e =
  ENormal tt (with_fields (map (fun kv => (kv.1, state_after (run op kv.2)))) e).
Proof.
  intros Hop Hst Hret Hnd.
  by rewrite (each_value_run m op Hop Hst Hret (_fields e) [] e).
Qed.

Lemma map_get_fmap (f : FieldCtrl -> FieldCtrl) k (m : list (string * FieldCtrl)) :
  map_get k (map (fun kv => (kv.1, f kv.2)) m) = f <$> map_get k m.
Proof.
  induction m as [|[k' v] m IH]; [done|]. cbn. by destruct (decide (k' = k)).
Qed.

Lemma map_keys_fmap (f : FieldCtrl -> FieldCtrl) (m : list (string * FieldCtrl)) :
  map_keys (map (fun kv => (kv.1, f kv.2)) m) = map_keys m.
Proof. unfold map_keys. induction m as [|[k' v] m IH]; [done|]. cbn. by f_equal. Qed.

(** Running an operation on every field keeps the invariant. *)
Lemma entity_ok_all op e :
  entity_ok e -> field_op op = true ->
  entity_ok (with_fields (map (fun kv => (kv.1, state_after (run op kv.2)))) e).
Proof.
  intros (Hnd & Hr & Hp) Hop.
  split; [unfold with_fields; cbn [_fields];
          by rewrite (map_keys_fmap (fun x => state_after (run op x)))|].
  assert (Hget : forall k fc', field_state k (with_fields
                    (map (fun kv => (kv.1, state_after (run op kv.2)))) e) = Some fc' ->
                 exists fc, field_state k e = Some fc /\ fc' = state_after (run op fc)).
  { intros k fc' H. unfold field_state, with_fields in *. cbn [_fields] in H.
    rewrite (map_get_fmap (fun x => state_after (run op x))) in H.
    destruct (map_get k (_fields e)) as [fc|]; [|done]. injection H as <-. eauto. }
  split.
  - intros k fc' H. destruct (Hget k fc' H) as (fc & E & ->). constructor. by eapply Hr.
  - intros k fc' H. destruct (Hget k fc' H) as (fc & E & ->). cbn.
    destruct (returns_state_after _ _ _ (run_parent op fc)) as [_ Hpa].
    rewrite Hpa. destruct op; try done; by eapply Hp.
Qed.

(** ** The loops over fields *)

Lemma map_set_set {V} (k : string) (v v' : V) m :
  map_set k v' (map_set k v m) = map_set k v' m.
Proof.
  induction m as [|[k0 v0] m IH]; cbn.
  - by rewrite decide_True.
  - destruct (decide (k0 = k)) as [->|Hne]; cbn.
    + by rewrite decide_True.
    + rewrite decide_False by done. by rewrite IH.
Qed.

Lemma assigned_ok k op strict e :
  entity_ok e -> field_op op = true -> entity_ok (assigned k op strict e).
Proof.
  intros Hok Hop. pose proof Hok as (Hnd & Hr & Hp). unfold assigned.
  assert (Hset : forall fc, reachable fc ->
            parent (settings fc) = Some {| validationOptions := e_validationOptions e |} ->
            entity_ok (with_fields (map_set k (state_after (run op fc))) e)).
  { intros fc Hfc Hpa. apply entity_ok_set; [done|by constructor|].
    destruct (returns_state_after _ _ _ (run_parent op fc)) as [_ Hpa'].
    rewrite Hpa'. by destruct op. }
  destruct (field_state k e) as [fc|] eqn:E.
  - apply Hset; [by eapply Hr|by eapply Hp].
  - destruct strict; [done|]. apply Hset; [constructor|done].
Qed.

Lemma _setFieldsParam_run (assign : JsValue -> M unit) (opf : JsValue -> Op) strict :
  (forall v s, state_after (assign v s) = state_after (run (opf v) s)) ->
  (forall v s, exists s', assign v s = Normal tt s') ->
  forall ps e,
    _setFieldsParam assign ps strict e =
    ENormal tt (foldl (fun e kv => assigned kv.1 (opf kv.2) strict e) e ps).
Proof.
  intros Hst Hret. induction ps as [|[k v] ps IH]; intros e; [done|].
  cbn [_setFieldsParam foldl fst snd]. rewrite ebind_run.
  pose proof (field_spec k strict e) as Hf. unfold ereturns in Hf.
  destruct (field k strict e) as [r e1|e1]; [|done].
  rewrite ebind_run. unfold assigned.
  destruct (field_state k e) as [fc|] eqn:E.
  - destruct Hf as [-> ->]. unfold call.
    destruct (Hret v fc) as (fc' & E'). rewrite E'.
    rewrite IH. by rewrite <- Hst, E'.
  - destruct strict.
    + destruct Hf as [-> ->]. unfold eret. by rewrite IH.
    + cbv zeta in Hf. destruct Hf as [-> ->]. unfold call.
      match goal with |- context [assign v ?x] => destruct (Hret v x) as (fc' & E') end.
      rewrite E'. rewrite IH. rewrite <- Hst, E'. cbn [state_after].
      unfold with_fields. cbn. by rewrite map_set_set.
Qed.

Lemma foldl_assigned_ok opf strict (ps : list (string * JsValue)) e :
  entity_ok e -> (forall v, field_op (opf v) = true) ->
  entity_ok (foldl (fun e kv => assigned kv.1 (opf kv.2) strict e) e ps).
Proof.
  intros Hok Hop. revert e Hok.
  induction ps as [|[k v] ps IH]; intros e Hok; [done|].
  cbn [foldl]. apply IH. by apply assigned_ok.
Qed.

Lemma setValues_run values strict e :
  setValues values strict e =
  ENormal tt (foldl (fun e kv => assigned kv.1 (SetValue kv.2) strict e) e values).
Proof.
  unfold setValues. apply (_setFieldsParam_run set_value SetValue strict).
  - apply set_value_is_run.
  - apply set_value_returns.
Qed.

Lemma setDefaultValues_run values strict e :
  setDefaultValues values strict e =
  ENormal tt (foldl (fun e kv => assigned kv.1 (SetDefaultValue kv.2) strict e) e values).
Proof.
  unfold setDefaultValues.
  apply (_setFieldsParam_run (fun v => modify (with_settings (put_defaultValue v)))
           SetDefaultValue strict).
  - done.
  - intros v s. by eexists.
Qed.

Lemma validate_loop_run eventType ks : forall acc e,
  validate_loop eventType ks acc e =
  ENormal (acc ++ collected eventType ks e) (validated eventType ks e).
Proof.
  induction ks as [|k ks IH]; intros acc e.
  - cbn. by rewrite app_nil_r.
  - cbn [validate_loop collected]. unfold validated. cbn [foldl].
    unfold ebind, egets, assigned, field_state.
    destruct (map_get k (_fields e)) as [fc|] eqn:E.
    + unfold call. destruct (validate_returns eventType fc) as (r & fc' & E').
      rewrite E'. rewrite IH. rewrite <- validate_state, E'. cbn [state_after].
      unfold validated, assigned, field_state. by rewrite <- app_assoc.
    + rewrite IH. done.
Qed.

Lemma validated_ok eventType ks e : entity_ok e -> entity_ok (validated eventType ks e).
Proof.
  unfold validated. revert e. induction ks as [|k ks IH]; intros e Hok; [done|].
  cbn [foldl]. apply IH. by apply assigned_ok.
Qed.

Lemma entity_ok_options o e :
  entity_ok e ->
  entity_ok {| key := key e;
               _fields := map (fun kv => (kv.1, state_after (run (SetParentOptions o) kv.2)))
                            (_fields e);
               e_validationOptions := o |}.
Proof.
  intros (Hnd & Hr & Hp). split.
  { cbn [_fields].
    by rewrite (map_keys_fmap (fun x => state_after (run (SetParentOptions o) x))). }
  assert (Hget : forall k fc',
            map_get k (map (fun kv => (kv.1, state_after (run (SetParentOptions o) kv.2)))
                         (_fields e)) = Some fc' ->
            exists fc, field_state k e = Some fc /\
                       fc' = state_after (run (SetParentOptions o) fc)).
  { intros k fc' H.
    rewrite (map_get_fmap (fun x => state_after (run (SetParentOptions o) x))) in H.
    unfold field_state. destruct (map_get k (_fields e)) as [fc|]; [|done].
    injection H as <-. eauto. }
  split.
  - intros k fc' H. destruct (Hget k fc' H) as (fc & E & ->). constructor. by eapply Hr.
  - intros k fc' H. destruct (Hget k fc' H) as (fc & E & ->). cbn.
    by rewrite (Hp k fc E).
Qed.

Lemma validate_run fs eventType e :
  Entity.validate fs eventType e =
  ENormal (all_results (collected eventType (keys_of fs e) e))
    (validated eventType (keys_of fs e) e).
Proof.
  unfold Entity.validate, all_results, keys_of. rewrite ebind_run.
  destruct fs as [l|]; unfold eret, egets; rewrite ebind_run, validate_loop_run; done.
Qed.

Lemma clear_run e :
  NoDup (map_keys (_fields e)) ->
  Entity.clear e =
  ENormal tt (with_fields (map (fun kv => (kv.1, state_after (run Clear kv.2)))) e).
Proof.
  intros Hnd. unfold Entity.clear. rewrite ebind_run. unfold egets.
  apply (each_value_all clear_field Clear e eq_refl clear_is_run clear_returns Hnd).
Qed.

Lemma reset_run e :
  NoDup (map_keys (_fields e)) ->
  Entity.reset e =
  ENormal tt (with_fields (map (fun kv => (kv.1, state_after (run Reset kv.2)))) e).
Proof.
  intros Hnd. unfold Entity.reset. rewrite ebind_run. unfold egets.
  apply (each_value_all reset_field Reset e eq_refl reset_is_run reset_returns Hnd).
Qed.

(** Every operation on an entity returns normally and keeps the
    invariant. *)
Lemma run_entity_ok op e :
  entity_ok e -> ereturns (run_entity op) e (fun _ e' => entity_ok e').
Proof.
  intros Hok. destruct op; cbn [run_entity].
  - apply ereturns_bind. eapply ereturns_mono; [by apply createField_ok|].
    intros ? e' H. by estep.
  - apply ereturns_bind. eapply ereturns_mono; [by apply field_ok|].
    intros ? e' [H _]. by estep.
  - unfold deleteField. esteps. by apply entity_ok_delete.
  - by apply createFields_ok.
  - by apply deleteFields_ok.
  - unfold ereturns. rewrite clear_run by by destruct Hok. by apply entity_ok_all.
  - unfold ereturns. rewrite reset_run by by destruct Hok. by apply entity_ok_all.
  - unfold ereturns. rewrite setValues_run. by apply foldl_assigned_ok.
  - unfold ereturns. rewrite setDefaultValues_run. by apply foldl_assigned_ok.
  - apply ereturns_bind. unfold ereturns at 1. rewrite validate_run.
    estep. by apply validated_ok.
  - unfold set_validationOptions. estep. by apply entity_ok_options.
  - estep. estep. cbv beta. destruct (map_get k (_fields e)) as [fc|] eqn:E; [|by estep].
    destruct (field_op op) eqn:Hop; [|by estep].
    eapply ereturns_mono; [apply (call_run_ok k fc (run op) op e Hok E Hop)|].
    + done.
    + intros s. destruct (run_returns op s) as [s' Es]. by exists tt, s'.
    + by intros ? e' [H _].
Qed.

Lemma reachable_entity_ok e : reachable_entity e -> entity_ok e.
Proof.
  induction 1 as [k|e op Hr IH]; [apply entity_ok_new|].
  by destruct (ereturns_after _ _ _ (run_entity_ok op e IH)) as [_ H].
Qed.

(** ** Results on the map of fields *)

(** X15.  [createField(k, d)] puts a new controller under [k]: its value
    is the default value [d], its counters are zero, it has no messages, no
    configuration and no listeners, and its parent is this entity.  A
    controller that was under [k] is replaced, and [k] keeps its place in
    [fields]; a new key goes to the end.  The other fields are not
    touched. *)
Theorem createField_overrides k d e :
  ereturns (createField k d) e (fun fc e' =>
    fc = new_FieldCtrl (Some {| validationOptions := e_validationOptions e |}) d /\
    field_state k e' = Some fc /\
    (forall k', k' <> k -> field_state k' e' = field_state k' e) /\
    map_keys (_fields e') =
      (if bool_decide (k ∈ map_keys (_fields e))
       then map_keys (_fields e) else map_keys (_fields e) ++ [k]) /\
    key e' = key e /\ e_validationOptions e' = e_validationOptions e).
Proof.
  ecall createField_spec. intros fc e' [-> ->]. unfold field_state, with_fields.
  cbn [_fields key e_validationOptions].
  split; [done|]. split; [apply map_get_set_eq|]. split.
  - intros k' Hne. by apply map_get_set_ne.
  - split; [|done]. by rewrite map_keys_set, map_has_keys.
Qed.

(** X16.  [field(k, strict)] returns the controller under [k] and changes
    nothing when there is one.  When there is none, a strict call returns
    [undefined] and creates nothing; otherwise a controller with the default
    value [undefined] is created at the end of [fields] and returned. *)
Theorem field_finds_or_creates k strict e :
  ereturns (field k strict) e (fun r e' =>
    field_state k e' = r /\
    (forall k', k' <> k -> field_state k' e' = field_state k' e) /\
    match field_state k e with
    | Some fc => r = Some fc /\ e' = e
    | None =>
        if strict then r = None /\ e' = e
        else r = Some (new_FieldCtrl
                         (Some {| validationOptions := e_validationOptions e |})
                         VUndefined) /\
             map_keys (_fields e') = map_keys (_fields e) ++ [k]
    end).
Proof.
  ecall field_spec. intros r e' H. cbv beta in H.
  destruct (field_state k e) as [fc|] eqn:E.
  - destruct H as [-> ->]. done.
  - destruct strict.
    + destruct H as [-> ->]. done.
    + cbv zeta in H. destruct H as [-> ->]. unfold field_state, with_fields in *.
      cbn [_fields key e_validationOptions].
      split; [apply map_get_set_eq|]. split.
      * intros k' Hne. by apply map_get_set_ne.
      * split; [done|]. rewrite map_keys_set. unfold map_has. by rewrite E.
Qed.

(** X17.  [deleteField(k)] returns whether there was a controller under [k]
    ([hasField(k)] before the call); afterwards there is none, and the
    other fields are as they were, in the same order. *)
Theorem deleteField_deletes k e :
  ereturns (had <~ hasField k ;; deleted <~ deleteField k ;; eret (had, deleted)) e
    (fun r e' =>
       r.2 = r.1 /\
       r.1 = bool_decide (k ∈ map_keys (_fields e)) /\
       field_state k e' = None /\
       ereturns (hasField k) e' (fun has _ => has = false) /\
       (forall k', k' <> k -> field_state k' e' = field_state k' e) /\
       map_keys (_fields e') = filter (fun x => x <> k) (map_keys (_fields e))).
Proof.
  unfold hasField, deleteField. esteps. unfold field_state, with_fields.
  cbn [_fields key e_validationOptions fst snd].
  split; [done|]. split; [apply map_has_keys|]. split; [apply map_get_delete_eq|].
  split.
  { unfold ereturns, egets, map_has. cbn [_fields]. rewrite map_get_delete_eq.
    apply bool_decide_eq_false. by intros [? ?]. }
  split; [|apply map_keys_delete].
  intros k' Hne. by apply map_get_delete_ne.
Qed.

(** X18.  In every state an entity can reach, the keys of [fields] are
    distinct, every field is in a state that the field controller's own
    operations reach from a new controller (so what holds of all reachable
    field states holds of the fields of an entity), and every field reads
    the validation options of this entity.  Every operation on such an
    entity returns normally. *)
Theorem entity_keeps_its_fields_valid e op :
  reachable_entity e ->
  NoDup (map_keys (_fields e)) /\
  (forall k fc, field_state k e = Some fc ->
     reachable fc /\
     parent (settings fc) = Some {| validationOptions := e_validationOptions e |}) /\
  exists e', run_entity op e = ENormal tt e'.
Proof.
  intros Hr. pose proof (reachable_entity_ok e Hr) as Hok.
  destruct Hok as (Hnd & Hf & Hp). split; [done|]. split.
  - intros k fc E. split; [by eapply Hf|by eapply Hp].
  - destruct (ereturns_inv _ _ _ (run_entity_ok op e (conj Hnd (conj Hf Hp))))
      as ([] & e' & E & _). by exists e'.
Qed.

Lemma entity_keeps_its_fields_valid_witness :
  let e := entity_after (run_entity (SetValues [("a", VNum 1); ("b", VStr "x")] false)
                           (new_EntityState VUndefined)) in
  reachable_entity e /\
  NoDup (map_keys (_fields e)) /\
  (forall k fc, field_state k e = Some fc ->
     reachable fc /\
     parent (settings fc) = Some {| validationOptions := e_validationOptions e |}) /\
  exists e', run_entity ResetAll e = ENormal tt e'.
Proof.
  intros e.
  assert (H : reachable_entity e) by (apply reachable_entity_run, reachable_entity_new).
  split; [exact H|]. exact (entity_keeps_its_fields_valid e ResetAll H).
Defined.

(** ** Reading and assigning values *)

Lemma object_set_own k v o :
  k <> proto_key ->
  own (object_set k v o) = <[k := v]> (own o) /\
  prototype (object_set k v o) = prototype o.
Proof. intros Hk. unfold object_set. by rewrite bool_decide_false by done. Qed.

Lemma object_set_ignored v o :
  prototype o = ObjectPrototype -> ignored_as_prototype v = true ->
  object_set proto_key v o = o.
Proof.
  intros Hp Hv. unfold object_set, inherits_proto. rewrite Hp.
  rewrite bool_decide_true by done. by destruct v.
Qed.

Lemma get_loop_total read ks : forall result e,
  exists result', get_loop read ks result e = ENormal result' e.
Proof.
  induction ks as [|k0 ks IH]; intros result e; [by exists result|].
  cbn [get_loop]. rewrite ebind_run. unfold egets.
  destruct (map_get k0 (_fields e)); apply IH.
Qed.

Lemma get_loop_ext read1 read2 ks : forall result e,
  (forall k fc, field_state k e = Some fc -> read1 fc = read2 fc) ->
  get_loop read1 ks result e = get_loop read2 ks result e.
Proof.
  induction ks as [|k0 ks IH]; intros result e H; [done|].
  cbn [get_loop]. rewrite !ebind_run. unfold egets.
  destruct (map_get k0 (_fields e)) as [fc|] eqn:E; [|by apply IH].
  rewrite (H k0 fc E). by apply IH.
Qed.

Lemma bool_decide_cons_ne (k k0 : string) ks :
  k <> k0 ->
  bool_decide (k ∈ k0 :: ks /\ k <> proto_key) = bool_decide (k ∈ ks /\ k <> proto_key).
Proof.
  intros Hne. apply bool_decide_ext. rewrite elem_of_cons.
  split; [by intros [[?|?] ?]|intros [? ?]; by split; [right|]].
Qed.

Lemma get_loop_run read ks : forall result e,
  prototype result = ObjectPrototype ->
  (proto_key ∈ ks ->
   forall fc, field_state proto_key e = Some fc -> ignored_as_prototype (read fc) = true) ->
  exists result',
    get_loop read ks result e = ENormal result' e /\
    prototype result' = ObjectPrototype /\
    forall k, own result' !! k =
              if bool_decide (k ∈ ks /\ k <> proto_key)
              then match field_state k e with
                   | Some fc => Some (read fc)
                   | None => own result !! k
                   end
              else own result !! k.
Proof.
  induction ks as [|k0 ks IH]; intros result e Hproto Hp.
  - exists result. split; [done|]. split; [done|]. intros k.
    rewrite bool_decide_false; [done|]. intros [H _]. by apply not_elem_of_nil in H.
  - assert (Hp' : proto_key ∈ ks ->
              forall fc, field_state proto_key e = Some fc ->
                         ignored_as_prototype (read fc) = true).
    { intros Hin. apply Hp. by apply list_elem_of_further. }
    cbn [get_loop]. rewrite ebind_run. unfold egets.
    destruct (map_get k0 (_fields e)) as [fc|] eqn:E.
    + destruct (decide (k0 = proto_key)) as [->|Hk0].
      * rewrite object_set_ignored;
          [|done|by apply (Hp (list_elem_of_here _ _) fc)].
        destruct (IH result e Hproto Hp') as (r' & Er & Hpr & Hr).
        exists r'. split; [exact Er|]. split; [exact Hpr|]. intros k. rewrite Hr.
        destruct (decide (k = proto_key)) as [->|Hne].
        -- rewrite !bool_decide_false; [done|by intros [_ ?]|by intros [_ ?]].
        -- by rewrite bool_decide_cons_ne.
      * destruct (object_set_own k0 (read fc) result Hk0) as [Hown Hpr0].
        destruct (IH (object_set k0 (read fc) result) e) as (r' & Er & Hpr & Hr);
          [congruence|done|].
        exists r'. split; [exact Er|]. split; [exact Hpr|]. intros k.
        rewrite Hr, Hown.
        destruct (decide (k = k0)) as [->|Hne].
        -- rewrite (bool_decide_true (k0 ∈ k0 :: ks /\ k0 <> proto_key))
             by (split; [apply list_elem_of_here|done]).
           unfold field_state. rewrite E, lookup_insert_eq.
           by destruct (bool_decide _).
        -- rewrite lookup_insert_ne by done. by rewrite bool_decide_cons_ne.
    + destruct (IH result e Hproto Hp') as (r' & Er & Hpr & Hr).
      exists r'. split; [exact Er|]. split; [exact Hpr|]. intros k. rewrite Hr.
      destruct (decide (k = k0)) as [->|Hne].
      * unfold field_state. rewrite E. by repeat destruct (bool_decide _).
      * by rewrite bool_decide_cons_ne.
Qed.

Lemma _getFieldsParam_run read fs e :
  (proto_key ∈ keys_of fs e ->
   forall fc, field_state proto_key e = Some fc -> ignored_as_prototype (read fc) = true) ->
  exists result,
    _getFieldsParam read fs e = ENormal result e /\
    prototype result = ObjectPrototype /\
    forall k, own result !! k =
              if bool_decide (k ∈ keys_of fs e /\ k <> proto_key)
              then read <$> field_state k e else None.
Proof.
  intros Hp. unfold _getFieldsParam. rewrite ebind_run.
  destruct (get_loop_run read (keys_of fs e) empty_object e eq_refl Hp)
    as (r & Er & Hproto & Hr).
  exists r. split; [|split; [exact Hproto|]].
  - destruct fs as [l|]; unfold eret, egets; exact Er.
  - intros k. rewrite Hr. cbn [empty_object own]. rewrite lookup_empty.
    by destruct (field_state k e).
Qed.

Lemma _getFieldsParam_ext read1 read2 fs e :
  (forall k fc, field_state k e = Some fc -> read1 fc = read2 fc) ->
  exists result,
    _getFieldsParam read1 fs e = ENormal result e /\
    _getFieldsParam read2 fs e = ENormal result e.
Proof.
  intros H. unfold _getFieldsParam. rewrite !ebind_run.
  destruct (get_loop_total read1 (keys_of fs e) empty_object e) as (r & Er).
  exists r. destruct fs as [l|]; unfold eret, egets; cbn [keys_of] in Er;
    by rewrite <- (get_loop_ext read1 read2 _ _ _ H).
Qed.

(** X19.  [getValues(fields)] changes nothing and returns a plain object
    whose own properties are exactly the fields that exist among those
    asked for (all the fields of the entity when [fields] is omitted), each
    with its current value; fields that do not exist are left out.  The
    key [__proto__] is the exception: an assignment to that key of the
    result creates no property, so a field of this name is not in the
    result.  (Its value, if it is read, is taken to be neither an object
    nor [null]: these would become the prototype of the result.)
    [getDefaultValues] does the same with the default values. *)
Theorem getValues_reads_existing_fields fs e :
  (proto_key ∈ keys_of fs e ->
   forall fc, field_state proto_key e = Some fc ->
     ignored_as_prototype (_value (params fc)) = true /\
     ignored_as_prototype (defaultValue (settings fc)) = true) ->
  ereturns (getValues fs) e (fun r e' =>
    e' = e /\ prototype r = ObjectPrototype /\
    forall k, own r !! k =
              if bool_decide (k ∈ keys_of fs e /\ k <> proto_key)
              then (fun fc => _value (params fc)) <$> field_state k e
              else None) /\
  ereturns (getDefaultValues fs) e (fun r e' =>
    e' = e /\ prototype r = ObjectPrototype /\
    forall k, own r !! k =
              if bool_decide (k ∈ keys_of fs e /\ k <> proto_key)
              then (fun fc => defaultValue (settings fc)) <$> field_state k e
              else None).
Proof.
  intros Hp. split.
  - unfold getValues, ereturns.
    destruct (_getFieldsParam_run (fun fc => _value (params fc)) fs e)
      as (r & -> & Hr); [|done].
    intros Hin fc E. by destruct (Hp Hin fc E).
  - unfold getDefaultValues, ereturns.
    destruct (_getFieldsParam_run (fun fc => defaultValue (settings fc)) fs e)
      as (r & -> & Hr); [|done].
    intros Hin fc E. by destruct (Hp Hin fc E).
Qed.

Lemma getValues_reads_existing_fields_witness :
  let e := entity_after
             (run_entity (SetValues [("name", VStr "Ada"); ("__proto__", VNum 1);
                                     ("age", VNum 36)] false)
                (new_EntityState VUndefined)) in
  let fs := Some ["age"; "__proto__"; "email"] in
  (proto_key ∈ keys_of fs e ->
   forall fc, field_state proto_key e = Some fc ->
     ignored_as_prototype (_value (params fc)) = true /\
     ignored_as_prototype (defaultValue (settings fc)) = true) /\
  ereturns (getValues fs) e (fun r e' =>
    e' = e /\ prototype r = ObjectPrototype /\
    forall k, own r !! k =
              if bool_decide (k ∈ keys_of fs e /\ k <> proto_key)
              then (fun fc => _value (params fc)) <$> field_state k e
              else None).
Proof.
  intros e fs.
  assert (H : proto_key ∈ keys_of fs e ->
              forall fc, field_state proto_key e = Some fc ->
                ignored_as_prototype (_value (params fc)) = true /\
                ignored_as_prototype (defaultValue (settings fc)) = true).
  { intros _ fc E. vm_compute in E. injection E as <-. by vm_compute. }
  split; [exact H|]. exact (proj1 (getValues_reads_existing_fields fs e H)).
Defined.

(** The key [__proto__], run: a field of that name is not read back, and
    an object or [null] it holds becomes the prototype of the result. *)
Example getValues_skips_proto :
  ereturns (createField proto_key (VNum 1) ;;~ createField "a" (VNum 2) ;;~ getValues None)
    (new_EntityState VUndefined)
    (fun r _ => own r !! proto_key = None /\ own r !! "a" = Some (VNum 2) /\
                prototype r = ObjectPrototype) /\
  ereturns (createField proto_key (VObj 7) ;;~ createField "a" (VNum 2) ;;~ getValues None)
    (new_EntityState VUndefined)
    (fun r _ => own r !! proto_key = None /\ own r !! "a" = Some (VNum 2) /\
                prototype r = ObjectValue 7) /\
  ereturns (createField proto_key VNull ;;~ getValues (Some [proto_key; proto_key]))
    (new_EntityState VUndefined)
    (fun r _ => own r !! proto_key = Some VNull /\ prototype r = NullPrototype).
Proof. by vm_compute. Qed.

Lemma assigned_same k op strict e :
  field_state k (assigned k op strict e) = assigned_field k op strict e.
Proof.
  unfold assigned, assigned_field, field_state.
  destruct (map_get k (_fields e)) as [fc|] eqn:E.
  - cbn. apply map_get_set_eq.
  - destruct strict; [done|]. cbn. apply map_get_set_eq.
Qed.

Lemma assigned_other k k' op strict e :
  k' <> k -> field_state k' (assigned k op strict e) = field_state k' e.
Proof.
  intros Hne. unfold assigned, field_state.
  destruct (map_get k (_fields e)) as [fc|] eqn:E.
  - cbn. by apply map_get_set_ne.
  - destruct strict; [done|]. cbn. by apply map_get_set_ne.
Qed.

Lemma assigned_options k op strict e :
  e_validationOptions (assigned k op strict e) = e_validationOptions e.
Proof.
  unfold assigned. destruct (field_state k e); [done|]. by destruct strict.
Qed.

Lemma foldl_assigned_options opf strict (ps : list (string * JsValue)) e :
  e_validationOptions (foldl (fun e kv => assigned kv.1 (opf kv.2) strict e) e ps) =
  e_validationOptions e.
Proof.
  revert e. induction ps as [|[k v] ps IH]; intros e; [done|].
  cbn [foldl]. by rewrite IH, assigned_options.
Qed.

Lemma foldl_assigned_other opf strict (ps : list (string * JsValue)) e k :
  k ∉ ps.*1 ->
  field_state k (foldl (fun e kv => assigned kv.1 (opf kv.2) strict e) e ps) =
  field_state k e.
Proof.
  revert e. induction ps as [|[k0 v0] ps IH]; intros e Hk; [done|].
  cbn in Hk. apply not_elem_of_cons in Hk as [Hne Hk].
  cbn [foldl]. rewrite IH by done. by apply assigned_other.
Qed.

Lemma foldl_assigned_lookup opf strict (ps : list (string * JsValue)) e k v :
  NoDup ps.*1 -> (k, v) ∈ ps ->
  field_state k (foldl (fun e kv => assigned kv.1 (opf kv.2) strict e) e ps) =
  assigned_field k (opf v) strict e.
Proof.
  revert e. induction ps as [|[k0 v0] ps IH]; intros e Hnd Hin.
  { by apply elem_of_nil in Hin. }
  cbn in Hnd. apply NoDup_cons in Hnd as [Hk0 Hnd].
  cbn [foldl fst snd]. apply elem_of_cons in Hin as [[= -> ->]|Hin].
  - rewrite foldl_assigned_other by done. apply assigned_same.
  - assert (Hne : k <> k0).
    { intros ->. apply Hk0. apply list_elem_of_fmap. by exists (k0, v). }
    rewrite IH by done. unfold assigned_field.
    by rewrite assigned_other, assigned_options.
Qed.

Lemma field_state_None k e : field_state k e = None <-> k ∉ map_keys (_fields e).
Proof. apply map_get_None. Qed.

Lemma run_SetValue_value v fc : _value (params (state_after (run (SetValue v) fc))) = v.
Proof.
  destruct (returns_state_after _ _ _ (run_counters (SetValue v) fc)) as [_ H].
  unfold counters_of, expected_counters in H. by injection H.
Qed.

Lemma run_SetValue_changed v fc :
  _changed (params (state_after (run (SetValue v) fc))) = number_incr (_changed (params fc)) /\
  _touched (params (state_after (run (SetValue v) fc))) = _touched (params fc).
Proof.
  destruct (returns_state_after _ _ _ (run_counters (SetValue v) fc)) as [_ H].
  unfold counters_of, expected_counters in H. by injection H.
Qed.

(** X20.  [setValues(values)] followed by [getValues()]: every field named
    in [values] (created if it was missing) reads the value assigned to it,
    and every other field reads the value it had.  The keys of [values] are
    distinct, and [__proto__] is neither one of them nor a field of the
    entity. *)
Theorem setValues_then_getValues values e :
  NoDup values.*1 -> proto_key ∉ values.*1 -> proto_key ∉ map_keys (_fields e) ->
  ereturns (setValues values false ;;~ getValues None) e (fun r _ =>
    prototype r = ObjectPrototype /\
    forall k, own r !! k =
              match (list_to_map values : gmap string JsValue) !! k with
              | Some v => Some v
              | None => (fun fc => _value (params fc)) <$> field_state k e
              end).
Proof.
  intros Hnd Hpv Hpe. unfold ereturns. rewrite ebind_run, setValues_run.
  set (e1 := foldl _ e values).
  assert (Hp1 : proto_key ∉ keys_of None e1).
  { cbn [keys_of]. apply field_state_None. unfold e1.
    rewrite (foldl_assigned_other SetValue false values e proto_key Hpv).
    by apply field_state_None. }
  unfold getValues.
  destruct (_getFieldsParam_run (fun fc => _value (params fc)) None e1)
    as (r & -> & Hproto & Hr); [done|].
  split; [exact Hproto|]. intros k. rewrite Hr.
  assert (Hall : (if bool_decide (k ∈ keys_of None e1 /\ k <> proto_key)
                  then (fun fc => _value (params fc)) <$> field_state k e1
                  else None) = (fun fc => _value (params fc)) <$> field_state k e1).
  { destruct (decide (k ∈ keys_of None e1 /\ k <> proto_key)) as [Hin|Hin].
    - by rewrite bool_decide_true by done.
    - rewrite bool_decide_false by done.
      assert (Hk : k ∉ map_keys (_fields e1)).
      { intros Hk. apply Hin. split; [exact Hk|]. by intros ->. }
      apply field_state_None in Hk. by rewrite Hk. }
  rewrite Hall.
  destruct (list_to_map values !! k) as [v|] eqn:Ev.
  - apply elem_of_list_to_map in Ev; [|done].
    unfold e1. rewrite (foldl_assigned_lookup SetValue false values e k v Hnd Ev).
    unfold assigned_field. destruct (field_state k e) as [fc|]; cbn [fmap option_fmap option_map];
      by rewrite run_SetValue_value.
  - apply not_elem_of_list_to_map in Ev.
    unfold e1. by rewrite (foldl_assigned_other SetValue false values e k Ev).
Qed.

Lemma setValues_then_getValues_witness :
  let values := [("name", VStr "Ada"); ("age", VNum 36)] in
  let e := entity_after (run_entity (CreateField "name" (VStr "")) (new_EntityState VUndefined)) in
  NoDup values.*1 /\ (proto_key ∉ values.*1) /\ (proto_key ∉ map_keys (_fields e)) /\
  ereturns (setValues values false ;;~ getValues None) e (fun r _ =>
    prototype r = ObjectPrototype /\
    forall k, own r !! k =
              match (list_to_map values : gmap string JsValue) !! k with
              | Some v => Some v
              | None => (fun fc => _value (params fc)) <$> field_state k e
              end).
Proof.
  intros values e.
  assert (H1 : NoDup values.*1).
  { unfold values. cbn. apply NoDup_cons. split; [|apply NoDup_singleton].
    intros H. apply list_elem_of_singleton in H. discriminate. }
  assert (H2 : proto_key ∉ values.*1).
  { unfold values. cbn. intros H.
    repeat (apply elem_of_cons in H as [H|H]; [discriminate|]). by apply elem_of_nil in H. }
  assert (H3 : proto_key ∉ map_keys (_fields e)).
  { intros H. vm_compute in H.
    repeat (apply elem_of_cons in H as [H|H]; [discriminate|]). by apply elem_of_nil in H. }
  split; [exact H1|]. split; [exact H2|]. split; [exact H3|].
  exact (setValues_then_getValues values e H1 H2 H3).
Defined.

(** ** The counters of an entity *)

Lemma total_acc f (m : list (string * FieldCtrl)) a :
  foldl (fun n kv => n + f kv.2) a m = a + total f m.
Proof.
  unfold total. revert a. induction m as [|[k v] m IH]; intros a; cbn [foldl].
  - lia.
  - rewrite (IH (a + f (k, v).2)), (IH (0 + f (k, v).2)). lia.
Qed.

Lemma total_cons f k v m : total f ((k, v) :: m) = f v + total f m.
Proof. unfold total at 1. cbn [foldl]. rewrite total_acc. cbn. lia. Qed.

Lemma total_map_set f k v m :
  total f (map_set k v m) = total f m - default 0 (f <$> map_get k m) + f v.
Proof.
  induction m as [|[k' v'] m IH]; cbn [map_set map_get].
  - rewrite total_cons. unfold total. cbn. lia.
  - destruct (decide (k' = k)) as [->|Hne].
    + rewrite !total_cons. cbn. lia.
    + rewrite !total_cons, IH. lia.
Qed.

Lemma total_nonneg f (m : list (string * FieldCtrl)) :
  Forall (fun kv => 0 <= f kv.2) m -> 0 <= total f m.
Proof.
  induction 1 as [|[k v] m Hv _ IH]; [done|]. rewrite total_cons. cbn [snd] in Hv. lia.
Qed.

Lemma total_bounds f k fc (m : list (string * FieldCtrl)) :
  Forall (fun kv => 0 <= f kv.2) m -> map_get k m = Some fc -> 0 <= f fc <= total f m.
Proof.
  induction 1 as [|[k' v'] m Hv Hm IH]; cbn [map_get]; [done|].
  rewrite total_cons. cbn [snd] in Hv. pose proof (total_nonneg f m Hm).
  destruct (decide (k' = k)) as [->|Hne].
  - intros [= ->]. lia.
  - intros E. specialize (IH E). lia.
Qed.

Lemma Forall_map_set (P : FieldCtrl -> Prop) k v (m : list (string * FieldCtrl)) :
  P v -> Forall (fun kv => P kv.2) m -> Forall (fun kv => P kv.2) (map_set k v m).
Proof.
  intros Hv. induction 1 as [|[k' v'] m Hv' Hm IH]; cbn [map_set].
  - by repeat constructor.
  - destruct (decide (k' = k)); constructor; done.
Qed.

(** Within [2^53] the sum the getters compute is the sum of the integers. *)
Lemma number_add_exact x b : Z.abs (x + b) <= 2 ^ 53 -> number_add (Num x) b = Num (x + b).
Proof.
  intros H. unfold number_add. rewrite to_number_exact by done. cbv zeta.
  rewrite (proj2 (Z.leb_le _ _)); [done|].
  etransitivity; [exact H|]. by vm_compute.
Qed.

Lemma sum_exact f (m : list (string * FieldCtrl)) : forall a,
  0 <= a -> Forall (fun kv => 0 <= f kv.2) m -> a + total f m <= 2 ^ 53 ->
  foldl (fun n kv => number_add n (f kv.2)) (Num a) m = Num (a + total f m).
Proof.
  induction m as [|[k v] m IH]; intros a Ha Hm Hb.
  - unfold total. cbn. f_equal. lia.
  - apply Forall_cons in Hm as [Hv Hm]. cbn [snd] in Hv.
    rewrite total_cons in Hb |- *. pose proof (total_nonneg f m Hm).
    cbn [foldl snd]. rewrite number_add_exact by lia.
    rewrite IH by (done || lia). f_equal. lia.
Qed.

(** The fields count: their counters are not negative. *)
Lemma assigned_SetValue_total k v strict e :
  Forall (fun kv : string * FieldCtrl =>
            0 <= _touched (params kv.2) /\ 0 <= _changed (params kv.2)) (_fields e) ->
  total (fun fc => _changed (params fc)) (_fields e) < 2 ^ 53 ->
  total (fun fc => _changed (params fc)) (_fields (assigned k (SetValue v) strict e)) =
  total (fun fc => _changed (params fc)) (_fields e) +
  (if strict && negb (map_has k (_fields e)) then 0 else 1) /\
  total (fun fc => _touched (params fc)) (_fields (assigned k (SetValue v) strict e)) =
  total (fun fc => _touched (params fc)) (_fields e) /\
  Forall (fun kv : string * FieldCtrl =>
            0 <= _touched (params kv.2) /\ 0 <= _changed (params kv.2))
    (_fields (assigned k (SetValue v) strict e)) /\
  (strict = true ->
   map_keys (_fields (assigned k (SetValue v) strict e)) = map_keys (_fields e)).
Proof.
  intros Hpos Hb.
  assert (Hc : Forall (fun kv : string * FieldCtrl => 0 <= _changed (params kv.2)) (_fields e)).
  { eapply Forall_impl; [exact Hpos|]. by intros kv [_ ?]. }
  unfold assigned, field_state, map_has.
  destruct (map_get k (_fields e)) as [fc|] eqn:E.
  - rewrite bool_decide_true by eauto. rewrite andb_false_r.
    unfold with_fields. cbn [_fields]. rewrite !total_map_set, E.
    destruct (run_SetValue_changed v fc) as [Hch Hto].
    pose proof (total_bounds (fun fc => _changed (params fc)) k fc _ Hc E) as Hfc.
    cbv beta in Hfc.
    assert (Hfc' : 0 <= _touched (params fc)).
    { apply map_get_Some in E. rewrite Forall_forall in Hpos.
      by destruct (Hpos _ E). }
    rewrite number_incr_exact in Hch by lia. rewrite Hch, Hto.
    cbn [default fmap option_fmap option_map]; unfold id.
    split; [lia|]. split; [lia|]. split.
    + apply (Forall_map_set (fun fc => 0 <= _touched (params fc) /\ 0 <= _changed (params fc)));
        [|done]. cbv beta. rewrite Hch, Hto. lia.
    + intros _. rewrite map_keys_set. unfold map_has.
      rewrite E. by rewrite bool_decide_true by eauto.
  - rewrite bool_decide_false by (by intros [? ?]). rewrite andb_true_r.
    destruct strict; cbn [negb]; [split; [lia|done]|].
    unfold with_fields. cbn [_fields]. rewrite !total_map_set, E.
    match goal with |- context [run (SetValue v) ?x] =>
      destruct (run_SetValue_changed v x) as [Hch Hto] end.
    rewrite number_incr_exact in Hch by (cbn; lia).
    rewrite Hch, Hto. cbn [default fmap option_fmap option_map]; unfold id.
    change (_changed (params (new_FieldCtrl
              (Some {| validationOptions := e_validationOptions e |}) VUndefined))) with 0.
    change (_touched (params (new_FieldCtrl
              (Some {| validationOptions := e_validationOptions e |}) VUndefined))) with 0.
    split; [lia|]. split; [lia|]. split; [|done].
    apply (Forall_map_set (fun fc => 0 <= _touched (params fc) /\ 0 <= _changed (params fc)));
      [|done]. cbv beta. rewrite Hch, Hto.
    change (_changed (params (new_FieldCtrl
              (Some {| validationOptions := e_validationOptions e |}) VUndefined))) with 0.
    change (_touched (params (new_FieldCtrl
              (Some {| validationOptions := e_validationOptions e |}) VUndefined))) with 0.
    lia.
Qed.

Lemma foldl_assigned_total strict values : forall e,
  Forall (fun kv : string * FieldCtrl =>
            0 <= _touched (params kv.2) /\ 0 <= _changed (params kv.2)) (_fields e) ->
  total (fun fc => _changed (params fc)) (_fields e) + Z.of_nat (length values) <= 2 ^ 53 ->
  let e' := foldl (fun e kv => assigned kv.1 (SetValue kv.2) strict e) e values in
  total (fun fc => _changed (params fc)) (_fields e') =
    total (fun fc => _changed (params fc)) (_fields e) +
    Z.of_nat (if strict
              then length (filter (fun kv => kv.1 ∈ map_keys (_fields e)) values)
              else length values) /\
  total (fun fc => _touched (params fc)) (_fields e') =
    total (fun fc => _touched (params fc)) (_fields e) /\
  Forall (fun kv : string * FieldCtrl =>
            0 <= _touched (params kv.2) /\ 0 <= _changed (params kv.2)) (_fields e') /\
  (strict = true -> map_keys (_fields e') = map_keys (_fields e)).
Proof.
  induction values as [|[k v] values IH]; intros e Hpos Hb; cbv zeta; cbn [foldl fst snd].
  { split; [destruct strict; cbn; lia|]. done. }
  cbn [length] in Hb.
  destruct (assigned_SetValue_total k v strict e Hpos) as (Hc & Ht & Hpos1 & Hk); [lia|].
  destruct (IH (assigned k (SetValue v) strict e) Hpos1) as (Hc' & Ht' & Hpos' & Hk').
  { rewrite Hc. destruct (strict && _); lia. }
  cbv zeta in Hc', Ht', Hpos', Hk'. rewrite Hc', Ht', Hc, Ht.
  split; [|split; [done|split; [done|]]].
  - destruct strict; cbn [andb negb].
    + rewrite (Hk eq_refl). rewrite filter_cons. cbn [fst]. rewrite map_has_keys.
      destruct (decide (k ∈ map_keys (_fields e))) as [Hin|Hin].
      * rewrite bool_decide_true by done. cbn [negb length]. lia.
      * rewrite bool_decide_false by done. cbn [negb]. lia.
    + cbn [length]. lia.
  - intros Hs. rewrite (Hk' Hs). by apply Hk.
Qed.

(** X21.  Each pair of [setValues(values, strict)] that reaches a field
    counts as one change of the entity: [changed] grows by the number of
    pairs -- also when a pair assigns the value the field has already --
    and, with [strict], by the number of pairs whose field exists; [touched]
    stays.  With [strict] no field is created.  This is so for counters
    that count: none is negative, and the sums stay within [2^53], beyond
    which [++] and [+] do not add one. *)
Theorem setValues_counts_changes values strict e :
  Forall (fun kv : string * FieldCtrl =>
            0 <= _touched (params kv.2) /\ 0 <= _changed (params kv.2)) (_fields e) ->
  total (fun fc => _touched (params fc)) (_fields e) <= 2 ^ 53 ->
  total (fun fc => _changed (params fc)) (_fields e) + Z.of_nat (length values) <= 2 ^ 53 ->
  ereturns get_changed e (fun before _ =>
  ereturns get_touched e (fun touched_before _ =>
  ereturns (setValues values strict) e (fun _ e' =>
    ereturns get_changed e' (fun after _ =>
      exists n, before = Num n /\
        after = Num (n + Z.of_nat
                  (if strict
                   then length (filter (fun kv => kv.1 ∈ map_keys (_fields e)) values)
                   else length values))) /\
    ereturns get_touched e' (fun after _ => after = touched_before) /\
    (strict = true -> map_keys (_fields e') = map_keys (_fields e))))).
Proof.
  intros Hpos Ht Hc.
  assert (Hsum : forall e0,
            Forall (fun kv : string * FieldCtrl =>
                      0 <= _touched (params kv.2) /\ 0 <= _changed (params kv.2))
              (_fields e0) ->
            total (fun fc => _touched (params fc)) (_fields e0) <= 2 ^ 53 ->
            total (fun fc => _changed (params fc)) (_fields e0) <= 2 ^ 53 ->
            get_touched e0 = ENormal (Num (total (fun fc => _touched (params fc)) (_fields e0))) e0 /\
            get_changed e0 = ENormal (Num (total (fun fc => _changed (params fc)) (_fields e0))) e0).
  { intros e0 Hp H1 H2. unfold get_touched, get_changed, egets. split; f_equal.
    - rewrite (sum_exact (fun fc => _touched (params fc))); [done|lia| |lia].
      eapply Forall_impl; [exact Hp|]. by intros kv [? _].
    - rewrite (sum_exact (fun fc => _changed (params fc))); [done|lia| |lia].
      eapply Forall_impl; [exact Hp|]. by intros kv [_ ?]. }
  destruct (Hsum e Hpos Ht) as [Et Ec]; [lia|].
  unfold ereturns at 1. rewrite Ec. unfold ereturns at 1. rewrite Et.
  unfold ereturns at 1. rewrite setValues_run.
  destruct (foldl_assigned_total strict values e Hpos Hc) as (Hc' & Ht' & Hpos' & Hk).
  cbv zeta in Hc', Ht', Hpos', Hk.
  set (e' := foldl _ e values) in *.
  destruct (Hsum e' Hpos') as [Et' Ec'].
  { by rewrite Ht'. }
  { rewrite Hc'. destruct strict; [|lia].
    pose proof (length_filter (fun kv : string * JsValue => kv.1 ∈ map_keys (_fields e)) values).
    lia. }
  unfold ereturns. rewrite Et', Ec'. split; [|split; [by rewrite Ht'|exact Hk]].
  eexists. split; [reflexivity|]. by rewrite Hc'.
Qed.

Lemma setValues_counts_changes_witness :
  let e := entity_after (run_entity (SetValues [("a", VNum 1)] false)
                           (new_EntityState VUndefined)) in
  let values := [("a", VNum 1); ("b", VNum 2)] in
  Forall (fun kv : string * FieldCtrl =>
            0 <= _touched (params kv.2) /\ 0 <= _changed (params kv.2)) (_fields e) /\
  total (fun fc => _touched (params fc)) (_fields e) <= 2 ^ 53 /\
  total (fun fc => _changed (params fc)) (_fields e) + Z.of_nat (length values) <= 2 ^ 53 /\
  ereturns get_changed e (fun before _ =>
  ereturns get_touched e (fun touched_before _ =>
  ereturns (setValues values true) e (fun _ e' =>
    ereturns get_changed e' (fun after _ =>
      exists n, before = Num n /\
        after = Num (n + Z.of_nat
                  (length (filter (fun kv => kv.1 ∈ map_keys (_fields e)) values)))) /\
    ereturns get_touched e' (fun after _ => after = touched_before) /\
    (true = true -> map_keys (_fields e') = map_keys (_fields e))))).
Proof.
  intros e values.
  assert (H1 : Forall (fun kv : string * FieldCtrl =>
                  0 <= _touched (params kv.2) /\ 0 <= _changed (params kv.2)) (_fields e)).
  { vm_compute. repeat constructor; discriminate. }
  assert (H2 : total (fun fc => _touched (params fc)) (_fields e) <= 2 ^ 53)
    by (vm_compute; discriminate).
  assert (H3 : total (fun fc => _changed (params fc)) (_fields e) +
               Z.of_nat (length values) <= 2 ^ 53) by (vm_compute; discriminate).
  split; [exact H1|]. split; [exact H2|]. split; [exact H3|].
  exact (setValues_counts_changes values true e H1 H2 H3).
Defined.

(** The sum of counters that have been assigned the largest number is an
    infinity. *)
Example entity_sum_overflows :
  ereturns (createField "a" VNull ;;~ createField "b" VNull ;;~
            run_entity (OnField "a" (SetChanged max_number)) ;;~
            run_entity (OnField "b" (SetChanged max_number)) ;;~
            changed_sum <~ get_changed ;; touched_sum <~ get_touched ;;
            eret (changed_sum, touched_sum))
    (new_EntityState VUndefined)
    (fun r _ => r = (Infinity false, Num 0)).
Proof. by vm_compute. Qed.

(** ** [clear] and [reset] of an entity *)

Lemma run_Reset_params fc :
  params (state_after (run Reset fc)) =
    {| _value := defaultValue (settings (state_after (run Reset fc)));
       _touched := 0; _changed := 0;
       _error := false; _warning := false; _messages := None |}.
Proof.
  rewrite run_Reset.
  destruct (returns_state_after _ _ _ (reset_spec fc)) as [_ [Hp Hs]].
  by rewrite Hp, Hs.
Qed.

Lemma sum_zero f (m : list (string * FieldCtrl)) :
  Forall (fun kv => f kv.2 = 0) m ->
  foldl (fun n kv => number_add n (f kv.2)) (Num 0) m = Num 0.
Proof.
  induction 1 as [|[k v] m Hv _ IH]; [done|]. cbn [foldl snd] in *. by rewrite Hv.
Qed.

Lemma existsb_false {A} (f : A -> bool) l :
  Forall (fun x => f x = false) l -> existsb f l = false.
Proof. induction 1 as [|x l Hx _ IH]; [done|]. cbn. by rewrite Hx, IH. Qed.

Lemma filter_none {A} (P : A -> Prop) `{forall x, Decision (P x)} l :
  Forall (fun x => ~ P x) l -> filter P l = [].
Proof.
  induction 1 as [|x l Hx _ IH]; [done|]. rewrite filter_cons.
  by destruct (decide (P x)).
Qed.

Lemma Forall_map_fields (P : FieldCtrl -> Prop) (g : FieldCtrl -> FieldCtrl)
    (m : list (string * FieldCtrl)) :
  (forall fc, P (g fc)) ->
  Forall (fun kv => P kv.2) (map (fun kv => (kv.1, g kv.2)) m).
Proof. intros H. induction m as [|[k fc] m IH]; constructor; [apply H|exact IH]. Qed.

(** What the getters of an entity read when every field is as [reset]
    leaves it. *)
Lemma aggregates_of_reset_fields e' :
  Forall (fun kv : string * FieldCtrl =>
            params kv.2 = {| _value := defaultValue (settings kv.2);
                             _touched := 0; _changed := 0;
                             _error := false; _warning := false;
                             _messages := None |}) (_fields e') ->
  (forall k fc, field_state k e' = Some fc ->
     params fc = {| _value := defaultValue (settings fc); _touched := 0; _changed := 0;
                    _error := false; _warning := false; _messages := None |}) /\
  ereturns get_touched e' (fun n _ => n = Num 0) /\
  ereturns get_changed e' (fun n _ => n = Num 0) /\
  ereturns get_error e' (fun b _ => b = false) /\
  ereturns get_warning e' (fun b _ => b = false) /\
  ereturns touchedFields e' (fun l _ => l = []) /\
  ereturns changedFields e' (fun l _ => l = []) /\
  ereturns errorFields e' (fun l _ => l = []) /\
  ereturns warningFields e' (fun l _ => l = []) /\
  ereturns (getValues None) e' (fun r _ =>
    ereturns (getDefaultValues None) e' (fun d _ => r = d)).
Proof.
  intros Hall. split.
  { intros k fc E. apply map_get_Some in E.
    rewrite Forall_forall in Hall. exact (Hall _ E). }
  unfold ereturns, get_touched, get_changed, get_error, get_warning,
    touchedFields, changedFields, errorFields, warningFields, _getFieldsIf, egets.
  split; [apply (sum_zero (fun fc => _touched (params fc))); eapply Forall_impl;
            [exact Hall|]; intros kv Hkv; cbv beta; by rewrite Hkv|].
  split; [apply (sum_zero (fun fc => _changed (params fc))); eapply Forall_impl;
            [exact Hall|]; intros kv Hkv; cbv beta; by rewrite Hkv|].
  split; [apply existsb_false; eapply Forall_impl; [exact Hall|];
          intros kv Hkv; cbv beta; by rewrite Hkv|].
  split; [apply existsb_false; eapply Forall_impl; [exact Hall|];
          intros kv Hkv; cbv beta; by rewrite Hkv|].
  assert (Hnone : forall p, p ∈ [touched; changed; error_; warning_] ->
            filter (fun kv : string * FieldCtrl => truthy_param p kv.2 = true)
              (_fields e') = []).
  { intros p Hp. apply filter_none. eapply Forall_impl; [exact Hall|].
    intros kv Hkv. unfold truthy_param. rewrite Hkv.
    repeat (apply elem_of_cons in Hp as [->|Hp]; [by cbn|]).
    by apply elem_of_nil in Hp. }
  split; [rewrite (Hnone touched); [done|set_solver]|].
  split; [rewrite (Hnone changed); [done|set_solver]|].
  split; [rewrite (Hnone error_); [done|set_solver]|].
  split; [rewrite (Hnone warning_); [done|set_solver]|].
  unfold getValues, getDefaultValues.
  destruct (_getFieldsParam_ext (fun fc => _value (params fc))
              (fun fc => defaultValue (settings fc)) None e') as (r & -> & ->); [|done].
  intros k fc E. apply map_get_Some in E. rewrite Forall_forall in Hall.
  pose proof (Hall _ E) as Hfc. cbn [snd] in Hfc. by rewrite Hfc.
Qed.

(** X22.  [reset()] of an entity resets every field and keeps the fields
    and their order.  Afterwards every field holds its default value, with
    both counters at zero, no flags and no messages; so [touched] and
    [changed] of the entity are [0], [error] and [warning] are [false],
    [touchedFields], [changedFields], [errorFields] and [warningFields] are
    empty, and [getValues()] equals [getDefaultValues()]. *)
Theorem reset_resets_every_field e :
  reachable_entity e ->
  ereturns Entity.reset e (fun _ e' =>
    map_keys (_fields e') = map_keys (_fields e) /\
    (forall k fc, field_state k e' = Some fc ->
       params fc = {| _value := defaultValue (settings fc); _touched := 0; _changed := 0;
                      _error := false; _warning := false; _messages := None |}) /\
    ereturns get_touched e' (fun n _ => n = Num 0) /\
    ereturns get_changed e' (fun n _ => n = Num 0) /\
    ereturns get_error e' (fun b _ => b = false) /\
    ereturns get_warning e' (fun b _ => b = false) /\
    ereturns touchedFields e' (fun l _ => l = []) /\
    ereturns changedFields e' (fun l _ => l = []) /\
    ereturns errorFields e' (fun l _ => l = []) /\
    ereturns warningFields e' (fun l _ => l = []) /\
    ereturns (getValues None) e' (fun r _ =>
      ereturns (getDefaultValues None) e' (fun d _ => r = d))).
Proof.
  intros Hr. destruct (reachable_entity_ok e Hr) as (Hnd & _ & _).
  unfold ereturns at 1. rewrite reset_run by done. split.
  { unfold with_fields. cbn [_fields].
    apply (map_keys_fmap (fun x => state_after (run Reset x))). }
  apply aggregates_of_reset_fields.
  unfold with_fields. cbn [_fields].
  apply (Forall_map_fields
           (fun fc => params fc = {| _value := defaultValue (settings fc);
                                     _touched := 0; _changed := 0;
                                     _error := false; _warning := false;
                                     _messages := None |})
           (fun x => state_after (run Reset x))).
  intros fc. apply run_Reset_params.
Qed.

Lemma reset_resets_every_field_witness :
  let e := entity_after (run_entity (SetValues [("a", VNum 1); ("b", VStr "x")] false)
                           (new_EntityState VUndefined)) in
  reachable_entity e /\
  ereturns Entity.reset e (fun _ e' =>
    map_keys (_fields e') = map_keys (_fields e) /\
    (forall k fc, field_state k e' = Some fc ->
       params fc = {| _value := defaultValue (settings fc); _touched := 0; _changed := 0;
                      _error := false; _warning := false; _messages := None |}) /\
    ereturns get_touched e' (fun n _ => n = Num 0) /\
    ereturns get_changed e' (fun n _ => n = Num 0) /\
    ereturns get_error e' (fun b _ => b = false) /\
    ereturns get_warning e' (fun b _ => b = false) /\
    ereturns touchedFields e' (fun l _ => l = []) /\
    ereturns changedFields e' (fun l _ => l = []) /\
    ereturns errorFields e' (fun l _ => l = []) /\
    ereturns warningFields e' (fun l _ => l = []) /\
    ereturns (getValues None) e' (fun r _ =>
      ereturns (getDefaultValues None) e' (fun d _ => r = d))).
Proof.
  intros e.
  assert (H : reachable_entity e) by (apply reachable_entity_run, reachable_entity_new).
  split; [exact H|]. exact (reset_resets_every_field e H).
Defined.

End EntityFacts.
